(** * WikidAI backend: validator, knowledge agents, orchestration loop and
    conversation store, embedded from the TypeScript sources.

    Part I holds the definitions, one per source function and named after it;
    Part II holds the properties proved of them.

    Modelling conventions.
    - A JavaScript string is a Rocq [string]; one [ascii] stands for one code
      unit.  On the ASCII range case mapping and white space are written out;
      what the engine does with characters outside that range (their upper-
      and lower-case forms, which of them are white space) is left to the
      runtime, which is asked about each maximal stretch of units from 128
      upwards.  The blocked keywords, the commands and the texts built by the
      program are ASCII; literal pictographs are kept as the bytes of the
      source file.
    - Integer-valued numbers (counters, lengths, millisecond clocks and
      latencies) are [nat] or [Z]; numbers the program only prints
      (coordinates, temperatures) belong to an abstract type [Num] with its
      printing function.
    - A thrown [Error] is the [Throw] case of [Result], carrying the message.
    - Whatever lies outside the repository (the sparqljs parser, the HTTP
      services, the chat provider, the clock, identifier generation,
      [encodeURIComponent]) is a parameter of the definitions. *)

From Stdlib Require Import String Ascii List ZArith Lia Bool Arith.
From Stdlib Require Import DecimalString Decimal Permutation Sorted.
Import ListNotations.
Open Scope string_scope.

(* ================================================================== *)
(** * Part I: definitions *)
(* ================================================================== *)

(** ** Thrown errors *)

Inductive Result (A : Type) : Type :=
| Ok (value : A)
| Throw (message : string).
Arguments Ok {A} value.
Arguments Throw {A} message.

(** ** The string primitives of the JavaScript runtime that the sources use *)

Module JS.

Definition is_lower (c : ascii) : bool :=
  let n := nat_of_ascii c in ((97 <=? n) && (n <=? 122))%nat.

Definition upper_char (c : ascii) : ascii :=
  if is_lower c then ascii_of_nat (nat_of_ascii c - 32) else c.

Definition is_upper (c : ascii) : bool :=
  let n := nat_of_ascii c in ((65 <=? n) && (n <=? 90))%nat.

Definition lower_char (c : ascii) : ascii :=
  if is_upper c then ascii_of_nat (nat_of_ascii c + 32) else c.

Definition is_ascii (c : ascii) : bool := (nat_of_ascii c <? 128)%nat.

(** A text as the engine's character tables see it: the characters of the
    ASCII range one by one, and between them the maximal stretches of units
    that belong to characters outside that range. *)
Inductive Segment : Type :=
| Plain (c : ascii)
| Other (stretch : string).

Fixpoint segments (s : string) : list Segment :=
  match s with
  | EmptyString => []
  | String c rest =>
      if is_ascii c then Plain c :: segments rest
      else match segments rest with
           | Other stretch :: more => Other (String c stretch) :: more
           | more => Other (String c EmptyString) :: more
           end
  end.

Fixpoint text_of (segs : list Segment) : string :=
  match segs with
  | [] => EmptyString
  | Plain c :: more => String c (text_of more)
  | Other stretch :: more => stretch ++ text_of more
  end.

(** [String.prototype.toUpperCase]; [other] gives the upper-case form of a
    stretch outside ASCII (the mapping has no context rules). *)
Fixpoint upper_of (other : string -> string) (segs : list Segment) : string :=
  match segs with
  | [] => EmptyString
  | Plain c :: more => String (upper_char c) (upper_of other more)
  | Other stretch :: more => other stretch ++ upper_of other more
  end.

Definition toUpperCase (other : string -> string) (s : string) : string :=
  upper_of other (segments s).

(** [String.prototype.toLowerCase]; [other before stretch after] gives the
    lower-case form of a stretch outside ASCII standing between [before] and
    [after] (the form of a capital sigma depends on its neighbours). *)
Fixpoint lower_of (other : string -> string -> string -> string)
         (before : string) (segs : list Segment) : string :=
  match segs with
  | [] => EmptyString
  | Plain c :: more =>
      String (lower_char c) (lower_of other (before ++ String c EmptyString) more)
  | Other stretch :: more =>
      other before stretch (text_of more)
        ++ lower_of other (before ++ stretch) more
  end.

Definition toLowerCase (other : string -> string -> string -> string)
           (s : string) : string :=
  lower_of other EmptyString (segments s).

(** [s.startsWith(k)] *)
Fixpoint startsWith (k s : string) : bool :=
  match k, s with
  | EmptyString, _ => true
  | String _ _, EmptyString => false
  | String a k', String b s' => Ascii.eqb a b && startsWith k' s'
  end.

(** [s.includes(k)] *)
Fixpoint includes (s k : string) : bool :=
  startsWith k s
  || match s with
     | EmptyString => false
     | String _ rest => includes rest k
     end.

(** [s.substring(0, n)] *)
Definition substring0 (n : nat) (s : string) : string := substring 0 n s.

(** Decimal rendering of a non-negative integer, as in a template literal. *)
Definition nat_to_string (n : nat) : string :=
  NilEmpty.string_of_uint (Nat.to_uint n).

(** Decimal rendering of an integer. *)
Definition Z_to_string (z : Z) : string :=
  match z with
  | Z0 => "0"
  | Zpos p => nat_to_string (Pos.to_nat p)
  | Zneg p => "-" ++ nat_to_string (Pos.to_nat p)
  end.

(** [s.replace(pat, by)] with a string pattern: the first occurrence only. *)
Fixpoint replace (pat by_ s : string) : string :=
  if startsWith pat s then by_ ++ substring (String.length pat) (String.length s) s
  else match s with
       | EmptyString => EmptyString
       | String c rest => String c (replace pat by_ rest)
       end.

(** The white space of the ASCII range: blank, tab, line feed, vertical
    tab, form feed and carriage return. *)
Definition is_space (c : ascii) : bool :=
  let n := nat_of_ascii c in
  ((n =? 32) || ((9 <=? n) && (n <=? 13)))%nat.

(** The units of a stretch, each with the engine's word on whether it
    belongs to a white-space character. *)
Fixpoint pair_up (stretch : string) (marks : list bool) : list (ascii * bool) :=
  match stretch with
  | EmptyString => []
  | String c rest =>
      match marks with
      | b :: bs => (c, b) :: pair_up rest bs
      | [] => (c, false) :: pair_up rest []
      end
  end.

(** The units of a text, each marked when it is white space for [trim] and
    for the class [\s]; [other] marks the units of a stretch outside ASCII. *)
Fixpoint marked_of (other : string -> list bool) (segs : list Segment)
  : list (ascii * bool) :=
  match segs with
  | [] => []
  | Plain c :: more => (c, is_space c) :: marked_of other more
  | Other stretch :: more => (pair_up stretch (other stretch) ++ marked_of other more)%list
  end.

Definition marked (other : string -> list bool) (s : string) : list (ascii * bool) :=
  marked_of other (segments s).

Fixpoint unmarked (l : list (ascii * bool)) : string :=
  match l with
  | [] => EmptyString
  | (c, _) :: rest => String c (unmarked rest)
  end.

Fixpoint trimStart (l : list (ascii * bool)) : list (ascii * bool) :=
  match l with
  | (_, true) :: rest => trimStart rest
  | _ => l
  end.

Fixpoint trimEnd (l : list (ascii * bool)) : list (ascii * bool) :=
  match l with
  | [] => []
  | (c, b) :: rest =>
      match trimEnd rest with
      | [] => if b then [] else [(c, b)]
      | kept => (c, b) :: kept
      end
  end.

(** [s.trim()] *)
Definition trim (other : string -> list bool) (s : string) : string :=
  unmarked (trimEnd (trimStart (marked other s))).

(** [parts.join(sep)] *)
Definition join (sep : string) (parts : list string) : string :=
  String.concat sep parts.

(** [s.replace(/\s+/g, by)]: every maximal run of white space. *)
Fixpoint replace_runs (by_ : string) (l : list (ascii * bool)) : string :=
  match l with
  | [] => EmptyString
  | (c, true) :: rest =>
      match rest with
      | (_, true) :: _ => replace_runs by_ rest
      | _ => by_ ++ replace_runs by_ rest
      end
  | (c, false) :: rest => String c (replace_runs by_ rest)
  end.

Definition replace_spaces (other : string -> list bool) (by_ s : string) : string :=
  replace_runs by_ (marked other s).

(** [array.slice(0, n)] and [array.slice(n)] for a non-negative integer [n]. *)
Definition slice_to {A} (n : nat) (l : list A) : list A := firstn n l.
Definition slice_from {A} (n : nat) (l : list A) : list A := skipn n l.

(** A [Map] with string keys: entries in insertion order, keys unique. *)
Section StringMap.
Context {V : Type}.
Definition Map := list (string * V).

Fixpoint get (k : string) (m : Map) : option V :=
  match m with
  | [] => None
  | (k', v) :: rest => if String.eqb k' k then Some v else get k rest
  end.

(** [m.set(k, v)]: an existing key keeps its place, a new one goes last. *)
Fixpoint set (k : string) (v : V) (m : Map) : Map :=
  match m with
  | [] => [(k, v)]
  | (k', v') :: rest =>
      if String.eqb k' k then (k, v) :: rest else (k', v') :: set k v rest
  end.

Definition has (k : string) (m : Map) : bool :=
  match get k m with Some _ => true | None => false end.

Definition delete (k : string) (m : Map) : Map :=
  filter (fun e => negb (String.eqb (fst e) k)) m.

Definition size (m : Map) : nat := List.length m.
Definition values (m : Map) : list V := map snd m.
Definition keys (m : Map) : list string := map fst m.
End StringMap.
Arguments Map V : clear implicits.

(** A [Set] of strings: members in insertion order. *)
Definition StringSet := list string.

Definition set_has (x : string) (s : StringSet) : bool :=
  existsb (String.eqb x) s.

Definition set_add (x : string) (s : StringSet) : StringSet :=
  if set_has x s then s else (s ++ [x])%list.

End JS.

(** ** types.ts *)

Module Types.
Section Payload.
(** The argument object of a tool invocation ([Record<string, any>]). *)
Variable Params : Type.

Record AgentCallEntry : Type := {
  agent : string;
  params : Params;
  response : string
}.

Record QueryResponse : Type := {
  query : string;
  thoughts : list string;
  agentCalls : list AgentCallEntry;
  answer : string;
  latencyMs : Z
}.
End Payload.
Arguments agent {Params} _.
Arguments params {Params} _.
Arguments response {Params} _.
Arguments query {Params} _.
Arguments thoughts {Params} _.
Arguments agentCalls {Params} _.
Arguments answer {Params} _.
Arguments latencyMs {Params} _.
End Types.

(** ** conversation-manager.ts *)

Module ConversationManager.
Import Types.

Inductive Role : Type := user | assistant.

Definition is_user (r : Role) : bool :=
  match r with user => true | assistant => false end.

(** Total of the [metadata] counters and the insertion-ordered tool set. *)
Record Metadata : Type := {
  totalQueries : Z;
  totalLatencyMs : Z;
  agentsUsed : JS.StringSet
}.

Section Store.
Variable Params : Type.

Record ConversationMessage : Type := {
  message_id : string;
  role : Role;
  content : string;
  timestamp : Z;
  queryResponse : option (QueryResponse Params)
}.

(** [Date] values are their [getTime()] milliseconds. *)
Record Conversation : Type := {
  id : string;
  title : string;
  messages : list ConversationMessage;
  createdAt : Z;
  updatedAt : Z;
  metadata : option Metadata
}.

Record Manager : Type := {
  conversations : JS.Map Conversation;
  maxConversations : nat
}.

(** [new ConversationManager(maxConversations)] *)
Definition new (maxConversations : nat) : Manager :=
  {| conversations := []; maxConversations := maxConversations |}.

Definition with_conversations (m : JS.Map Conversation) (mgr : Manager) : Manager :=
  {| conversations := m; maxConversations := maxConversations mgr |}.

Definition getConversation (mgr : Manager) (cid : string) : option Conversation :=
  JS.get cid (conversations mgr).

(** [Array.prototype.sort] is stable; with the comparator
    [b.updatedAt - a.updatedAt] it yields the one stable arrangement by
    decreasing [updatedAt], which insertion from the right computes. *)
Fixpoint insert_by_updated (c : Conversation) (sorted : list Conversation)
  : list Conversation :=
  match sorted with
  | [] => [c]
  | x :: rest =>
      if (updatedAt x <=? updatedAt c)%Z then c :: x :: rest
      else x :: insert_by_updated c rest
  end.

Definition sort_by_updated (l : list Conversation) : list Conversation :=
  fold_right insert_by_updated [] l.

Definition listConversations (mgr : Manager) : list Conversation :=
  sort_by_updated (JS.values (conversations mgr)).

Definition generateTitle (firstMessage : string) : string :=
  let maxLength := 50%nat in
  if (String.length firstMessage <=? maxLength)%nat then firstMessage
  else JS.substring0 (maxLength - 3) firstMessage ++ "...".

Definition cleanupOldConversations (mgr : Manager) : Manager :=
  let sorted := listConversations mgr in
  let toDelete := JS.slice_from (maxConversations mgr) sorted in
  fold_left
    (fun acc conv => with_conversations (JS.delete (id conv) (conversations acc)) acc)
    toDelete mgr.

(** [title || `Conversation ${size + 1}`]: an absent or empty title is falsy. *)
Definition title_or_default (title : option string) (mgr : Manager) : string :=
  let fallback := "Conversation " ++ JS.nat_to_string (JS.size (conversations mgr) + 1) in
  match title with
  | Some EmptyString | None => fallback
  | Some t => t
  end.

(** [createConversation(title)]; [newId] is the value of [generateId()],
    [created] and [updated] those of the two [new Date()]. *)
Definition createConversation (title : option string)
           (newId : string) (created updated : Z) (mgr : Manager)
  : Manager * Conversation :=
  let conversation :=
    {| id := newId;
       title := title_or_default title mgr;
       messages := [];
       createdAt := created;
       updatedAt := updated;
       metadata := Some {| totalQueries := 0; totalLatencyMs := 0; agentsUsed := [] |} |} in
  let stored := with_conversations (JS.set newId conversation (conversations mgr)) mgr in
  let kept :=
    if (maxConversations stored <? JS.size (conversations stored))%nat
    then cleanupOldConversations stored
    else stored in
  (kept, conversation).

Definition not_found (conversationId : string) : string :=
  "Conversation " ++ conversationId ++ " not found".

(** [addUserMessage(conversationId, content)]; [newId], [stamp] and [now]
    are the values of [generateId()] and of the two [new Date()].  The
    conversation object is shared with the map: its field assignments are
    a [set] under the same key, which keeps the entry's place. *)
Definition addUserMessage (conversationId content : string)
           (newId : string) (stamp now : Z) (mgr : Manager)
  : Result (Manager * ConversationMessage) :=
  match JS.get conversationId (conversations mgr) with
  | None => Throw (not_found conversationId)
  | Some conversation =>
      let message :=
        {| message_id := newId; role := user; content := content;
           timestamp := stamp; queryResponse := None |} in
      let pushed := (messages conversation ++ [message])%list in
      let newTitle :=
        if (List.length (filter (fun m => is_user (role m)) pushed) =? 1)%nat
        then generateTitle content
        else title conversation in
      let conversation' :=
        {| id := id conversation;
           title := newTitle;
           messages := pushed;
           createdAt := createdAt conversation;
           updatedAt := now;
           metadata := metadata conversation |} in
      Ok (with_conversations
            (JS.set conversationId conversation' (conversations mgr)) mgr,
          message)
  end.

(** The metadata update of [addAssistantMessage]. *)
Definition fold_turn (qr : QueryResponse Params) (md : Metadata) : Metadata :=
  {| totalQueries := totalQueries md + 1;
     totalLatencyMs := totalLatencyMs md + latencyMs qr;
     agentsUsed :=
       fold_left (fun used call => JS.set_add (agent call) used)
                 (agentCalls qr) (agentsUsed md) |}.

(** [addAssistantMessage(conversationId, content, queryResponse)] *)
Definition addAssistantMessage (conversationId content : string)
           (qr : QueryResponse Params)
           (newId : string) (stamp now : Z) (mgr : Manager)
  : Result (Manager * ConversationMessage) :=
  match JS.get conversationId (conversations mgr) with
  | None => Throw (not_found conversationId)
  | Some conversation =>
      let message :=
        {| message_id := newId; role := assistant; content := content;
           timestamp := stamp; queryResponse := Some qr |} in
      let conversation' :=
        {| id := id conversation;
           title := title conversation;
           messages := (messages conversation ++ [message])%list;
           createdAt := createdAt conversation;
           updatedAt := now;
           metadata :=
             match metadata conversation with
             | Some md => Some (fold_turn qr md)
             | None => None
             end |} in
      Ok (with_conversations
            (JS.set conversationId conversation' (conversations mgr)) mgr,
          message)
  end.

(** [deleteConversation(id)] *)
Definition deleteConversation (cid : string) (mgr : Manager) : Manager * bool :=
  (with_conversations (JS.delete cid (conversations mgr)) mgr,
   JS.has cid (conversations mgr)).

(** [clearAll()] *)
Definition clearAll (mgr : Manager) : Manager := with_conversations [] mgr.

(** [getGeminiHistory(conversationId)]: a role and its text parts per message. *)
Definition getGeminiHistory (conversationId : string) (mgr : Manager)
  : list (string * list string) :=
  match JS.get conversationId (conversations mgr) with
  | None => []
  | Some conversation =>
      map (fun msg => (if is_user (role msg) then "user" else "model", [content msg]))
          (messages conversation)
  end.

(** [Math.round(a / b)] for integers and [b > 0]: halves go upwards. *)
Definition round_div (a b : Z) : Z := ((2 * a + b) / (2 * b))%Z.

Record Stats : Type := {
  messageCount : nat;
  avgLatency : Z;
  stats_agentsUsed : list string
}.

(** [getStats(conversationId)]; [None] is [null]. *)
Definition getStats (conversationId : string) (mgr : Manager) : option Stats :=
  match JS.get conversationId (conversations mgr) with
  | None => None
  | Some conversation =>
      match metadata conversation with
      | None => None
      | Some md =>
          Some {| messageCount := List.length (messages conversation);
                  avgLatency :=
                    if (0 <? totalQueries md)%Z
                    then round_div (totalLatencyMs md) (totalQueries md)
                    else 0%Z;
                  stats_agentsUsed := agentsUsed md |}
      end
  end.

(** The managers a program can build through the class's methods. *)
Inductive reachable : Manager -> Prop :=
| reach_new : forall n, reachable (new n)
| reach_create : forall mgr title newId created updated,
    reachable mgr ->
    reachable (fst (createConversation title newId created updated mgr))
| reach_user : forall mgr cid text newId stamp now mgr' msg,
    reachable mgr ->
    addUserMessage cid text newId stamp now mgr = Ok (mgr', msg) ->
    reachable mgr'
| reach_assistant : forall mgr cid text qr newId stamp now mgr' msg,
    reachable mgr ->
    addAssistantMessage cid text qr newId stamp now mgr = Ok (mgr', msg) ->
    reachable mgr'
| reach_delete : forall mgr cid,
    reachable mgr -> reachable (fst (deleteConversation cid mgr))
| reach_clear : forall mgr, reachable mgr -> reachable (clearAll mgr).

(** One [createConversation] call with the values its environment yields. *)
Record Creation : Type := {
  given_title : option string;
  fresh_id : string;
  created_at : Z;
  updated_at : Z
}.

Definition create (mgr : Manager) (c : Creation) : Manager :=
  fst (createConversation (given_title c) (fresh_id c) (created_at c) (updated_at c) mgr).

(** A sequence of [createConversation] calls on one manager. *)
Definition create_all (cs : list Creation) (mgr : Manager) : Manager :=
  fold_left create cs mgr.
End Store.

Arguments message_id {Params} _.
Arguments role {Params} _.
Arguments content {Params} _.
Arguments timestamp {Params} _.
Arguments queryResponse {Params} _.
Arguments id {Params} _.
Arguments title {Params} _.
Arguments messages {Params} _.
Arguments createdAt {Params} _.
Arguments updatedAt {Params} _.
Arguments metadata {Params} _.
Arguments conversations {Params} _.
Arguments maxConversations {Params} _.
End ConversationManager.

(** ** What the runtime and the outside world provide *)

(** Outcome of [parser.parse] of sparqljs: the parsed query is not used. *)
Inductive ParseOutcome : Type :=
| Parsed
| ParseError (message : string).

Record Runtime : Type := {
  Num : Type;                                (* numbers that are only printed *)
  num_to_string : Num -> string;             (* [String(n)] *)
  num_truthy : Num -> bool;                  (* neither zero nor NaN *)
  encodeURIComponent : string -> string;
  parse : string -> ParseOutcome;
  (* the character tables of the engine, for stretches outside ASCII *)
  upper_other : string -> string;
  lower_other : string -> string -> string -> string;
  space_other : string -> list bool
}.

Definition nl : string := String (ascii_of_nat 10) EmptyString.
Definition dquote : string := String (ascii_of_nat 34) EmptyString.

Module Http.

(** The options of one GET: [axios.get(url, config)] or [fetch(url, init)]. *)
Record Request : Type := {
  url : string;
  params : list (string * string);
  headers : list (string * string);
  timeout : option Z                       (* milliseconds *)
}.

(** [axios.get] resolves with the body on a 2xx status and rejects
    otherwise; the rejection carries a status when a response came back. *)
Inductive AxiosReply (A : Type) : Type :=
| AxiosData (data : A)
| AxiosFailure (status : option Z) (message : string).
Arguments AxiosData {A} data.
Arguments AxiosFailure {A} status message.

(** [fetch] resolves with a response of any status and rejects on a
    transport failure; [json] is the outcome of [response.json()]. *)
Inductive FetchReply (A : Type) : Type :=
| FetchResponse (ok : bool) (statusText : string) (json : Result A)
| FetchFailure (message : string).
Arguments FetchResponse {A} ok statusText json.
Arguments FetchFailure {A} message.

End Http.

(** ** The agents' data (types.ts and the agents' own interfaces) *)

Module Data.
Record Binding : Type := { type : string; value : string }.

Record WikidataQueryResult : Type := {
  vars : list string;                      (* head.vars *)
  bindings : list (JS.Map Binding)         (* results.bindings *)
}.

Record WikipediaSummary : Type := {
  title : string;
  extract : string;
  page : option string                     (* content_urls?.desktop?.page *)
}.

Record NominatimResult : Type := {
  lat : string;
  lon : string;
  display_name : string;
  place_id : nat
}.

(** One part of a model reply: [part.thought] and [part.text]. *)
Record Part : Type := { thought : bool; text : option string }.

Section Numbers.
Variable N : Type.

Record CurrentWeather : Type := {
  temperature : N;
  windspeed : N;
  weathercode : N;
  time : string
}.

Record Daily : Type := {
  daily_time : option (list string);
  temperature_2m_max : list N;
  temperature_2m_min : list N;
  precipitation_sum : list N
}.

Record WeatherData : Type := {
  latitude : N;
  longitude : N;
  current_weather : CurrentWeather;
  daily : option Daily
}.

(** A value of a tool invocation's argument object. *)
Inductive ArgValue : Type :=
| VUndefined
| VNull
| VBool (b : bool)
| VNumber (n : N)
| VString (s : string)
| VOther (text : string).                (* an object or array, with its [String()] *)

Definition Args := list (string * ArgValue).

(** A tool invocation requested by the model. *)
Record FunctionCall : Type := { name : string; args : Args }.

(** A chat response: [candidates?.[0]?.content?.parts], [functionCalls()]
    and [text()]; the two methods may throw. *)
Record ModelResponse : Type := {
  parts : option (list Part);
  functionCalls : Result (option (list FunctionCall));
  response_text : Result string
}.
End Numbers.

Arguments temperature {N} _.
Arguments windspeed {N} _.
Arguments weathercode {N} _.
Arguments time {N} _.
Arguments daily_time {N} _.
Arguments temperature_2m_max {N} _.
Arguments temperature_2m_min {N} _.
Arguments precipitation_sum {N} _.
Arguments latitude {N} _.
Arguments longitude {N} _.
Arguments current_weather {N} _.
Arguments daily {N} _.
Arguments VUndefined {N}.
Arguments VNull {N}.
Arguments VBool {N} b.
Arguments VNumber {N} n.
Arguments VString {N} s.
Arguments VOther {N} text.
Arguments name {N} _.
Arguments args {N} _.
Arguments parts {N} _.
Arguments functionCalls {N} _.
Arguments response_text {N} _.

(** The payload sent back for one invocation: [{ result }] or [{ error }]. *)
Inductive ToolOutcome : Type :=
| tool_result (text : string)
| tool_error (message : string).

Record FunctionResponse : Type := { fr_name : string; fr_response : ToolOutcome }.

(** The chat history handed to [startChat]: a role and its text parts. *)
Definition History := list (string * list string).

(** What [chat.sendMessage] is given. *)
Inductive ChatMessage : Type :=
| UserText (userQuery : string)
| ToolResults (functionResponses : list FunctionResponse).
End Data.

(** ** Effects: the calls that leave the process, in the order issued *)

Module Effects.
Import Data.

Inductive Event : Type :=
| ChatSend (message : ChatMessage)
| HttpGet (req : Http.Request).

(** Newest event first. *)
Definition Trace := list Event.

Definition is_chat (e : Event) : bool :=
  match e with ChatSend _ => true | HttpGet _ => false end.

Definition chat_calls (t : Trace) : nat := List.length (filter is_chat t).
Definition http_calls (t : Trace) : nat :=
  List.length (filter (fun e => negb (is_chat e)) t).

(** A computation that may throw and that extends the trace. *)
Definition M (A : Type) : Type := Trace -> Result A * Trace.

Definition ret {A} (a : A) : M A := fun t => (Ok a, t).

Definition throw {A} (message : string) : M A := fun t => (Throw message, t).

Definition bind {A B} (m : M A) (k : A -> M B) : M B :=
  fun t =>
    match m t with
    | (Ok a, t') => k a t'
    | (Throw message, t') => (Throw message, t')
    end.

(** [try { m } catch (error) { handler(error.message) }] *)
Definition try_catch {A} (m : M A) (handler : string -> M A) : M A :=
  fun t =>
    match m t with
    | (Ok a, t') => (Ok a, t')
    | (Throw message, t') => handler message t'
    end.

Definition emit (e : Event) : M unit := fun t => (Ok tt, e :: t).

Definition history : M Trace := fun t => (Ok t, t).

Definition lift {A} (r : Result A) : M A := fun t => (r, t).

Fixpoint mapM {A B} (f : A -> M B) (l : list A) : M (list B) :=
  match l with
  | [] => ret []
  | x :: rest =>
      bind (f x) (fun y => bind (mapM f rest) (fun ys => ret (y :: ys)))
  end.

Section World.
Variable rt : Runtime.
Let N := Num rt.

(** The outside world: every reply may depend on all that was sent before. *)
Record World : Type := {
  now : Trace -> Z;                                              (* [Date.now()] *)
  chat_reply : History -> Trace -> ChatMessage -> Result (ModelResponse N);
  wikidata_reply : Trace -> Http.Request -> Http.AxiosReply WikidataQueryResult;
  wikipedia_reply : Trace -> Http.Request -> Http.AxiosReply WikipediaSummary;
  nominatim_reply : Trace -> Http.Request -> Http.FetchReply (list NominatimResult);
  openmeteo_reply : Trace -> Http.Request -> Http.FetchReply (WeatherData N);
  (** The order in which the parallel invocations of one turn complete. *)
  completion : forall A : Type, Trace -> list A -> list A;
  completion_permutes : forall A t (l : list A), Permutation l (completion A t l)
}.

Definition date_now (w : World) : M Z := fun t => (Ok (now w t), t).

(** [await chat.sendMessage(message)] on a chat started with [h]. *)
Definition sendMessage (w : World) (h : History) (message : ChatMessage)
  : M (ModelResponse N) :=
  fun t => (chat_reply w h t message, ChatSend message :: t).

(** One GET answered by the service [reply]. *)
Definition get {R} (reply : Trace -> Http.Request -> R) (req : Http.Request) : M R :=
  fun t => (Ok (reply t req), HttpGet req :: t).
End World.

Arguments now {rt} _.
Arguments chat_reply {rt} _.
Arguments wikidata_reply {rt} _.
Arguments wikipedia_reply {rt} _.
Arguments nominatim_reply {rt} _.
Arguments openmeteo_reply {rt} _.
Arguments completion {rt} _ {A}.
Arguments completion_permutes {rt} _ {A}.
Arguments date_now {rt} _.
Arguments sendMessage {rt} _ _ _.
End Effects.

Declare Scope effect_scope.
Delimit Scope effect_scope with effect.
Notation "x <- m ;; k" := (Effects.bind m (fun x => k))
  (at level 61, m at next level, right associativity) : effect_scope.
Notation "m ;;; k" := (Effects.bind m (fun _ => k))
  (at level 61, right associativity) : effect_scope.

(** ** agents/wikidata-agent.ts: the query validator *)

Module SPARQLValidator.

Record Verdict : Type := { valid : bool; error : option string }.

Definition DANGEROUS_KEYWORDS : list string :=
  ["DELETE"; "INSERT"; "DROP"; "CREATE"; "CLEAR"; "LOAD"].

Definition dangerous (keyword : string) : string :=
  "Dangerous SPARQL keyword detected: " ++ keyword
    ++ ". Only read-only queries are allowed.".

Definition syntax_error (message : string) : string :=
  "SPARQL syntax error: " ++ message.

Section WithRuntime.
Variable rt : Runtime.

Definition validate (queryString : string) : Verdict :=
  match parse rt queryString with
  | ParseError message =>
      {| valid := false; error := Some (syntax_error message) |}
  | Parsed =>
      let upperQuery := JS.toUpperCase (upper_other rt) queryString in
      match find (fun keyword => JS.includes upperQuery keyword) DANGEROUS_KEYWORDS with
      | Some keyword => {| valid := false; error := Some (dangerous keyword) |}
      | None => {| valid := true; error := None |}
      end
  end.
End WithRuntime.

End SPARQLValidator.

(** ** Values received as tool arguments *)

Module Arg.
Import Data.
Section Coercions.
Variable rt : Runtime.

(** [String(v)], as a template literal renders [v]. *)
Definition to_string (v : ArgValue (Num rt)) : string :=
  match v with
  | VUndefined => "undefined"
  | VNull => "null"
  | VBool true => "true"
  | VBool false => "false"
  | VNumber n => num_to_string rt n
  | VString s => s
  | VOther text => text
  end.

Definition truthy (v : ArgValue (Num rt)) : bool :=
  match v with
  | VUndefined | VNull => false
  | VBool b => b
  | VNumber n => num_truthy rt n
  | VString s => negb (String.eqb s EmptyString)
  | VOther _ => true
  end.

(** The message of the [TypeError] raised by [v.method(...)] when [v],
    held in [variable], is not a string. *)
Definition no_method (variable method : string) (v : ArgValue (Num rt)) : string :=
  match v with
  | VUndefined => "Cannot read properties of undefined (reading '" ++ method ++ "')"
  | VNull => "Cannot read properties of null (reading '" ++ method ++ "')"
  | _ => variable ++ "." ++ method ++ " is not a function"
  end.

(** [args.key] *)
Definition lookup (key : string) (a : Args (Num rt)) : ArgValue (Num rt) :=
  match JS.get key a with
  | Some v => v
  | None => VUndefined
  end.
End Coercions.
Arguments to_string {rt} v.
Arguments truthy {rt} v.
Arguments no_method {rt} variable method v.
Arguments lookup {rt} key a.
End Arg.

Definition opt_to_string (o : option string) : string :=
  match o with Some s => s | None => "undefined" end.

Fixpoint mapi_from {A B} (i : nat) (f : A -> nat -> B) (l : list A) : list B :=
  match l with
  | [] => []
  | x :: rest => f x i :: mapi_from (S i) f rest
  end.

(** [array.map((x, i) => f(x, i))] *)
Definition mapi {A B} (f : A -> nat -> B) (l : list A) : list B := mapi_from 0 f l.

Definition concat_strings (l : list string) : string := String.concat EmptyString l.

Definition USER_AGENT_POC : string := "WikidAI-PoC/0.1 (Educational Project)".

(** ** agents/wikidata-agent.ts: the agent *)

Module WikidataAgent.
Import Data Effects.
Local Open Scope effect_scope.

Definition WIKIDATA_ENDPOINT : string := "https://query.wikidata.org/sparql".

(** The [axios.get] of [execute]. *)
Definition request (sparqlQuery : string) : Http.Request :=
  {| Http.url := WIKIDATA_ENDPOINT;
     Http.params := [("query", sparqlQuery); ("format", "json")];
     Http.headers := [("User-Agent", USER_AGENT_POC)];
     Http.timeout := Some 10000%Z |}.

Section WithWorld.
Variable rt : Runtime.
Variable w : World rt.

Definition execute (sparqlQuery : ArgValue (Num rt)) : M WikidataQueryResult :=
  match sparqlQuery with
  | VString q =>
      let validation := SPARQLValidator.validate rt q in
      if negb (SPARQLValidator.valid validation)
      then throw ("SPARQL validation failed: "
                    ++ opt_to_string (SPARQLValidator.error validation))
      else
        reply <- get (wikidata_reply w) (request q) ;;
        match reply with
        | Http.AxiosData data => ret data
        | Http.AxiosFailure _ message => throw ("Wikidata query failed: " ++ message)
        end
  | other => throw (Arg.no_method "sparqlQuery" "substring" other)
  end.
End WithWorld.

(** The members that every object inherits from [Object.prototype]:
    [binding[varName]] finds them when the row has no entry of that name. *)
Definition OBJECT_MEMBERS : list string :=
  ["constructor"; "hasOwnProperty"; "isPrototypeOf"; "propertyIsEnumerable";
   "toLocaleString"; "toString"; "valueOf"; "__proto__";
   "__defineGetter__"; "__defineSetter__"; "__lookupGetter__"; "__lookupSetter__"].

(** One [`${label}: ${value} `] cell, when [binding[varName]] is truthy: the
    entry of the row, or else an inherited member, which has no [value]. *)
Definition cell (binding : JS.Map Binding) (varName : string) : string :=
  match JS.get varName binding with
  | Some b => JS.replace "Label" EmptyString varName ++ ": " ++ value b ++ " "
  | None =>
      if JS.set_has varName OBJECT_MEMBERS
      then JS.replace "Label" EmptyString varName ++ ": undefined "
      else EmptyString
  end.

Definition row (vars : list string) (binding : JS.Map Binding) (idx : nat) : string :=
  JS.nat_to_string (idx + 1) ++ ". "
    ++ concat_strings (map (cell binding) vars) ++ nl.

Definition formatResults (rt : Runtime) (results : WikidataQueryResult) : string :=
  let bindings := bindings results in
  let vars := vars results in
  if (List.length bindings =? 0)%nat then "No results found."
  else
    let output :=
      "Found " ++ JS.nat_to_string (List.length bindings) ++ " result(s):" ++ nl ++ nl
        ++ concat_strings (mapi (row vars) (JS.slice_to 10 bindings)) in
    let output :=
      if (10 <? List.length bindings)%nat
      then output ++ nl ++ "... and "
             ++ JS.nat_to_string (List.length bindings - 10) ++ " more results"
      else output in
    JS.trim (space_other rt) output.
End WikidataAgent.

(** ** agents/wikipedia-agent.ts *)

Module WikipediaAgent.
Import Data Effects.
Local Open Scope effect_scope.

Definition WIKIPEDIA_API : string := "https://en.wikipedia.org/api/rest_v1".

Definition not_found (term : string) : string :=
  "Wikipedia article not found for: " ++ dquote ++ term ++ dquote.

(** [error.response?.status === 404] *)
Definition is_404 (status : option Z) : bool :=
  match status with
  | Some code => (code =? 404)%Z
  | None => false
  end.

Definition request_failed (message : string) : string :=
  "Wikipedia request failed: " ++ message.

Section WithWorld.
Variable rt : Runtime.
Variable w : World rt.

(** The [axios.get] of [execute]. *)
Definition request (term : string) : Http.Request :=
  let normalizedTerm :=
    JS.replace_spaces (space_other rt) "_" (JS.trim (space_other rt) term) in
  {| Http.url := WIKIPEDIA_API ++ "/page/summary/"
                   ++ encodeURIComponent rt normalizedTerm;
     Http.params := [];
     Http.headers := [("User-Agent", USER_AGENT_POC)];
     Http.timeout := Some 8000%Z |}.

Definition execute (term : ArgValue (Num rt)) : M WikipediaSummary :=
  match term with
  | VString t =>
      reply <- get (wikipedia_reply w) (request t) ;;
      match reply with
      | Http.AxiosData data => ret data
      | Http.AxiosFailure status message =>
          if is_404 status then throw (not_found t)
          else throw (request_failed message)
      end
  | other => throw (request_failed (Arg.no_method "term" "trim" other))
  end.
End WithWorld.

Definition formatSummary (summary : WikipediaSummary) : string :=
  let output := "**" ++ title summary ++ "**" ++ nl ++ nl ++ extract summary in
  match page summary with
  | Some link =>
      if String.eqb link EmptyString then output
      else output ++ nl ++ nl ++ "🔗 Read more: " ++ link
  | None => output
  end.
End WikipediaAgent.

(** ** agents/nominatim-agent.ts *)

Module NominatimAgent.
Import Data Effects.
Local Open Scope effect_scope.

Definition baseUrl : string := "https://nominatim.openstreetmap.org".
Definition userAgent : string := "WikidAI/1.0 (Educational PoC)".

Section WithWorld.
Variable rt : Runtime.
Variable w : World rt.

(** The [fetch] of [geocode]. *)
Definition request (query : ArgValue (Num rt)) : Http.Request :=
  {| Http.url := baseUrl ++ "/search?q=" ++ encodeURIComponent rt (Arg.to_string query)
                   ++ "&format=json&limit=5";
     Http.params := [];
     Http.headers := [("User-Agent", userAgent)];
     Http.timeout := None |}.

Definition geocode (query : ArgValue (Num rt)) : M (list NominatimResult) :=
  response <- get (nominatim_reply w) (request query) ;;
  match response with
  | Http.FetchFailure message => throw message
  | Http.FetchResponse ok statusText json =>
      if negb ok then throw ("Nominatim API error: " ++ statusText)
      else lift json
  end.
End WithWorld.

Definition formatResults (results : list NominatimResult) : string :=
  match results with
  | [] => "No locations found."
  | [r] =>
      "Location: " ++ display_name r ++ nl
        ++ "Coordinates: lat: " ++ lat r ++ ", lon: " ++ lon r
  | _ =>
      JS.join nl
        (mapi (fun r i =>
                 JS.nat_to_string (i + 1) ++ ". " ++ display_name r
                   ++ " (lat: " ++ lat r ++ ", lon: " ++ lon r ++ ")")
              results)
  end.
End NominatimAgent.

(** ** agents/openmeteo-agent.ts *)

Module OpenMeteoAgent.
Import Data Effects.
Local Open Scope effect_scope.

Definition baseUrl : string := "https://api.open-meteo.com/v1".

(** Keys of the table are the decimal renderings of the codes. *)
Definition weatherCodes : JS.Map string :=
  [("0", "Clear sky"); ("1", "Mainly clear"); ("2", "Partly cloudy");
   ("3", "Overcast"); ("45", "Foggy"); ("48", "Depositing rime fog");
   ("51", "Light drizzle"); ("61", "Slight rain"); ("63", "Moderate rain");
   ("65", "Heavy rain"); ("71", "Slight snow"); ("80", "Slight rain showers");
   ("95", "Thunderstorm")].

Section WithWorld.
Variable rt : Runtime.
Variable w : World rt.

(** The [fetch] of [getWeather]. *)
Definition request (latitude longitude : ArgValue (Num rt)) (includeForecast : bool)
  : Http.Request :=
  let url :=
    baseUrl ++ "/forecast?latitude=" ++ Arg.to_string latitude
      ++ "&longitude=" ++ Arg.to_string longitude ++ "&current_weather=true" in
  {| Http.url :=
       if includeForecast
       then url ++ "&daily=temperature_2m_max,temperature_2m_min,precipitation_sum&timezone=auto"
       else url;
     Http.params := [];
     Http.headers := [];
     Http.timeout := None |}.

Definition getWeather (latitude longitude : ArgValue (Num rt)) (includeForecast : bool)
  : M (WeatherData (Num rt)) :=
  response <- get (openmeteo_reply w) (request latitude longitude includeForecast) ;;
  match response with
  | Http.FetchFailure message => throw message
  | Http.FetchResponse ok statusText json =>
      if negb ok then throw ("Open-Meteo API error: " ++ statusText)
      else lift json
  end.

(** [`${array[i]}`]: an index past the end renders as [undefined]. *)
Definition at_index {A} (show : A -> string) (l : list A) (i : nat) : string :=
  match nth_error l i with
  | Some x => show x
  | None => "undefined"
  end.

Definition forecast_line (d : Daily (Num rt)) (times : list string) (i : nat) : string :=
  at_index (fun s => s) times i ++ ": "
    ++ at_index (num_to_string rt) (temperature_2m_min d) i ++ "°C - "
    ++ at_index (num_to_string rt) (temperature_2m_max d) i ++ "°C, "
    ++ "precipitation: " ++ at_index (num_to_string rt) (precipitation_sum d) i
    ++ "mm" ++ nl.

Definition formatWeather (data : WeatherData (Num rt)) : string :=
  let current := current_weather data in
  let condition :=
    match JS.get (num_to_string rt (weathercode current)) weatherCodes with
    | Some c => c
    | None => "Unknown"
    end in
  let result :=
    "📍 Location: lat: " ++ num_to_string rt (latitude data)
      ++ ", lon: " ++ num_to_string rt (longitude data) ++ nl
      ++ "🌡️ Current temperature: " ++ num_to_string rt (temperature current) ++ "°C" ++ nl
      ++ "💨 Wind speed: " ++ num_to_string rt (windspeed current) ++ " km/h" ++ nl
      ++ "☁️ Conditions: " ++ condition ++ nl
      ++ "🕐 Time: " ++ time current in
  match daily data with
  | Some d =>
      match daily_time d with
      | Some times =>
          result ++ nl ++ nl ++ "📅 Forecast (next 3 days):" ++ nl
            ++ concat_strings
                 (map (forecast_line d times) (seq 0 (Nat.min 3 (List.length times))))
      | None => result
      end
  | None => result
  end.
End WithWorld.
End OpenMeteoAgent.

(** ** orchestrator.ts *)

Module GeminiOrchestrator.
Import Data Effects.
Local Open Scope effect_scope.

Section WithWorld.
Variable rt : Runtime.
Variable w : World rt.

Definition Call := FunctionCall (Num rt).
Definition Entry := Types.AgentCallEntry (Args (Num rt)).
Definition Response := Types.QueryResponse (Args (Num rt)).

(** The [switch (call.name)] of the invocation callback. *)
Definition dispatch (call : Call) : M string :=
  if String.eqb (name call) "query_wikidata" then
    wikidataResult <- WikidataAgent.execute rt w (Arg.lookup "sparql_query" (args call)) ;;
    ret (WikidataAgent.formatResults rt wikidataResult)
  else if String.eqb (name call) "get_wikipedia_summary" then
    summary <- WikipediaAgent.execute rt w (Arg.lookup "term" (args call)) ;;
    ret (WikipediaAgent.formatSummary summary)
  else if String.eqb (name call) "geocode_location" then
    locations <- NominatimAgent.geocode rt w (Arg.lookup "query" (args call)) ;;
    ret (NominatimAgent.formatResults locations)
  else if String.eqb (name call) "get_weather" then
    let includeForecast := Arg.truthy (Arg.lookup "include_forecast" (args call)) in
    weather <- OpenMeteoAgent.getWeather rt w
                 (Arg.lookup "latitude" (args call))
                 (Arg.lookup "longitude" (args call)) includeForecast ;;
    ret (OpenMeteoAgent.formatWeather rt weather)
  else throw ("Unknown function: " ++ name call).

(** The callback given to [functionCalls.map]: the response sent back to
    the model and, when the dispatch did not throw, the entry pushed onto
    [agentCalls]. *)
Definition invoke (call : Call) : M (FunctionResponse * option Entry) :=
  try_catch
    (result <- dispatch call ;;
     ret ({| fr_name := name call; fr_response := tool_result result |},
          Some {| Types.agent := name call;
                  Types.params := args call;
                  Types.response := result |}))
    (fun message =>
       ret ({| fr_name := name call; fr_response := tool_error message |}, None)).

Definition pushed (outcomes : list (FunctionResponse * option Entry)) : list Entry :=
  flat_map (fun o => match snd o with Some e => [e] | None => [] end) outcomes.

(** [await Promise.all(functionCalls.map(...))]: the responses keep the
    order of the invocations; the pushes onto [agentCalls] happen in the
    order in which the invocations complete. *)
Definition invokeAll (calls : list Call) : M (list FunctionResponse * list Entry) :=
  started <- history ;;
  outcomes <- mapM invoke calls ;;
  ret (map fst outcomes, completion w started (pushed outcomes)).

(** [part.text || 'Thinking...'] for the parts flagged as thoughts. *)
Definition thought_text (p : Part) : string :=
  match text p with
  | Some EmptyString | None => "Thinking..."
  | Some t => t
  end.

Definition extract_thoughts (response : ModelResponse (Num rt)) : list string :=
  match parts response with
  | Some ps => map thought_text (filter thought ps)
  | None => []
  end.

(** What one pass through the body of [while (true)] leaves. *)
Inductive Step : Type :=
| Return (r : Response)
| Continue (response : ModelResponse (Num rt)) (thoughts : list string)
           (agentCalls : list Entry).

(** The loop body up to and including [response = await chat.sendMessage
    (functionResponses)]. *)
Definition turn_body (userQuery : string) (h : History) (startTime : Z)
           (response : ModelResponse (Num rt))
           (thoughts : list string) (agentCalls : list Entry) : M Step :=
  let thoughts := (thoughts ++ extract_thoughts response)%list in
  functionCalls <- lift (functionCalls response) ;;
  match functionCalls with
  | None | Some [] =>
      finalText <- lift (response_text response) ;;
      finished <- date_now w ;;
      ret (Return {| Types.query := userQuery;
                     Types.thoughts := thoughts;
                     Types.agentCalls := agentCalls;
                     Types.answer := finalText;
                     Types.latencyMs := finished - startTime |})
  | Some calls =>
      done <- invokeAll calls ;;
      response' <- sendMessage w h (ToolResults (fst done)) ;;
      ret (Continue response' thoughts (agentCalls ++ snd done)%list)
  end.

(** [while (true) { ... turn++; if (turn > 10) break; }] followed by the
    fallback [return].  [fuel] bounds the unfolding of the loop; [None]
    is a loop that has not finished within it. *)
Fixpoint turns (fuel : nat) (userQuery : string) (h : History) (startTime : Z)
         (turn : nat) (response : ModelResponse (Num rt))
         (thoughts : list string) (agentCalls : list Entry)
  : M (option Response) :=
  match fuel with
  | O => ret None
  | S fuel' =>
      step <- turn_body userQuery h startTime response thoughts agentCalls ;;
      match step with
      | Return r => ret (Some r)
      | Continue response' thoughts' agentCalls' =>
          let turn := (turn + 1)%nat in
          if (10 <? turn)%nat then
            finished <- date_now w ;;
            ret (Some {| Types.query := userQuery;
                         Types.thoughts := thoughts';
                         Types.agentCalls := agentCalls';
                         Types.answer := "Query processing incomplete";
                         Types.latencyMs := finished - startTime |})
          else turns fuel' userQuery h startTime turn response' thoughts' agentCalls'
      end
  end.

(** [executeQuery(userQuery, conversationHistory)] *)
Definition executeQuery (fuel : nat) (userQuery : string) (conversationHistory : option History)
  : M (option Response) :=
  startTime <- date_now w ;;
  let h := match conversationHistory with Some h => h | None => [] end in
  response <- sendMessage w h (UserText userQuery) ;;
  turns fuel userQuery h startTime 1 response [] [].
End WithWorld.
End GeminiOrchestrator.

(** ** Notions that the statements need and the code does not compute *)

Module Spec.

Definition is_upper (c : ascii) : bool :=
  let n := nat_of_ascii c in ((65 <=? n) && (n <=? 90))%nat.

(** Case folding, towards lower case. *)
Definition fold_char (c : ascii) : ascii :=
  if is_upper c then ascii_of_nat (nat_of_ascii c + 32) else c.

Fixpoint fold_case (s : string) : string :=
  match s with
  | EmptyString => EmptyString
  | String c rest => String (fold_char c) (fold_case rest)
  end.

(** A text made of characters of the ASCII range only. *)
Fixpoint only_ascii (s : string) : bool :=
  match s with
  | EmptyString => true
  | String c rest => JS.is_ascii c && only_ascii rest
  end.

(** The upper-case form of a text, letter by letter over the ASCII range. *)
Fixpoint upper_ascii (s : string) : string :=
  match s with
  | EmptyString => EmptyString
  | String c rest => String (JS.upper_char c) (upper_ascii rest)
  end.

(** [keyword] occurs in [q] as a substring, up to the case of the letters
    [a] to [z]. *)
Definition contains_ignoring_case (q keyword : string) : Prop :=
  exists before occurrence after,
    q = before ++ occurrence ++ after
    /\ fold_case occurrence = fold_case keyword.

(** A query with no blocked keyword in it, in any case of its letters. *)
Definition keyword_free (q : string) : Prop :=
  forall keyword,
    In keyword SPARQLValidator.DANGEROUS_KEYWORDS ->
    ~ contains_ignoring_case q keyword.

(** The tool responses sent back to the model, as a trace records them. *)
Definition fed_back (t : Effects.Trace) : list Data.FunctionResponse :=
  flat_map (fun e => match e with
                     | Effects.ChatSend (Data.ToolResults rs) => rs
                     | _ => []
                     end) t.

(** Name and text of the responses that carry a result. *)
Definition successes (rs : list Data.FunctionResponse) : list (string * string) :=
  flat_map (fun r => match Data.fr_response r with
                     | Data.tool_result text => [(Data.fr_name r, text)]
                     | Data.tool_error _ => []
                     end) rs.

End Spec.

(** ** Notions about traces, turns and the store that the statements use *)

Section TraceNotions.
Import Effects.

(** Events that are all GETs. *)
Definition gets_only (new : Trace) : Prop :=
  Forall (fun e => is_chat e = false) new.

(** A computation that sends nothing to the chat: it only adds GETs. *)
Definition quiet {A} (m : M A) : Prop :=
  forall t, exists new, snd (m t) = (new ++ t)%list /\ gets_only new.

End TraceNotions.

Section TurnNotions.
Import Data Effects GeminiOrchestrator.
Variable rt : Runtime.
Variable w : World rt.

(** What the invocation callback makes of the outcome of its [switch]. *)
Definition outcome_of (call : Call rt) (r : Result string)
  : FunctionResponse * option (Entry rt) :=
  match r with
  | Ok text =>
      ({| fr_name := name call; fr_response := tool_result text |},
       Some {| Types.agent := name call;
               Types.params := args call;
               Types.response := text |})
  | Throw message =>
      ({| fr_name := name call; fr_response := tool_error message |}, None)
  end.

(** [o] is what the callback returns for [call] on some trace. *)
Definition answers_call (call : Call rt) (o : FunctionResponse * option (Entry rt)) : Prop :=
  exists before, o = outcome_of call (fst (dispatch rt w call before)).

Definition entry_key (e : Entry rt) : string * string :=
  (Types.agent e, Types.response e).

(** The entry records an invocation whose dispatch returned its text. *)
Definition from_success (e : Entry rt) : Prop :=
  exists call before,
    fst (dispatch rt w call before) = Ok (Types.response e)
    /\ Types.agent e = name call
    /\ Types.params e = args call.

(** The record returned when the loop is left through [break]. *)
Definition incomplete (userQuery : string) (startTime : Z)
           (thoughts : list string) (agentCalls : list (Entry rt)) (t : Trace)
  : Response rt :=
  {| Types.query := userQuery;
     Types.thoughts := thoughts;
     Types.agentCalls := agentCalls;
     Types.answer := "Query processing incomplete";
     Types.latencyMs := now w t - startTime |}.

End TurnNotions.

Section StoreNotions.
Import ConversationManager.
Variable Params : Type.
Implicit Types (mgr : Manager Params) (c d : Conversation Params).

(** Every stored conversation carries its metadata, with distinct tools. *)
Definition has_metadata mgr : Prop :=
  forall cid c,
    getConversation Params mgr cid = Some c ->
    exists md, metadata c = Some md /\ NoDup (agentsUsed md).

(** [c] was updated no earlier than [d]. *)
Definition not_older c d : Prop := (updatedAt d <= updatedAt c)%Z.

(** What holds of a manager after the creations [cs] on a fresh one of
    capacity [M]. *)
Record tracks (M : nat) (cs : list Creation) mgr : Prop := {
  tr_max : maxConversations mgr = M;
  tr_nodup : NoDup (JS.keys (conversations mgr));
  tr_origin : forall k c,
      In (k, c) (conversations mgr) ->
      id c = k /\ exists r, In r cs /\ fresh_id r = k /\ updated_at r = updatedAt c;
  tr_size : JS.size (conversations mgr) = Nat.min (List.length cs) M;
  tr_evicted : forall r k c,
      In r cs ->
      JS.get (fresh_id r) (conversations mgr) = None ->
      In (k, c) (conversations mgr) ->
      (updated_at r <= updatedAt c)%Z
}.

End StoreNotions.

(** ** A small runtime and world on which the definitions can be run *)

Module Sample.
Import Data Effects.

Fixpoint depth_after (depth : nat) (s : string) : option nat :=
  match s with
  | EmptyString => Some depth
  | String c rest =>
      if Ascii.eqb c "{"%char then depth_after (S depth) rest
      else if Ascii.eqb c "}"%char
           then match depth with
                | O => None
                | S d => depth_after d rest
                end
           else depth_after depth rest
  end.

(** Stands for the parser: it rejects the empty query and unbalanced braces. *)
Definition brace_parser (q : string) : ParseOutcome :=
  match q with
  | EmptyString => ParseError "Parse error on line 1: unexpected end of input"
  | _ =>
      match depth_after 0 q with
      | Some O => Parsed
      | _ => ParseError "Parse error on line 1: unbalanced braces"
      end
  end.

(** A runtime for texts of the ASCII range: outside it the tables change
    nothing and find no white space. *)
Definition runtime : Runtime :=
  {| Num := Z;
     num_to_string := JS.Z_to_string;
     num_truthy := fun z => negb (z =? 0)%Z;
     encodeURIComponent := fun s => s;
     parse := brace_parser;
     upper_other := fun stretch => stretch;
     lower_other := fun _ stretch _ => stretch;
     space_other := fun _ => [] |}.

Definition calm : WeatherData Z :=
  {| latitude := 0%Z; longitude := 0%Z;
     current_weather := {| temperature := 20%Z; windspeed := 5%Z;
                           weathercode := 0%Z; time := "2025-01-01T00:00" |};
     daily := None |}.

(** A world whose chat model is [model]; the services answer with empty or
    fixed data, and invocations complete in the order they were issued. *)
Definition world (model : History -> Trace -> ChatMessage -> Result (ModelResponse Z))
  : World runtime :=
  {| now := fun t => Z.of_nat (List.length t);
     chat_reply := model : History -> Trace -> ChatMessage
                           -> Result (ModelResponse (Num runtime));
     wikidata_reply := fun _ _ => Http.AxiosData {| vars := []; bindings := [] |};
     wikipedia_reply := fun _ _ => Http.AxiosFailure None "timeout";
     nominatim_reply := fun _ _ => Http.FetchResponse true "OK" (Ok []);
     openmeteo_reply := fun _ _ => Http.FetchResponse true "OK" (Ok calm);
     completion := fun _ _ l => l;
     completion_permutes := fun _ _ l => Permutation_refl l |}.

Definition asks (calls : list (FunctionCall Z)) : ModelResponse Z :=
  {| parts := None; functionCalls := Ok (Some calls);
     response_text := Ok EmptyString |}.

Definition answers (text : string) : ModelResponse Z :=
  {| parts := None; functionCalls := Ok None; response_text := Ok text |}.

Definition geocode_rome : FunctionCall Z :=
  {| name := "geocode_location"; args := [("query", VString "Rome, Italy")] |}.

Definition summary_tokyo : FunctionCall Z :=
  {| name := "get_wikipedia_summary"; args := [("term", VString "Tokyo")] |}.

(** A model that asks for one geocoding in each of its first ten replies
    and gives its final answer in the eleventh. *)
Definition persistent_model : History -> Trace -> ChatMessage -> Result (ModelResponse Z) :=
  fun _ t _ =>
    if (chat_calls t <? 10)%nat then Ok (asks [geocode_rome])
    else Ok (answers "Rome is at 41.9 N, 12.5 E.").

(** A model that asks once for a summary and a geocoding together, then answers. *)
Definition two_tool_model : History -> Trace -> ChatMessage -> Result (ModelResponse Z) :=
  fun _ t _ =>
    if (chat_calls t =? 0)%nat then Ok (asks [summary_tokyo; geocode_rome])
    else Ok (answers "Done.").
End Sample.

(** ** reflexive-mode.ts *)

Module ReflexiveMode.

Record ReflexiveResponse : Type := {
  isReflexive : bool;
  answer : option string;
  command : option string
}.

Definition commands : list string :=
  ["/help"; "/how"; "/stats"; "/clear"; "/new"; "/explain"].

(** The sources of the patterns; all carry the flag [i]. *)
Definition metaPatterns : list string :=
  ["come\s+funzion";
   "how\s+(do|does)\s+(you|this|it)\s+work";
   "what\s+(is|are)\s+(you|this|wikidai)";
   "che\s+cos[''è]\s+(wikidai|questo)";
   "spiega(mi)?\s+(come|cosa)";
   "explain\s+(how|what)";
   "cosa\s+fai";
   "what\s+(do|can)\s+you\s+do";
   "quali\s+(agenti|fonti)";
   "what\s+(agents|sources)"].

Definition stats_answer : string :=
  "Le statistiche della conversazione verranno mostrate separatamente. "
    ++ "Usa il backend API endpoint /api/conversations/:id/stats per dettagli.".

Definition clear_answer : string :=
  "✅ Conversazione cancellata. Puoi iniziare una nuova conversazione con /new".

Definition new_answer : string :=
  "✅ Nuova conversazione creata. Puoi iniziare a fare domande!".

Section WithRuntime.
Variable rt : Runtime.
(** [new RegExp(source, 'i').test(input)] of the runtime. *)
Variable regex_test : string -> string -> bool.
(** The two fixed texts [helpText] and [getShortExplanation()]. *)
Variable helpText : string.
Variable shortExplanation : string.

(** [query.toLowerCase().trim()] *)
Definition normalize (query : string) : string :=
  JS.trim (space_other rt) (JS.toLowerCase (lower_other rt) query).

Definition isReflexiveQuery (query : string) : bool :=
  let normalized := normalize query in
  if existsb (fun cmd => JS.startsWith cmd normalized) commands then true
  else existsb (fun pattern => regex_test pattern normalized) metaPatterns.

Definition handleReflexive (query : string) : ReflexiveResponse :=
  let normalized := normalize query in
  if JS.startsWith "/help" normalized || JS.startsWith "/how" normalized then
    {| isReflexive := true; command := Some "help"; answer := Some helpText |}
  else if JS.startsWith "/stats" normalized then
    {| isReflexive := true; command := Some "stats"; answer := Some stats_answer |}
  else if JS.startsWith "/clear" normalized then
    {| isReflexive := true; command := Some "clear"; answer := Some clear_answer |}
  else if JS.startsWith "/new" normalized then
    {| isReflexive := true; command := Some "new"; answer := Some new_answer |}
  else if isReflexiveQuery query then
    {| isReflexive := true; command := None; answer := Some shortExplanation |}
  else {| isReflexive := false; command := None; answer := None |}.
End WithRuntime.

End ReflexiveMode.

(** ** index.ts: the handler of POST /api/query *)

Module Server.
Import Data Effects.

(** What [generateId()] and [new Date()] yield for the two messages of a turn. *)
Record Stamps : Type := {
  user_id : string; user_stamp : Z; user_now : Z;
  assistant_id : string; assistant_stamp : Z; assistant_now : Z
}.

Section WithWorld.
Variable rt : Runtime.
Variable w : World rt.
Variable regex_test : string -> string -> bool.
Variable helpText : string.
Variable shortExplanation : string.

Definition Store := ConversationManager.Manager (Args (Num rt)).

(** [req.body] *)
Record Body : Type := {
  query : ArgValue (Num rt);
  conversationId : ArgValue (Num rt)
}.

(** The response: its status and the fields of its JSON body. *)
Inductive Reply : Type :=
| BadRequest (error : string)                                   (* 400 *)
| NotFound (error : string)                                     (* 404 *)
| ServerError (error : string)                                  (* 500 *)
| ReflexiveAnswer (command : option string) (query answer : string)
| QueryAnswer (conversationId : option string)
              (data : GeminiOrchestrator.Response rt).

(** A string is the only value that can be a key of the map. *)
Definition as_key (v : ArgValue (Num rt)) : option string :=
  match v with VString s => Some s | _ => None end.

Definition find_conversation (v : ArgValue (Num rt)) (store : Store)
  : option (ConversationManager.Conversation (Args (Num rt))) :=
  match as_key v with
  | Some key => ConversationManager.getConversation _ store key
  | None => None
  end.

(** The part of the handler after the conversation has been looked up.
    One request is followed at a time: nothing else touches the store while
    the orchestrator is awaited. *)
Definition answer_query (fuel : nat) (stamps : Stamps) (queryText : string)
           (conversation : option (ConversationManager.Conversation (Args (Num rt))))
           (store : Store) (t : Trace)
  : option (Reply * Store * Trace) :=
  let history :=
    match conversation with
    | Some c => ConversationManager.getGeminiHistory _ (ConversationManager.id c) store
    | None => []
    end in
  let recorded :=
    match conversation with
    | Some c =>
        match ConversationManager.addUserMessage _ (ConversationManager.id c) queryText
                (user_id stamps) (user_stamp stamps) (user_now stamps) store with
        | Ok (store', _) => Ok store'
        | Throw message => Throw message
        end
    | None => Ok store
    end in
  match recorded with
  | Throw message => Some (ServerError message, store, t)
  | Ok store1 =>
      match GeminiOrchestrator.executeQuery rt w fuel queryText (Some history) t with
      | (Ok None, _) => None
      | (Throw message, t1) => Some (ServerError message, store1, t1)
      | (Ok (Some result), t1) =>
          match conversation with
          | Some c =>
              match ConversationManager.addAssistantMessage _ (ConversationManager.id c)
                      (Types.answer result) result
                      (assistant_id stamps) (assistant_stamp stamps)
                      (assistant_now stamps) store1 with
              | Ok (store2, _) =>
                  Some (QueryAnswer (Some (ConversationManager.id c)) result, store2, t1)
              | Throw message => Some (ServerError message, store1, t1)
              end
          | None => Some (QueryAnswer None result, store1, t1)
          end
      end
  end.

(** [app.post('/api/query', ...)]; [None] is a loop that has not finished
    within [fuel]. *)
Definition postQuery (fuel : nat) (stamps : Stamps) (body : Body)
           (store : Store) (t : Trace)
  : option (Reply * Store * Trace) :=
  match query body with
  | VString queryText =>
      if String.eqb queryText EmptyString
      then Some (BadRequest "Query string required", store, t)
      else
        let reflexiveCheck :=
          ReflexiveMode.handleReflexive rt regex_test helpText shortExplanation queryText in
        if ReflexiveMode.isReflexive reflexiveCheck then
          let store' :=
            match ReflexiveMode.command reflexiveCheck with
            | Some cmd =>
                if String.eqb cmd "clear" && Arg.truthy (conversationId body)
                then match as_key (conversationId body) with
                     | Some key => fst (ConversationManager.deleteConversation _ key store)
                     | None => store
                     end
                else store
            | None => store
            end in
          Some (ReflexiveAnswer (ReflexiveMode.command reflexiveCheck) queryText
                  (match ReflexiveMode.answer reflexiveCheck with
                   | Some a => a
                   | None => EmptyString
                   end),
                store', t)
        else if Arg.truthy (conversationId body) then
          match find_conversation (conversationId body) store with
          | None =>
              Some (NotFound ("Conversation " ++ Arg.to_string (conversationId body)
                                ++ " not found"), store, t)
          | Some conversation =>
              answer_query fuel stamps queryText (Some conversation) store t
          end
        else answer_query fuel stamps queryText None store t
  | _ => Some (BadRequest "Query string required", store, t)
  end.
End WithWorld.

End Server.

(** ** Sample requests *)

Module SampleRequests.
Import Data Effects.

(** A model that answers at once, and one whose transport fails. *)
Definition direct_model : History -> Trace -> ChatMessage -> Result (ModelResponse Z) :=
  fun _ _ _ => Ok (Sample.answers "Rome is the capital of Italy.").

Definition failing_model : History -> Trace -> ChatMessage -> Result (ModelResponse Z) :=
  fun _ _ _ => Throw "503 Service Unavailable".

(** A stand-in for the regular expressions: no pattern matches. *)
Definition no_pattern : string -> string -> bool := fun _ _ => false.

Definition stamps : Server.Stamps :=
  {| Server.user_id := "m1"; Server.user_stamp := 20; Server.user_now := 20;
     Server.assistant_id := "m2"; Server.assistant_stamp := 30;
     Server.assistant_now := 30 |}.

(** A store that holds the one conversation [c1]. *)
Definition one_conversation : Server.Store Sample.runtime :=
  fst (ConversationManager.createConversation (Args Z) None "c1" 10 10
         (ConversationManager.new (Args Z) 100)).

Definition ask (text : string) (conversation : ArgValue Z) : Server.Body Sample.runtime :=
  Server.Build_Body Sample.runtime (VString text) conversation.
End SampleRequests.

(** ** A sample conversation of two turns *)

Module SampleStore.
Import Types ConversationManager.

Definition geocoded : QueryResponse unit :=
  {| query := "Where is Rome?";
     thoughts := [];
     agentCalls := [ {| agent := "geocode_location"; params := tt;
                        response := "Location: Rome, Italy" |} ];
     answer := "Rome is in Italy.";
     latencyMs := 120 |}.

Definition summarised : QueryResponse unit :=
  {| query := "And what is it known for?";
     thoughts := [];
     agentCalls := [ {| agent := "get_wikipedia_summary"; params := tt;
                        response := "**Rome**" |};
                     {| agent := "geocode_location"; params := tt;
                        response := "Location: Rome, Italy" |} ];
     answer := "For its history.";
     latencyMs := 81 |}.

(** The manager after a call that appends a message. *)
Definition after (outcome : Result (Manager unit * ConversationMessage unit))
           (otherwise : Manager unit) : Manager unit :=
  match outcome with
  | Ok (mgr, _) => mgr
  | Throw _ => otherwise
  end.

(** A conversation created under the title Weather, then two questions,
    each with its answer. *)
Definition created : Manager unit :=
  fst (createConversation unit (Some "Weather") "a" 1 1 (new unit 3)).

Definition asked : Manager unit :=
  after (addUserMessage unit "a" "Where is Rome?" "m1" 2 2 created) created.

Definition answered : Manager unit :=
  after (addAssistantMessage unit "a" "Rome is in Italy." geocoded "m2" 3 3 asked)
        asked.

Definition asked_again : Manager unit :=
  after (addUserMessage unit "a" "And what is it known for?" "m3" 4 4 answered)
        answered.

Definition answered_again : Manager unit :=
  after (addAssistantMessage unit "a" "For its history." summarised "m4" 5 5
           asked_again)
        asked_again.
End SampleStore.

(** ** Notions about commands *)

Fixpoint only_spaces (s : string) : bool :=
  match s with
  | EmptyString => true
  | String c rest => JS.is_space c && only_spaces rest
  end.

(** ** Further notions about the store *)

Section MoreStoreNotions.
Import ConversationManager.
Variable Params : Type.
Implicit Types (mgr : Manager Params) (c : Conversation Params).

(** Identifiers are unique, every conversation is filed under its own
    identifier, and the capacity is respected. *)
Definition store_ok mgr : Prop :=
  NoDup (JS.keys (conversations mgr))
  /\ (forall k c, In (k, c) (conversations mgr) -> id c = k)
  /\ JS.size (conversations mgr) <= maxConversations mgr.

Definition is_assistant (m : ConversationMessage Params) : bool :=
  negb (is_user (role m)).

(** The latency attached to a message; none for a user message. *)
Definition latency_of (m : ConversationMessage Params) : Z :=
  match queryResponse m with
  | Some qr => Types.latencyMs qr
  | None => 0%Z
  end.

(** The agent names attached to a message. *)
Definition agents_of (m : ConversationMessage Params) : list string :=
  match queryResponse m with
  | Some qr => map Types.agent (Types.agentCalls qr)
  | None => []
  end.

Definition sum_Z (l : list Z) : Z := fold_right Z.add 0%Z l.

(** The metadata of [c] is what its messages add up to. *)
Definition metadata_consistent c : Prop :=
  exists md,
    metadata c = Some md
    /\ totalQueries md = Z.of_nat (List.length (filter is_assistant (messages c)))
    /\ totalLatencyMs md = sum_Z (map latency_of (messages c))
    /\ (forall tool, In tool (agentsUsed md)
                     <-> In tool (flat_map agents_of (messages c))).

Definition first_user_message c : option (ConversationMessage Params) :=
  hd_error (filter (fun m => is_user (role m)) (messages c)).

(** Once a user has written, the title is the one derived from the first
    user message. *)
Definition title_from_first_message c : Prop :=
  forall m, first_user_message c = Some m -> title c = generateTitle (content m).

(** An entry of the store that stems from the creation [r]. *)
Definition stems_from (e : string * Conversation Params) (r : Creation) : Prop :=
  fst e = fresh_id r /\ id (snd e) = fresh_id r /\ updatedAt (snd e) = updated_at r.

(** The creations carry strictly increasing update times. *)
Definition clock_advances (cs : list Creation) : Prop :=
  StronglySorted (fun a b => (updated_at a < updated_at b)%Z) cs.

End MoreStoreNotions.

(** ** Further notions about traces *)

Section MoreTraceNotions.
Import Data Effects.

(** A computation all of whose new events satisfy [P]. *)
Definition adds (P : Event -> Prop) {A} (m : M A) : Prop :=
  forall t, exists new, snd (m t) = (new ++ t)%list /\ Forall P new.

Variable rt : Runtime.
Variable w : World rt.

(** A GET to the Wikidata endpoint is the request built for a query that
    parses and contains no blocked keyword. *)
Definition validated_get (e : Event) : Prop :=
  match e with
  | HttpGet req =>
      Http.url req = WikidataAgent.WIKIDATA_ENDPOINT ->
      exists q,
        req = WikidataAgent.request q
        /\ parse rt q = Parsed
        /\ Spec.keyword_free q
  | ChatSend _ => True
  end.

(** [message] was thrown by the chat provider: by a send on the chat
    started with [h], or by reading a reply it gave. *)
Definition from_provider (h : History) (message : string) : Prop :=
  exists t0 sent,
    chat_reply w h t0 sent = Throw message
    \/ exists reply,
         chat_reply w h t0 sent = Ok reply
         /\ (functionCalls reply = Throw message
             \/ response_text reply = Throw message).

(** The names the [switch] of the orchestrator knows. *)
Definition known_function (name : string) : bool :=
  String.eqb name "query_wikidata"
  || String.eqb name "get_wikipedia_summary"
  || String.eqb name "geocode_location"
  || String.eqb name "get_weather".

Definition is_string (v : ArgValue (Num rt)) : bool :=
  match v with VString _ => true | _ => false end.

(** A text without blank, tab or line break. *)
Fixpoint no_space (s : string) : bool :=
  match s with
  | EmptyString => true
  | String c rest => negb (JS.is_space c) && no_space rest
  end.

(** A text in which the engine finds no white space at all. *)
Definition spaceless (other : string -> list bool) (s : string) : bool :=
  forallb (fun unit => negb (snd unit)) (JS.marked other s).

(** The units of an ASCII text with their marks. *)
Fixpoint plain_marks (s : string) : list (ascii * bool) :=
  match s with
  | EmptyString => []
  | String c rest => (c, JS.is_space c) :: plain_marks rest
  end.

End MoreTraceNotions.

(* ================================================================== *)
(** * Part II: properties *)
(* ================================================================== *)

(** ** Strings *)

Section StringFacts.

Lemma fold_upper_char (c : ascii) :
  Spec.fold_char (JS.upper_char c) = Spec.fold_char c.
Proof. destruct c as [[] [] [] [] [] [] [] []]; reflexivity. Qed.

Lemma upper_fold_char (c : ascii) :
  JS.upper_char (Spec.fold_char c) = JS.upper_char c.
Proof. destruct c as [[] [] [] [] [] [] [] []]; reflexivity. Qed.

Lemma fold_upper_ascii (s : string) :
  Spec.fold_case (Spec.upper_ascii s) = Spec.fold_case s.
Proof.
  induction s as [|c s IH]; simpl; [reflexivity|].
  now rewrite fold_upper_char, IH.
Qed.

Lemma upper_ascii_fold (s : string) :
  Spec.upper_ascii (Spec.fold_case s) = Spec.upper_ascii s.
Proof.
  induction s as [|c s IH]; simpl; [reflexivity|].
  now rewrite upper_fold_char, IH.
Qed.

(** Two strings fold to the same text exactly when they upper-case to the same. *)
Lemma same_fold_same_upper (a b : string) :
  Spec.fold_case a = Spec.fold_case b <-> Spec.upper_ascii a = Spec.upper_ascii b.
Proof.
  split; intro H.
  - rewrite <- (upper_ascii_fold a), <- (upper_ascii_fold b). now rewrite H.
  - rewrite <- (fold_upper_ascii a), <- (fold_upper_ascii b). now rewrite H.
Qed.

Lemma upper_ascii_app (a b : string) :
  Spec.upper_ascii (a ++ b) = Spec.upper_ascii a ++ Spec.upper_ascii b.
Proof. induction a as [|c a IH]; simpl; [reflexivity | now rewrite IH]. Qed.

(** A split of the upper-cased text comes from a split of the text. *)
Lemma upper_ascii_split (s a b : string) :
  Spec.upper_ascii s = a ++ b ->
  exists sa sb, s = sa ++ sb /\ Spec.upper_ascii sa = a /\ Spec.upper_ascii sb = b.
Proof.
  revert s. induction a as [|c a IH]; intros s H.
  - exists EmptyString, s. simpl in *. auto.
  - destruct s as [|d s]; simpl in H; [discriminate|].
    injection H as Hc Hs.
    destruct (IH s Hs) as (sa & sb & -> & Ha & Hb).
    exists (String d sa), sb. simpl. rewrite Hc, Ha. auto.
Qed.

Lemma startsWith_iff (k s : string) :
  JS.startsWith k s = true <-> exists rest, s = k ++ rest.
Proof.
  revert s. induction k as [|a k IH]; intros s; simpl.
  - split; [intros _; now exists s | reflexivity].
  - destruct s as [|b s].
    + split; [discriminate | intros [rest H]; discriminate].
    + rewrite andb_true_iff, Ascii.eqb_eq, IH. split.
      * intros [-> [rest ->]]. now exists rest.
      * intros [rest H]. injection H as -> ->. split; [reflexivity | now exists rest].
Qed.

Lemma includes_iff (s k : string) :
  JS.includes s k = true <-> exists before after, s = before ++ k ++ after.
Proof.
  induction s as [|c s IH].
  - simpl. rewrite orb_false_r, startsWith_iff. split.
    + intros [rest H]. now exists EmptyString, rest.
    + intros (before & after & H). destruct before; simpl in H.
      * now exists after.
      * discriminate.
  - change (JS.includes (String c s) k)
      with (JS.startsWith k (String c s) || JS.includes s k).
    rewrite orb_true_iff, startsWith_iff, IH. split.
    + intros [[rest H] | (before & after & H)].
      * now exists EmptyString, rest.
      * exists (String c before), after. simpl. now rewrite H.
    + intros (before & after & H). destruct before as [|d before]; simpl in H.
      * left. now exists after.
      * right. injection H as _ H. now exists before, after.
Qed.


Lemma includes_middle (a k b : string) : JS.includes (a ++ k ++ b) k = true.
Proof. apply includes_iff. now exists a, b. Qed.

(** Over the ASCII range: the upper-cased text includes an upper-case
    keyword exactly when the text contains the keyword in some letter case. *)
Lemma includes_upper_iff (q keyword : string) :
  Spec.upper_ascii keyword = keyword ->
  JS.includes (Spec.upper_ascii q) keyword = true
  <-> Spec.contains_ignoring_case q keyword.
Proof.
  intros Hk. rewrite includes_iff. split.
  - intros (before & after & H).
    destruct (upper_ascii_split _ _ _ H) as (qa & qrest & -> & Ha & Hrest).
    destruct (upper_ascii_split _ _ _ Hrest) as (qk & qb & -> & Hqk & Hb).
    exists qa, qk, qb. split; [reflexivity|].
    apply same_fold_same_upper. now rewrite Hk.
  - intros (before & occurrence & after & -> & H).
    apply same_fold_same_upper in H. rewrite Hk in H.
    exists (Spec.upper_ascii before), (Spec.upper_ascii after).
    now rewrite !upper_ascii_app, H.
Qed.

Lemma keywords_upper (keyword : string) :
  In keyword SPARQLValidator.DANGEROUS_KEYWORDS ->
  Spec.upper_ascii keyword = keyword.
Proof.
  simpl. intros H.
  repeat (destruct H as [<- | H]; [reflexivity|]). contradiction.
Qed.

Lemma substring0_length (n : nat) (s : string) :
  String.length (JS.substring0 n s) = Nat.min n (String.length s).
Proof.
  unfold JS.substring0. revert s.
  induction n as [|n IH]; intros [|c s]; simpl; auto.
Qed.

Lemma string_app_length (a b : string) :
  String.length (a ++ b) = (String.length a + String.length b)%nat.
Proof. induction a; simpl; auto. Qed.

End StringFacts.

(** ** The query validator *)

(** ** Texts and the character tables of the engine *)

Section SegmentFacts.
Import SPARQLValidator.
Variable upper : string -> string.

Lemma string_app_assoc (a b c : string) : (a ++ b) ++ c = a ++ b ++ c.
Proof. induction a as [|x a IH]; simpl; [reflexivity | now rewrite IH]. Qed.

Lemma string_app_nil (a : string) : a ++ EmptyString = a.
Proof. induction a as [|x a IH]; simpl; [reflexivity | now rewrite IH]. Qed.

(** A character of the ASCII range ends the stretch before it. *)
Lemma segments_before_plain (a : string) (c : ascii) (b : string) :
  JS.is_ascii c = true ->
  JS.segments (a ++ String c b)
  = (JS.segments a ++ JS.Plain c :: JS.segments b)%list.
Proof.
  intros Hc. induction a as [|d a IH].
  - simpl. now rewrite Hc.
  - change (String d a ++ String c b) with (String d (a ++ String c b)).
    cbn [JS.segments]. rewrite IH. destruct (JS.is_ascii d); [reflexivity|].
    destruct (JS.segments a) as [|[e|r] more]; reflexivity.
Qed.

Lemma upper_of_app (l1 l2 : list JS.Segment) :
  JS.upper_of upper (l1 ++ l2)%list = JS.upper_of upper l1 ++ JS.upper_of upper l2.
Proof.
  induction l1 as [|[c|r] l1 IH]; simpl; [reflexivity | now rewrite IH |].
  now rewrite IH, string_app_assoc.
Qed.

Lemma upper_of_ascii_prefix (m rest : string) :
  Spec.only_ascii m = true ->
  JS.upper_of upper (JS.segments (m ++ rest))
  = Spec.upper_ascii m ++ JS.upper_of upper (JS.segments rest).
Proof.
  induction m as [|c m IH]; intros H; [reflexivity|].
  cbn [Spec.only_ascii] in H. apply andb_true_iff in H as [Hc Hm].
  change (String c m ++ rest) with (String c (m ++ rest)).
  cbn [JS.segments]. rewrite Hc. cbn [JS.upper_of Spec.upper_ascii].
  now rewrite (IH Hm).
Qed.

(** On a text of the ASCII range the engine's tables are not consulted. *)
Lemma toUpperCase_ascii (s : string) :
  Spec.only_ascii s = true -> JS.toUpperCase upper s = Spec.upper_ascii s.
Proof.
  intros H. unfold JS.toUpperCase.
  rewrite <- (string_app_nil s) at 1.
  rewrite (upper_of_ascii_prefix s EmptyString H). apply string_app_nil.
Qed.

(** A stretch of ASCII characters is upper-cased on its own, whatever
    stands around it. *)
Lemma toUpperCase_around (before m after : string) :
  Spec.only_ascii m = true ->
  m <> EmptyString ->
  JS.toUpperCase upper (before ++ m ++ after)
  = JS.toUpperCase upper before ++ Spec.upper_ascii m ++ JS.toUpperCase upper after.
Proof.
  intros H Hne. destruct m as [|c m]; [contradiction|].
  cbn [Spec.only_ascii] in H. apply andb_true_iff in H as [Hc Hm].
  unfold JS.toUpperCase.
  change (before ++ String c m ++ after) with (before ++ String c (m ++ after)).
  rewrite (segments_before_plain _ _ _ Hc), upper_of_app.
  cbn [JS.upper_of Spec.upper_ascii].
  now rewrite (upper_of_ascii_prefix m after Hm).
Qed.

Lemma ascii_fold_char (c : ascii) : JS.is_ascii (Spec.fold_char c) = JS.is_ascii c.
Proof. destruct c as [[] [] [] [] [] [] [] []]; reflexivity. Qed.

Lemma only_ascii_fold (s : string) :
  Spec.only_ascii (Spec.fold_case s) = Spec.only_ascii s.
Proof.
  induction s as [|c s IH]; simpl; [reflexivity|].
  now rewrite ascii_fold_char, IH.
Qed.

Lemma keywords_ascii (keyword : string) :
  In keyword DANGEROUS_KEYWORDS ->
  Spec.only_ascii keyword = true /\ keyword <> EmptyString.
Proof.
  simpl. intros H.
  repeat (destruct H as [<- | H]; [split; [reflexivity | discriminate]|]).
  contradiction.
Qed.

(** A keyword written in any case of its letters is found by the scan of
    the upper-cased text, whatever else the text holds. *)
Lemma contained_is_included (q keyword : string) :
  In keyword DANGEROUS_KEYWORDS ->
  Spec.contains_ignoring_case q keyword ->
  JS.includes (JS.toUpperCase upper q) keyword = true.
Proof.
  intros Hin (before & occurrence & after & -> & Hfold).
  destruct (keywords_ascii _ Hin) as [Hascii Hne].
  assert (Hocc : Spec.only_ascii occurrence = true).
  { now rewrite <- only_ascii_fold, Hfold, only_ascii_fold. }
  assert (Hocc' : occurrence <> EmptyString).
  { intros ->. destruct keyword; [now apply Hne | discriminate Hfold]. }
  rewrite (toUpperCase_around _ _ _ Hocc Hocc').
  apply same_fold_same_upper in Hfold.
  rewrite Hfold, (keywords_upper _ Hin). apply includes_middle.
Qed.

(** In a text of the ASCII range the scan finds nothing else. *)
Lemma included_is_contained (q keyword : string) :
  Spec.only_ascii q = true ->
  In keyword DANGEROUS_KEYWORDS ->
  JS.includes (JS.toUpperCase upper q) keyword = true ->
  Spec.contains_ignoring_case q keyword.
Proof.
  intros Hq Hin H. rewrite (toUpperCase_ascii _ Hq) in H.
  apply includes_upper_iff; [now apply keywords_upper | exact H].
Qed.

End SegmentFacts.

(** ** The query validator *)

Section ValidatorFacts.
Import SPARQLValidator.
Variable rt : Runtime.

Lemma scan_finds (q : string) :
  match find (fun keyword => JS.includes (JS.toUpperCase (upper_other rt) q) keyword)
             DANGEROUS_KEYWORDS with
  | Some found =>
      In found DANGEROUS_KEYWORDS
      /\ JS.includes (JS.toUpperCase (upper_other rt) q) found = true
  | None =>
      forall keyword,
        In keyword DANGEROUS_KEYWORDS ->
        JS.includes (JS.toUpperCase (upper_other rt) q) keyword = false
  end.
Proof.
  destruct (find _ DANGEROUS_KEYWORDS) as [found|] eqn:E.
  - now apply find_some in E.
  - intros keyword Hin. exact (find_none _ _ E keyword Hin).
Qed.

Lemma validate_parse_error (q message : string) :
  parse rt q = ParseError message ->
  validate rt q = {| valid := false; error := Some (syntax_error message) |}.
Proof. unfold validate. now intros ->. Qed.

(** The verdict in the terms of the code: the query parses and its
    upper-cased text includes none of the keywords. *)
Lemma validate_pass_iff (q : string) :
  valid (validate rt q) = true
  <-> parse rt q = Parsed
      /\ forall keyword,
           In keyword DANGEROUS_KEYWORDS ->
           JS.includes (JS.toUpperCase (upper_other rt) q) keyword = false.
Proof.
  unfold validate. cbv zeta. pose proof (scan_finds q) as Hscan.
  destruct (parse rt q) as [|message].
  - destruct (find _ DANGEROUS_KEYWORDS) as [found|]; cbn [valid].
    + destruct Hscan as [Hin Hc]. split; [discriminate|].
      intros [_ Hfree]. rewrite (Hfree found Hin) in Hc. discriminate Hc.
    + split; auto.
  - split; [discriminate | intros [H _]; discriminate].
Qed.

(** A query that passes holds no keyword in any case of its letters. *)
Lemma validate_pass_free (q : string) :
  valid (validate rt q) = true -> parse rt q = Parsed /\ Spec.keyword_free q.
Proof.
  intros H. apply validate_pass_iff in H as [Hp Hnone]. split; [exact Hp|].
  intros keyword Hin Hc. specialize (Hnone keyword Hin).
  rewrite (contained_is_included (upper_other rt) _ _ Hin Hc) in Hnone.
  discriminate Hnone.
Qed.


(** C3, as the code has it: a query that contains a blocked keyword in any
    case of its letters gets a failed verdict.  When the query parses, the
    reason is the keyword message for a blocked keyword that the upper-cased
    text of the query includes (for a query of the ASCII range: a keyword
    that the query contains in some letter case), and that message includes
    the keyword; when the query does not parse, the reason is the
    syntax-error message built from the parser's. *)
Theorem blocked_keyword_fails (q keyword : string) :
  In keyword DANGEROUS_KEYWORDS ->
  Spec.contains_ignoring_case q keyword ->
  valid (validate rt q) = false
  /\ (parse rt q = Parsed ->
      exists found,
        In found DANGEROUS_KEYWORDS
        /\ JS.includes (JS.toUpperCase (upper_other rt) q) found = true
        /\ (Spec.only_ascii q = true -> Spec.contains_ignoring_case q found)
        /\ error (validate rt q) = Some (dangerous found)
        /\ JS.includes (dangerous found) found = true)
  /\ (forall message,
        parse rt q = ParseError message ->
        error (validate rt q) = Some (syntax_error message)).
Proof.
  intros Hin Hc. split; [|split].
  - destruct (valid (validate rt q)) eqn:E; [|reflexivity].
    apply validate_pass_free in E as [_ Hfree].
    exfalso. exact (Hfree keyword Hin Hc).
  - intros Hp. unfold validate. cbv zeta. rewrite Hp.
    pose proof (scan_finds q) as Hscan.
    destruct (find _ DANGEROUS_KEYWORDS) as [found|]; cbn [error].
    + destruct Hscan as [Hf Hcf]. exists found.
      split; [exact Hf|]. split; [exact Hcf|]. split; [|split].
      * intros Hq. exact (included_is_contained _ _ _ Hq Hf Hcf).
      * reflexivity.
      * unfold dangerous. apply includes_middle.
    + exfalso. specialize (Hscan keyword Hin).
      rewrite (contained_is_included (upper_other rt) _ _ Hin Hc) in Hscan.
      discriminate Hscan.
  - intros message Hp. now rewrite (validate_parse_error _ _ Hp).
Qed.

End ValidatorFacts.

(** C3 as stated fails: this query contains CREATE and does not parse, and
    the reason of its failed verdict is the syntax error, which names no
    blocked keyword. *)
Lemma keyword_unnamed_on_syntax_error :
  In "CREATE" SPARQLValidator.DANGEROUS_KEYWORDS
  /\ Spec.contains_ignoring_case "SELECT ?created WHERE {" "CREATE"
  /\ SPARQLValidator.validate Sample.runtime "SELECT ?created WHERE {"
     = {| SPARQLValidator.valid := false;
          SPARQLValidator.error :=
            Some "SPARQL syntax error: Parse error on line 1: unbalanced braces" |}
  /\ forallb
       (fun keyword =>
          negb (JS.includes
                  "SPARQL syntax error: Parse error on line 1: unbalanced braces"
                  keyword))
       SPARQLValidator.DANGEROUS_KEYWORDS = true.
Proof.
  split; [simpl; tauto|]. split; [|split; reflexivity].
  exists "SELECT ?", "create", "d WHERE {". split; reflexivity.
Qed.

Lemma blocked_keyword_fails_witness :
  SPARQLValidator.valid
    (SPARQLValidator.validate Sample.runtime "delete where { ?x ?y ?z }") = false
  /\ exists found,
       SPARQLValidator.error
         (SPARQLValidator.validate Sample.runtime "delete where { ?x ?y ?z }")
       = Some (SPARQLValidator.dangerous found)
       /\ Spec.contains_ignoring_case "delete where { ?x ?y ?z }" found.
Proof.
  assert (Hin : In "DELETE" SPARQLValidator.DANGEROUS_KEYWORDS) by (simpl; tauto).
  assert (Hc : Spec.contains_ignoring_case "delete where { ?x ?y ?z }" "DELETE").
  { exists EmptyString, "delete", " where { ?x ?y ?z }". split; reflexivity. }
  destruct (blocked_keyword_fails Sample.runtime _ _ Hin Hc) as (Hv & Hparsed & _).
  split; [exact Hv|].
  destruct (Hparsed eq_refl) as (found & _ & _ & Hcontained & He & _).
  exists found. split; [exact He | exact (Hcontained eq_refl)].
Defined.

(** ** The Wikidata agent behind the validator *)

Section GuardFacts.
Import Data Effects SPARQLValidator.
Variable rt : Runtime.
Variable w : World rt.



End GuardFacts.

(** ** Maps in insertion order *)

Section MapFacts.
Context {V : Type}.
Implicit Types (m : JS.Map V) (k : string) (v : V).

Lemma get_set_same m k v : JS.get k (JS.set k v m) = Some v.
Proof.
  induction m as [|[k' v'] m IH]; simpl.
  - now rewrite String.eqb_refl.
  - destruct (String.eqb k' k) eqn:E; simpl.
    + now rewrite String.eqb_refl.
    + now rewrite E.
Qed.

Lemma get_set_other m k k' v :
  k <> k' -> JS.get k' (JS.set k v m) = JS.get k' m.
Proof.
  intros Hne. induction m as [|[k0 v0] m IH]; simpl.
  - apply String.eqb_neq in Hne. now rewrite Hne.
  - destruct (String.eqb k0 k) eqn:E; simpl.
    + apply String.eqb_eq in E. subst k0.
      apply String.eqb_neq in Hne. now rewrite Hne.
    + now rewrite IH.
Qed.

Lemma get_delete_same m k : JS.get k (JS.delete k m) = None.
Proof.
  induction m as [|[k0 v0] m IH]; simpl; [reflexivity|].
  destruct (String.eqb k0 k) eqn:E; simpl; [exact IH | now rewrite E].
Qed.

Lemma get_delete_other m k k' :
  k <> k' -> JS.get k' (JS.delete k m) = JS.get k' m.
Proof.
  intros Hne. induction m as [|[k0 v0] m IH]; simpl; [reflexivity|].
  destruct (String.eqb k0 k) eqn:E; simpl.
  - apply String.eqb_eq in E. subst k0.
    apply String.eqb_neq in Hne. now rewrite Hne.
  - now rewrite IH.
Qed.

Lemma get_some_in m k v : JS.get k m = Some v -> In (k, v) m.
Proof.
  induction m as [|[k0 v0] m IH]; simpl; [discriminate|].
  destruct (String.eqb k0 k) eqn:E.
  - apply String.eqb_eq in E. intros [= ->]. left. now subst.
  - intros H. right. auto.
Qed.

Lemma get_none_iff m k : JS.get k m = None <-> ~ In k (JS.keys m).
Proof.
  induction m as [|[k0 v0] m IH]; simpl; [tauto|].
  destruct (String.eqb k0 k) eqn:E.
  - apply String.eqb_eq in E. split; [discriminate | intros H; exfalso; auto].
  - apply String.eqb_neq in E. rewrite IH. tauto.
Qed.

Lemma in_get m k v : NoDup (JS.keys m) -> In (k, v) m -> JS.get k m = Some v.
Proof.
  induction m as [|[k0 v0] m IH]; simpl; [contradiction|].
  intros Hnd [H | H].
  - injection H as -> ->. now rewrite String.eqb_refl.
  - inversion Hnd as [|? ? Hnotin Hnd']; subst.
    destruct (String.eqb k0 k) eqn:E.
    + apply String.eqb_eq in E. subst k0. exfalso. apply Hnotin.
      change k with (fst (k, v)). now apply in_map.
    + auto.
Qed.

Lemma set_fresh m k v :
  JS.get k m = None -> JS.set k v m = (m ++ [(k, v)])%list.
Proof.
  induction m as [|[k0 v0] m IH]; simpl; [reflexivity|].
  destruct (String.eqb k0 k); [discriminate|].
  intros H. now rewrite IH.
Qed.

Lemma keys_set_present m k v v0 :
  JS.get k m = Some v0 -> JS.keys (JS.set k v m) = JS.keys m.
Proof.
  induction m as [|[k1 v1] m IH]; simpl; [discriminate|].
  destruct (String.eqb k1 k) eqn:E; simpl.
  - apply String.eqb_eq in E. now subst.
  - intros H. now rewrite IH.
Qed.

Lemma in_delete m k e : In e (JS.delete k m) <-> In e m /\ fst e <> k.
Proof.
  unfold JS.delete. rewrite filter_In, negb_true_iff, String.eqb_neq. tauto.
Qed.

Lemma keys_delete_nodup m k : NoDup (JS.keys m) -> NoDup (JS.keys (JS.delete k m)).
Proof.
  induction m as [|[k0 v0] m IH]; simpl; [auto|].
  intros Hnd. inversion Hnd as [|? ? Hnotin Hnd']; subst.
  destruct (String.eqb k0 k); simpl; [auto|].
  constructor; [|auto].
  intros Hin. apply Hnotin. unfold JS.keys in *.
  apply in_map_iff in Hin as ([k1 v1] & <- & Hin).
  apply in_delete in Hin as [Hin _].
  change (fst (k1, v1)) with k1. change k1 with (fst (k1, v1)). now apply in_map.
Qed.

(** Deleting a key that is present removes exactly one entry. *)
Lemma size_delete_present m k :
  NoDup (JS.keys m) -> In k (JS.keys m) ->
  S (JS.size (JS.delete k m)) = JS.size m.
Proof.
  unfold JS.size.
  induction m as [|[k0 v0] m IH]; simpl; [contradiction|].
  intros Hnd Hin. inversion Hnd as [|? ? Hnotin Hnd']; subst.
  destruct (String.eqb k0 k) eqn:E; simpl.
  - apply String.eqb_eq in E. subst k0. f_equal.
    clear IH Hin Hnd. induction m as [|[k1 v1] m IHm]; simpl; [reflexivity|].
    simpl in Hnotin. destruct (String.eqb k1 k) eqn:E1; simpl.
    + apply String.eqb_eq in E1. subst. exfalso. auto.
    + f_equal. apply IHm; [tauto | now inversion Hnd'].
  - f_equal. apply IH; [exact Hnd'|].
    destruct Hin as [->|Hin]; [|exact Hin].
    rewrite String.eqb_refl in E. discriminate.
Qed.

End MapFacts.

(** ** Insertion-ordered sets of strings *)

Section SetFacts.

Lemma set_has_iff (x : string) (s : JS.StringSet) :
  JS.set_has x s = true <-> In x s.
Proof.
  unfold JS.set_has. rewrite existsb_exists. split.
  - intros (y & Hin & E). apply String.eqb_eq in E. now subst.
  - intros Hin. exists x. split; [exact Hin | apply String.eqb_refl].
Qed.

Lemma in_set_add (x y : string) (s : JS.StringSet) :
  In x (JS.set_add y s) <-> x = y \/ In x s.
Proof.
  unfold JS.set_add. destruct (JS.set_has y s) eqn:E.
  - apply set_has_iff in E. split; [auto | intros [-> | H]; auto].
  - rewrite in_app_iff. simpl. split; intros H; intuition.
Qed.

Lemma set_add_nodup (y : string) (s : JS.StringSet) :
  NoDup s -> NoDup (JS.set_add y s).
Proof.
  intros Hnd. unfold JS.set_add. destruct (JS.set_has y s) eqn:E; [exact Hnd|].
  assert (Hnotin : ~ In y s).
  { intros Hin. apply set_has_iff in Hin. congruence. }
  clear E. induction s as [|a s IH]; simpl.
  - constructor; [auto | constructor].
  - inversion Hnd as [|? ? Ha Hs]; subst. constructor.
    + rewrite in_app_iff. simpl in *. intuition.
    + apply IH; [exact Hs | simpl in Hnotin; tauto].
Qed.

Lemma in_add_all {A} (f : A -> string) (l : list A) (s : JS.StringSet) (x : string) :
  In x (fold_left (fun used a => JS.set_add (f a) used) l s)
  <-> In x s \/ In x (map f l).
Proof.
  revert s. induction l as [|a l IH]; intros s; simpl; [tauto|].
  rewrite IH, in_set_add. intuition.
Qed.

Lemma add_all_nodup {A} (f : A -> string) (l : list A) (s : JS.StringSet) :
  NoDup s -> NoDup (fold_left (fun used a => JS.set_add (f a) used) l s).
Proof.
  revert s. induction l as [|a l IH]; intros s Hnd; simpl; [exact Hnd|].
  apply IH. now apply set_add_nodup.
Qed.

End SetFacts.

(** ** The conversation store *)

Section StoreFacts.
Import ConversationManager.
Variable Params : Type.
Implicit Types (mgr : Manager Params) (c : Conversation Params).

Lemma cleanup_get mgr cid c :
  getConversation Params (cleanupOldConversations Params mgr) cid = Some c ->
  getConversation Params mgr cid = Some c.
Proof.
  unfold cleanupOldConversations, getConversation.
  generalize (JS.slice_from (maxConversations mgr) (listConversations Params mgr)).
  intros toDelete. revert mgr.
  induction toDelete as [|d toDelete IH]; intros mgr; simpl; [auto|].
  intros H. apply IH in H. simpl in H.
  destruct (String.eqb (id d) cid) eqn:E.
  - apply String.eqb_eq in E. subst cid. now rewrite get_delete_same in H.
  - apply String.eqb_neq in E. now rewrite get_delete_other in H.
Qed.

Lemma get_set_cases (m : JS.Map (Conversation Params)) k k' c c' :
  JS.get k' (JS.set k c m) = Some c' ->
  (k' = k /\ c' = c) \/ JS.get k' m = Some c'.
Proof.
  destruct (string_dec k k') as [<- | Hne].
  - rewrite get_set_same. intros [= <-]. now left.
  - rewrite get_set_other by exact Hne. now right.
Qed.

Lemma reachable_has_metadata mgr : reachable Params mgr -> has_metadata Params mgr.
Proof.
  induction 1 as [n
                 | mgr title newId created updated _ IH
                 | mgr cid text newId stamp now mgr' msg _ IH Hadd
                 | mgr cid text qr newId stamp now mgr' msg _ IH Hadd
                 | mgr cid _ IH
                 | mgr _ IH]; intros k c Hget.
  - discriminate.
  - unfold createConversation in Hget. cbn [fst] in Hget.
    match type of Hget with
    | context [if ?b then _ else _] => destruct b
    end; [apply cleanup_get in Hget|];
      unfold getConversation in Hget; simpl in Hget;
      apply get_set_cases in Hget as [[_ ->] | Hget];
      try (eexists; split; [reflexivity | constructor]);
      exact (IH _ _ Hget).
  - unfold addUserMessage in Hadd.
    destruct (JS.get cid (conversations mgr)) as [conv|] eqn:Hc; [|discriminate].
    injection Hadd as <- _.
    unfold getConversation in Hget. simpl in Hget.
    apply get_set_cases in Hget as [[_ ->] | Hget]; [|exact (IH _ _ Hget)].
    exact (IH _ _ Hc).
  - unfold addAssistantMessage in Hadd.
    destruct (JS.get cid (conversations mgr)) as [conv|] eqn:Hc; [|discriminate].
    injection Hadd as <- _.
    unfold getConversation in Hget. simpl in Hget.
    apply get_set_cases in Hget as [[_ ->] | Hget]; [|exact (IH _ _ Hget)].
    destruct (IH _ _ Hc) as (md & Hmd & Hnd). simpl. rewrite Hmd.
    eexists. split; [reflexivity|]. simpl. now apply add_all_nodup.
  - unfold getConversation in Hget. simpl in Hget.
    destruct (string_dec cid k) as [<- | Hne].
    + now rewrite get_delete_same in Hget.
    + rewrite get_delete_other in Hget by exact Hne. exact (IH _ _ Hget).
  - discriminate.
Qed.

(** C7: on a manager built through the class's methods, appending an
    assistant message to an existing conversation succeeds, raises the
    query count by one and the cumulative latency by the latency of the
    attached response, and leaves in the set of tools exactly the former
    members and the agent names of the response's calls, without
    duplicates. *)
Theorem assistant_message_updates_metadata
        mgr cid c text (qr : Types.QueryResponse Params) newId stamp now :
  reachable Params mgr ->
  getConversation Params mgr cid = Some c ->
  exists mgr' message c' md md',
    addAssistantMessage Params cid text qr newId stamp now mgr = Ok (mgr', message)
    /\ getConversation Params mgr' cid = Some c'
    /\ metadata c = Some md
    /\ metadata c' = Some md'
    /\ totalQueries md' = (totalQueries md + 1)%Z
    /\ totalLatencyMs md' = (totalLatencyMs md + Types.latencyMs qr)%Z
    /\ (forall call, In call (Types.agentCalls qr) ->
                     In (Types.agent call) (agentsUsed md'))
    /\ (forall tool, In tool (agentsUsed md')
                     <-> In tool (agentsUsed md)
                         \/ In tool (map Types.agent (Types.agentCalls qr)))
    /\ NoDup (agentsUsed md').
Proof.
  intros Hreach Hget.
  destruct (reachable_has_metadata _ Hreach _ _ Hget) as (md & Hmd & Hnd).
  unfold addAssistantMessage. unfold getConversation in Hget. rewrite Hget.
  do 5 eexists. split; [reflexivity|].
  unfold getConversation. cbn [conversations with_conversations].
  rewrite get_set_same. split; [reflexivity|].
  split; [exact Hmd|]. cbn [metadata]. rewrite Hmd.
  split; [reflexivity|]. cbn [fold_turn totalQueries totalLatencyMs agentsUsed].
  split; [reflexivity|]. split; [reflexivity|].
  split; [|split].
  - intros call Hin. apply in_add_all. right. now apply in_map.
  - intros tool. apply in_add_all.
  - now apply add_all_nodup.
Qed.

Lemma generateTitle_short text :
  String.length text <= 50 -> generateTitle text = text.
Proof.
  intros H. unfold generateTitle. cbv zeta.
  apply Nat.leb_le in H. now rewrite H.
Qed.

Lemma generateTitle_long text :
  50 < String.length text ->
  generateTitle text = JS.substring0 47 text ++ "...".
Proof.
  intros H. unfold generateTitle. cbv zeta.
  apply Nat.leb_gt in H. now rewrite H.
Qed.

Lemma generateTitle_length text : String.length (generateTitle text) <= 50.
Proof.
  destruct (Nat.le_gt_cases (String.length text) 50) as [H | H].
  - now rewrite generateTitle_short.
  - rewrite generateTitle_long by exact H.
    rewrite string_app_length, substring0_length.
    change (String.length "...") with 3. lia.
Qed.

(** C8: when a conversation holds no user message yet, [addUserMessage]
    succeeds and replaces its title, whatever it was, by the title derived
    from the message: the message itself when it has at most 50 characters,
    otherwise its first 47 characters followed by three dots; the title
    never has more than 50 characters. *)
Theorem first_user_message_sets_title mgr cid c text newId stamp now :
  getConversation Params mgr cid = Some c ->
  filter (fun m => is_user (role m)) (messages c) = [] ->
  exists mgr' message c',
    addUserMessage Params cid text newId stamp now mgr = Ok (mgr', message)
    /\ getConversation Params mgr' cid = Some c'
    /\ title c' = generateTitle text
    /\ (String.length text <= 50 -> title c' = text)
    /\ (50 < String.length text -> title c' = JS.substring0 47 text ++ "...")
    /\ (50 < String.length text -> String.length (title c') = 50)
    /\ String.length (title c') <= 50.
Proof.
  intros Hget Hnone. unfold addUserMessage.
  unfold getConversation in Hget. rewrite Hget.
  do 3 eexists. split; [reflexivity|].
  unfold getConversation. cbn [conversations with_conversations].
  rewrite get_set_same. split; [reflexivity|]. cbn [title].
  rewrite filter_app, Hnone. cbn.
  split; [reflexivity|]. split; [apply generateTitle_short|].
  split; [apply generateTitle_long|]. split; [|apply generateTitle_length].
  intros H. rewrite generateTitle_long by exact H.
  rewrite string_app_length, substring0_length.
  change (String.length "...") with 3. lia.
Qed.

End StoreFacts.

(** ** Ordering by last update and eviction *)

Section EvictionFacts.
Import ConversationManager.
Variable Params : Type.
Implicit Types (mgr : Manager Params) (c d : Conversation Params).

Lemma insert_permutes c l :
  Permutation (c :: l) (insert_by_updated Params c l).
Proof.
  induction l as [|x l IH]; simpl; [apply Permutation_refl|].
  destruct (updatedAt x <=? updatedAt c)%Z; [apply Permutation_refl|].
  eapply perm_trans; [apply perm_swap | now apply perm_skip].
Qed.

Lemma sort_permutes l : Permutation l (sort_by_updated Params l).
Proof.
  induction l as [|x l IH]; simpl; [constructor|].
  eapply perm_trans; [apply perm_skip, IH | apply insert_permutes].
Qed.

Lemma insert_sorted c l :
  StronglySorted (not_older Params) l ->
  StronglySorted (not_older Params) (insert_by_updated Params c l).
Proof.
  induction 1 as [|x l Hs IH Hall]; simpl.
  - repeat constructor.
  - destruct (updatedAt x <=? updatedAt c)%Z eqn:E.
    + apply Z.leb_le in E. constructor; [now constructor|].
      constructor; [exact E|].
      eapply Forall_impl; [|exact Hall].
      intros y Hy. unfold not_older in *. lia.
    + apply Z.leb_gt in E. constructor; [exact IH|].
      rewrite Forall_forall in *. intros y Hy.
      apply (Permutation_in _ (Permutation_sym (insert_permutes c l))) in Hy.
      destruct Hy as [<- | Hy]; [unfold not_older; lia | auto].
Qed.

Lemma sort_sorted l : StronglySorted (not_older Params) (sort_by_updated Params l).
Proof.
  induction l as [|x l IH]; simpl; [constructor | now apply insert_sorted].
Qed.

Lemma sorted_app_order {A} (R : A -> A -> Prop) (front back : list A) :
  StronglySorted R (front ++ back) ->
  forall x y, In x front -> In y back -> R x y.
Proof.
  induction front as [|a front IH]; simpl; intros Hs x y Hx Hy; [contradiction|].
  inversion Hs as [|? ? Hs' Hall]; subst.
  destruct Hx as [<- | Hx]; [|now apply IH].
  rewrite Forall_forall in Hall. apply Hall, in_or_app. now right.
Qed.

Lemma skipn_last {A} (n : nat) (l : list A) :
  List.length l = S n ->
  exists z, skipn n l = [z] /\ l = (firstn n l ++ [z])%list.
Proof.
  revert l. induction n as [|n IH]; intros [|a l] Hlen; simpl in *; try discriminate.
  - destruct l; [|discriminate]. now exists a.
  - injection Hlen as Hlen. destruct (IH l Hlen) as (z & Hs & Hl).
    exists z. split; [exact Hs | now f_equal].
Qed.

(** The conversation that [cleanupOldConversations] removes from a store
    holding one entry too many is updated no later than any other. *)
Lemma overflow_victim (m : JS.Map (Conversation Params)) (n : nat) :
  JS.size m = S n ->
  exists d,
    JS.slice_from n (sort_by_updated Params (JS.values m)) = [d]
    /\ In d (JS.values m)
    /\ forall c, In c (JS.values m) -> not_older Params c d.
Proof.
  intros Hsize.
  pose proof (sort_permutes (JS.values m)) as Hperm.
  pose proof (sort_sorted (JS.values m)) as Hsorted.
  assert (Hlen : List.length (sort_by_updated Params (JS.values m)) = S n).
  { rewrite <- (Permutation_length Hperm). unfold JS.values.
    now rewrite length_map. }
  destruct (skipn_last _ _ Hlen) as (d & Hskip & Hsplit).
  exists d. split; [exact Hskip|].
  assert (Hd : In d (sort_by_updated Params (JS.values m))).
  { rewrite Hsplit. apply in_or_app. right. now left. }
  split; [exact (Permutation_in _ (Permutation_sym Hperm) Hd)|].
  intros c Hc. apply (Permutation_in _ Hperm) in Hc.
  rewrite Hsplit in Hc, Hsorted.
  apply in_app_or in Hc as [Hc | [<- | []]].
  - apply (sorted_app_order _ _ _ Hsorted); [exact Hc | now left].
  - unfold not_older. lia.
Qed.

Lemma tracks_new M : tracks Params M [] (new Params M).
Proof.
  constructor; simpl.
  - reflexivity.
  - constructor.
  - contradiction.
  - reflexivity.
  - contradiction.
Qed.

Lemma nodup_map_inj {A B} (f : A -> B) (l : list A) (a b : A) :
  NoDup (map f l) -> In a l -> In b l -> f a = f b -> a = b.
Proof.
  induction l as [|x l IH]; simpl; [contradiction|].
  intros Hnd Ha Hb E. inversion Hnd as [|? ? Hx Hl]; subst.
  destruct Ha as [-> | Ha], Hb as [-> | Hb]; auto.
  - exfalso. apply Hx. rewrite E. now apply in_map.
  - exfalso. apply Hx. rewrite <- E. now apply in_map.
Qed.

Lemma in_keys (m : JS.Map (Conversation Params)) k c :
  In (k, c) m -> In k (JS.keys m).
Proof. intros H. change k with (fst (k, c)). now apply in_map. Qed.

Lemma in_values (m : JS.Map (Conversation Params)) k c :
  In (k, c) m -> In c (JS.values m).
Proof. intros H. change c with (snd (k, c)). now apply in_map. Qed.

Lemma tracks_create M cs r mgr :
  NoDup (map fresh_id (cs ++ [r])) ->
  tracks Params M cs mgr ->
  tracks Params M (cs ++ [r]) (create Params mgr r).
Proof.
  intros Hids [Hmax Hnd Horigin Hsize Hevicted].
  assert (Hr : ~ In (fresh_id r) (map fresh_id cs)).
  { rewrite map_app in Hids. simpl in Hids.
    apply NoDup_remove_2 in Hids. now rewrite app_nil_r in Hids. }
  assert (Hcs : NoDup (map fresh_id cs)).
  { rewrite map_app in Hids. now apply NoDup_app_remove_r in Hids. }
  assert (Hsub : incl (JS.keys (conversations mgr)) (map fresh_id cs)).
  { intros k Hk. unfold JS.keys in Hk.
    apply in_map_iff in Hk as ([k' c] & <- & Hin).
    destruct (Horigin _ _ Hin) as (_ & r' & Hr' & <- & _). simpl. now apply in_map. }
  assert (Hfresh : JS.get (fresh_id r) (conversations mgr) = None).
  { apply get_none_iff. intros Hk. apply Hr, Hsub, Hk. }
  unfold create, createConversation. cbn [fst].
  set (conv := {| id := fresh_id r; title := _; messages := _;
                  createdAt := _; updatedAt := updated_at r; metadata := _ |}).
  cbn [conversations maxConversations with_conversations].
  rewrite (set_fresh _ _ conv Hfresh).
  set (m1 := (conversations mgr ++ [(fresh_id r, conv)])%list).
  assert (Hsize1 : JS.size m1 = S (JS.size (conversations mgr))).
  { unfold m1, JS.size. rewrite length_app. simpl. lia. }
  assert (Hnd1 : NoDup (JS.keys m1)).
  { unfold m1, JS.keys. rewrite map_app. simpl.
    apply NoDup_app; [exact Hnd | repeat constructor; auto |].
    intros k Hk [<- | []]. apply Hr, Hsub, Hk. }
  assert (Horigin1 : forall k c,
             In (k, c) m1 ->
             id c = k /\ exists r', In r' (cs ++ [r])
                                    /\ fresh_id r' = k /\ updated_at r' = updatedAt c).
  { intros k c Hin. unfold m1 in Hin. apply in_app_or in Hin as [Hin | [Hin | []]].
    - destruct (Horigin _ _ Hin) as (Hid & r' & Hr' & Hk & Hu).
      split; [exact Hid|]. exists r'. split; [apply in_or_app; now left | auto].
    - injection Hin as <- <-. split; [reflexivity|].
      exists r. split; [apply in_or_app; right; now left | auto]. }
  assert (Hnew : JS.get (fresh_id r) m1 = Some conv).
  { apply in_get; [exact Hnd1|]. unfold m1. apply in_or_app. right. now left. }
  assert (Hold : forall k, JS.get k m1 = None -> JS.get k (conversations mgr) = None).
  { intros k Hk. apply get_none_iff. apply get_none_iff in Hk.
    intros Hin. apply Hk. unfold m1, JS.keys. rewrite map_app.
    apply in_or_app. now left. }
  destruct (maxConversations mgr <? JS.size m1)%nat eqn:Hover.
  - (* one entry too many: the cleanup removes the oldest *)
    apply Nat.ltb_lt in Hover.
    assert (HM : JS.size m1 = S M) by lia.
    unfold cleanupOldConversations, listConversations.
    cbn [conversations maxConversations with_conversations].
    rewrite Hmax.
    destruct (overflow_victim m1 M HM) as (d & -> & Hd & Hleast).
    cbn [fold_left conversations maxConversations with_conversations].
    unfold JS.values in Hd. apply in_map_iff in Hd as ([kd d'] & Hdd & Hd).
    simpl in Hdd. subst d'.
    destruct (Horigin1 _ _ Hd) as (Hidd & rd & Hrd & Hrdk & Hrdu). subst kd.
    constructor; cbn [conversations maxConversations with_conversations].
    + exact Hmax.
    + now apply keys_delete_nodup.
    + intros k c Hin. apply in_delete in Hin as [Hin _]. now apply Horigin1.
    + assert (S (JS.size (JS.delete (id d) m1)) = JS.size m1).
      { apply size_delete_present; [exact Hnd1 | now apply in_keys in Hd]. }
      rewrite length_app. simpl. lia.
    + intros r' k c Hr' Hgone Hin.
      apply in_delete in Hin as [Hin Hk]. simpl in Hk.
      assert (Hdc : (updatedAt d <= updatedAt c)%Z).
      { apply (Hleast c). now apply in_values in Hin. }
      destruct (string_dec (fresh_id r') (id d)) as [E | Hne].
      * assert (r' = rd).
        { apply (nodup_map_inj fresh_id (cs ++ [r])); auto. congruence. }
        subst r'. lia.
      * rewrite get_delete_other in Hgone by congruence.
        assert (Hr'cs : In r' cs).
        { apply in_app_or in Hr' as [H | [<- | []]]; [exact H | congruence]. }
        apply Hold in Hgone as Hgone0.
        unfold m1 in Hin. apply in_app_or in Hin as [Hin | [Hin | []]].
        -- exact (Hevicted _ _ _ Hr'cs Hgone0 Hin).
        -- injection Hin as <- <-.
           assert (Hdold : In (id d, d) (conversations mgr)).
           { unfold m1 in Hd. apply in_app_or in Hd as [H | [H | []]]; [exact H|].
             injection H as H _. congruence. }
           pose proof (Hevicted _ _ _ Hr'cs Hgone0 Hdold). lia.
  - (* room left: nothing has been evicted so far *)
    apply Nat.ltb_ge in Hover.
    constructor; cbn [conversations maxConversations with_conversations]; auto.
    + rewrite Hsize1, Hsize, length_app. simpl. lia.
    + intros r' k c Hr' Hgone _. exfalso.
      apply in_app_or in Hr' as [Hr' | [<- | []]]; [|congruence].
      apply Hold in Hgone. apply get_none_iff in Hgone. apply Hgone.
      assert (Hfull : incl (map fresh_id cs) (JS.keys (conversations mgr))).
      { apply NoDup_length_incl; [exact Hnd | | exact Hsub].
        unfold JS.keys, JS.size in *. rewrite !length_map. lia. }
      apply Hfull. now apply in_map.
Qed.

Lemma tracks_create_all M cs :
  NoDup (map fresh_id cs) ->
  tracks Params M cs (create_all Params cs (new Params M)).
Proof.
  induction cs as [|r cs IH] using rev_ind; intros Hids; [apply tracks_new|].
  unfold create_all. rewrite fold_left_app. simpl.
  apply tracks_create; [exact Hids|]. apply IH.
  rewrite map_app in Hids. now apply NoDup_app_remove_r in Hids.
Qed.

End EvictionFacts.

Section CapacityFacts.
Import ConversationManager.
Variable Params : Type.

(** C6: take creations with pairwise distinct fresh identifiers on a new
    manager of capacity [M].  After each of them the store holds
    [min (number created) M] conversations, hence at most [M], and exactly
    [M] once more than [M] were created; every conversation held is one of
    those created; and every conversation created and no longer held was
    updated no later than every conversation held. *)
Theorem creation_keeps_most_recent (M : nat) (cs : list Creation) (n : nat) :
  NoDup (map fresh_id cs) ->
  let made := firstn n cs in
  let mgr := create_all Params made (new Params M) in
  JS.size (conversations mgr) = Nat.min (List.length made) M
  /\ JS.size (conversations mgr) <= M
  /\ (M < List.length made -> JS.size (conversations mgr) = M)
  /\ (forall c,
        In c (JS.values (conversations mgr)) ->
        getConversation Params mgr (id c) = Some c
        /\ exists r, In r made /\ fresh_id r = id c /\ updated_at r = updatedAt c)
  /\ (forall r c,
        In r made ->
        getConversation Params mgr (fresh_id r) = None ->
        In c (JS.values (conversations mgr)) ->
        (updated_at r <= updatedAt c)%Z).
Proof.
  intros Hids made mgr.
  assert (Hmade : NoDup (map fresh_id made)).
  { unfold made. rewrite <- (firstn_skipn n cs), map_app in Hids.
    now apply NoDup_app_remove_r in Hids. }
  destruct (tracks_create_all Params M made Hmade)
    as [Hmax Hnd Horigin Hsize Hevicted].
  fold mgr in Hmax, Hnd, Horigin, Hsize, Hevicted.
  split; [exact Hsize|]. split; [lia|]. split; [lia|]. split.
  - intros c Hc. unfold JS.values in Hc.
    apply in_map_iff in Hc as ([k c'] & Hcc & Hin). simpl in Hcc. subst c'.
    destruct (Horigin _ _ Hin) as (Hid & r & Hr & Hk & Hu). subst k.
    split; [apply in_get; [exact Hnd | exact Hin] |].
    exists r. auto.
  - intros r c Hr Hgone Hc. unfold JS.values in Hc.
    apply in_map_iff in Hc as ([k c'] & Hcc & Hin). simpl in Hcc. subst c'.
    exact (Hevicted _ _ _ Hr Hgone Hin).
Qed.

End CapacityFacts.

Lemma creation_keeps_most_recent_witness :
  let cs := [ {| ConversationManager.given_title := None;
                 ConversationManager.fresh_id := "1700000000000-abc1234";
                 ConversationManager.created_at := 1700000000000;
                 ConversationManager.updated_at := 1700000000000 |};
              {| ConversationManager.given_title := Some "Weather";
                 ConversationManager.fresh_id := "1700000000005-xyz9876";
                 ConversationManager.created_at := 1700000000005;
                 ConversationManager.updated_at := 1700000000005 |} ] in
  NoDup (map ConversationManager.fresh_id cs)
  /\ JS.size (ConversationManager.conversations
                (ConversationManager.create_all unit (firstn 2 cs)
                   (ConversationManager.new unit 1))) = 1.
Proof.
  intros cs.
  assert (Hids : NoDup (map ConversationManager.fresh_id cs)).
  { simpl. constructor.
    - simpl. intros [H | []]. discriminate.
    - constructor; [simpl; tauto | constructor]. }
  split; [exact Hids|].
  destruct (creation_keeps_most_recent unit 1 cs 2 Hids) as (H & _).
  exact H.
Defined.

(** Two creations within the same millisecond on a full store: the sort is
    stable, so the conversation just created is the one removed. *)
Example same_millisecond_creation :
  JS.keys
    (ConversationManager.conversations
       (ConversationManager.create_all unit
          [ {| ConversationManager.given_title := None;
               ConversationManager.fresh_id := "first";
               ConversationManager.created_at := 5;
               ConversationManager.updated_at := 5 |};
            {| ConversationManager.given_title := None;
               ConversationManager.fresh_id := "second";
               ConversationManager.created_at := 5;
               ConversationManager.updated_at := 5 |} ]
          (ConversationManager.new unit 1)))
  = ["first"].
Proof. reflexivity. Qed.

Lemma assistant_message_updates_metadata_witness :
  let created :=
    ConversationManager.createConversation unit None "c1" 10 10
      (ConversationManager.new unit 100) in
  let qr := {| Types.query := "q"; Types.thoughts := [];
               Types.agentCalls :=
                 [ {| Types.agent := "get_weather"; Types.params := tt;
                      Types.response := "sunny" |} ];
               Types.answer := "a"; Types.latencyMs := 1200 |} in
  exists mgr' message c' md',
    ConversationManager.addAssistantMessage unit "c1" "a" qr "m1" 20 20 (fst created)
    = Ok (mgr', message)
    /\ ConversationManager.getConversation unit mgr' "c1" = Some c'
    /\ ConversationManager.metadata c' = Some md'
    /\ ConversationManager.totalQueries md' = 1%Z
    /\ ConversationManager.totalLatencyMs md' = 1200%Z
    /\ In "get_weather" (ConversationManager.agentsUsed md').
Proof.
  intros created qr.
  assert (Hreach : ConversationManager.reachable unit (fst created)).
  { apply ConversationManager.reach_create, ConversationManager.reach_new. }
  destruct (assistant_message_updates_metadata unit (fst created) "c1" (snd created)
              "a" qr "m1" 20%Z 20%Z Hreach eq_refl)
    as (mgr' & message & c' & md & md' & Hadd & Hget & Hmd & Hmd' & Hq & Hl & Hin & _).
  exists mgr', message, c', md'.
  injection Hmd as <-.
  repeat split; try assumption.
  apply (Hin {| Types.agent := "get_weather"; Types.params := tt;
                Types.response := "sunny" |}).
  now left.
Defined.

Lemma first_user_message_sets_title_witness :
  let created :=
    ConversationManager.createConversation unit (Some "My title") "c1" 10 10
      (ConversationManager.new unit 100) in
  let text := "What is the population of the capital of Japan, roughly?" in
  exists mgr' message c',
    ConversationManager.addUserMessage unit "c1" text "m1" 20 20 (fst created)
    = Ok (mgr', message)
    /\ ConversationManager.getConversation unit mgr' "c1" = Some c'
    /\ ConversationManager.title c'
       = "What is the population of the capital of Japan,...".
Proof.
  intros created text.
  destruct (first_user_message_sets_title unit (fst created) "c1" (snd created)
              text "m1" 20%Z 20%Z eq_refl eq_refl)
    as (mgr' & message & c' & Hadd & Hget & Htitle & _).
  exists mgr', message, c'. repeat split; assumption.
Defined.

(** ** Traces *)

Section TraceFacts.
Import Data Effects.
Local Open Scope list_scope.


Lemma gets_only_fed_back new : gets_only new -> Spec.fed_back new = [].
Proof.
  induction 1 as [|e new He _ IH]; simpl; [reflexivity|].
  destruct e as [message|req]; [discriminate | exact IH].
Qed.


Lemma http_calls_app (a b : Trace) :
  http_calls (a ++ b) = http_calls a + http_calls b.
Proof. unfold http_calls. now rewrite filter_app, length_app. Qed.

Lemma fed_back_app (a b : Trace) :
  Spec.fed_back (a ++ b) = (Spec.fed_back a ++ Spec.fed_back b)%list.
Proof. unfold Spec.fed_back. now rewrite flat_map_app. Qed.

Lemma successes_app (a b : list FunctionResponse) :
  Spec.successes (a ++ b) = (Spec.successes a ++ Spec.successes b)%list.
Proof. unfold Spec.successes. now rewrite flat_map_app. Qed.

Lemma quiet_ret {A} (a : A) : quiet (ret a).
Proof. intros t. exists []. split; [reflexivity | constructor]. Qed.

Lemma quiet_throw {A} (message : string) : quiet (@throw A message).
Proof. intros t. exists []. split; [reflexivity | constructor]. Qed.

Lemma quiet_lift {A} (r : Result A) : quiet (lift r).
Proof. intros t. exists []. split; [reflexivity | constructor]. Qed.

Lemma quiet_history : quiet history.
Proof. intros t. exists []. split; [reflexivity | constructor]. Qed.

Lemma quiet_get {R} (reply : Trace -> Http.Request -> R) (req : Http.Request) :
  quiet (get reply req).
Proof.
  intros t. exists [HttpGet req]. split; [reflexivity|].
  constructor; [reflexivity | constructor].
Qed.

Lemma quiet_bind {A B} (m : M A) (k : A -> M B) :
  quiet m -> (forall a, quiet (k a)) -> quiet (bind m k).
Proof.
  intros Hm Hk t. unfold bind.
  destruct (Hm t) as (new1 & E1 & G1).
  destruct (m t) as [[a|message] t1]; simpl in E1; subst t1.
  - destruct (Hk a (new1 ++ t)%list) as (new2 & E2 & G2).
    exists (new2 ++ new1)%list. rewrite E2, app_assoc.
    split; [reflexivity | now apply Forall_app].
  - now exists new1.
Qed.

Lemma quiet_try_catch {A} (m : M A) (handler : string -> M A) :
  quiet m -> (forall message, quiet (handler message)) -> quiet (try_catch m handler).
Proof.
  intros Hm Hh t. unfold try_catch.
  destruct (Hm t) as (new1 & E1 & G1).
  destruct (m t) as [[a|message] t1]; simpl in E1; subst t1.
  - now exists new1.
  - destruct (Hh message (new1 ++ t)%list) as (new2 & E2 & G2).
    exists (new2 ++ new1)%list. rewrite E2, app_assoc.
    split; [reflexivity | now apply Forall_app].
Qed.

Lemma quiet_mapM {A B} (f : A -> M B) (l : list A) :
  (forall x, quiet (f x)) -> quiet (mapM f l).
Proof.
  intros Hf. induction l as [|x l IH]; simpl; [apply quiet_ret|].
  apply quiet_bind; [apply Hf|]. intros y.
  apply quiet_bind; [exact IH|]. intros ys. apply quiet_ret.
Qed.

End TraceFacts.

Create HintDb quiet.
#[local] Hint Resolve quiet_ret quiet_throw quiet_lift quiet_history quiet_get : quiet.

(** ** The agents *)

Section AgentFacts.
Import Data Effects.
Variable rt : Runtime.
Variable w : World rt.

Lemma quiet_wikidata v : quiet (WikidataAgent.execute rt w v).
Proof.
  unfold WikidataAgent.execute. destruct v; auto with quiet.
  destruct (negb _); auto with quiet.
  apply quiet_bind; auto with quiet. intros [data|status message]; auto with quiet.
Qed.

Lemma quiet_wikipedia v : quiet (WikipediaAgent.execute rt w v).
Proof.
  unfold WikipediaAgent.execute. destruct v; auto with quiet.
  apply quiet_bind; auto with quiet. intros [data|status message]; auto with quiet.
  destruct (WikipediaAgent.is_404 status); auto with quiet.
Qed.

Lemma quiet_nominatim v : quiet (NominatimAgent.geocode rt w v).
Proof.
  unfold NominatimAgent.geocode.
  apply quiet_bind; auto with quiet. intros [ok statusText json|message]; auto with quiet.
  destruct (negb ok); auto with quiet.
Qed.

Lemma quiet_openmeteo lat lon forecast :
  quiet (OpenMeteoAgent.getWeather rt w lat lon forecast).
Proof.
  unfold OpenMeteoAgent.getWeather.
  apply quiet_bind; auto with quiet. intros [ok statusText json|message]; auto with quiet.
  destruct (negb ok); auto with quiet.
Qed.

(** C9: a Wikidata result without bindings and an empty list of geocoding
    candidates are rendered as fixed no-result texts (the formatting
    functions are total, so nothing is thrown); a 404 from the Wikipedia
    service makes [execute] throw, after its one GET, the not-found error,
    whose message includes the term and differs from that of every other
    request failure; and a failure with any other status, or with none (a
    timeout, a refused connection), is never reported as not found. *)
Theorem empty_and_missing_results :
  (forall results,
      bindings results = [] ->
      WikidataAgent.formatResults rt results = "No results found.")
  /\ NominatimAgent.formatResults [] = "No locations found."
  /\ (forall term message t,
        wikipedia_reply w t (WikipediaAgent.request rt term)
        = Http.AxiosFailure (Some 404%Z) message ->
        WikipediaAgent.execute rt w (VString term) t
        = (Throw (WikipediaAgent.not_found term),
           HttpGet (WikipediaAgent.request rt term) :: t))
  /\ (forall term, JS.includes (WikipediaAgent.not_found term) term = true)
  /\ (forall term message,
        WikipediaAgent.not_found term <> WikipediaAgent.request_failed message)
  /\ (forall term status message t,
        wikipedia_reply w t (WikipediaAgent.request rt term)
        = Http.AxiosFailure status message ->
        status <> Some 404%Z ->
        WikipediaAgent.execute rt w (VString term) t
        = (Throw (WikipediaAgent.request_failed message),
           HttpGet (WikipediaAgent.request rt term) :: t)).
Proof.
  split; [|split; [|split; [|split; [|split]]]].
  - intros results H. unfold WikidataAgent.formatResults. now rewrite H.
  - reflexivity.
  - intros term message t H.
    unfold WikipediaAgent.execute, bind, get. now rewrite H.
  - intros term. apply includes_iff.
    exists ("Wikipedia article not found for: " ++ dquote), dquote. reflexivity.
  - intros term message H. unfold WikipediaAgent.not_found,
      WikipediaAgent.request_failed in H. simpl in H. discriminate H.
  - intros term status message t H Hs.
    assert (Hnot : WikipediaAgent.is_404 status = false).
    { destruct status as [code|]; [|reflexivity]. simpl.
      destruct (Z.eqb_spec code 404) as [->|]; [now elim Hs | reflexivity]. }
    unfold WikipediaAgent.execute, bind, get. now rewrite H, Hnot.
Qed.

(** C5 against the code: the GETs of the Wikidata and Wikipedia agents
    carry timeouts of 10000 and 8000 milliseconds; those of the Nominatim
    and Open-Meteo agents carry none. *)
Theorem agent_timeouts :
  (forall sparqlQuery,
      Http.timeout (WikidataAgent.request sparqlQuery) = Some 10000%Z)
  /\ (forall term,
        Http.timeout (WikipediaAgent.request rt term) = Some 8000%Z)
  /\ (forall query,
        Http.timeout (NominatimAgent.request rt query) = None)
  /\ (forall latitude longitude includeForecast,
        Http.timeout (OpenMeteoAgent.request rt latitude longitude includeForecast)
        = None)
  /\ NominatimAgent.geocode rt w (VString "Rome, Italy") []
     = (match nominatim_reply w [] (NominatimAgent.request rt (VString "Rome, Italy")) with
        | Http.FetchFailure message => Throw message
        | Http.FetchResponse ok statusText json =>
            if negb ok then Throw ("Nominatim API error: " ++ statusText) else json
        end,
        [HttpGet (NominatimAgent.request rt (VString "Rome, Italy"))]).
Proof.
  repeat split.
  unfold NominatimAgent.geocode, bind, get.
  destruct (nominatim_reply w [] _) as [ok statusText json|message]; [|reflexivity].
  destruct ok; reflexivity.
Qed.

(** Each agent issues at most one GET per call. *)
Lemma agents_single_get (t : Trace) :
  (forall v, http_calls (snd (WikidataAgent.execute rt w v t)) <= S (http_calls t))
  /\ (forall v, http_calls (snd (WikipediaAgent.execute rt w v t)) <= S (http_calls t))
  /\ (forall v, http_calls (snd (NominatimAgent.geocode rt w v t)) = S (http_calls t))
  /\ (forall lat lon forecast,
        http_calls (snd (OpenMeteoAgent.getWeather rt w lat lon forecast t))
        = S (http_calls t)).
Proof.
  split; [|split; [|split]].
  - intros v. unfold WikidataAgent.execute.
    destruct v; simpl; try lia.
    destruct (negb _); simpl; [lia|].
    unfold bind, get. destruct (wikidata_reply w t _); simpl; unfold http_calls; simpl; lia.
  - intros v. unfold WikipediaAgent.execute.
    destruct v; simpl; try lia.
    unfold bind, get. destruct (wikipedia_reply w t _) as [data|status message].
    + unfold http_calls; simpl; lia.
    + destruct (WikipediaAgent.is_404 status); unfold http_calls; simpl; lia.
  - intros v. unfold NominatimAgent.geocode, bind, get.
    destruct (nominatim_reply w t _) as [ok statusText json|message]; [|reflexivity].
    destruct ok; reflexivity.
  - intros lat lon forecast. unfold OpenMeteoAgent.getWeather, bind, get.
    destruct (openmeteo_reply w t _) as [ok statusText json|message]; [|reflexivity].
    destruct ok; reflexivity.
Qed.

End AgentFacts.

(** ** The orchestration loop: one turn *)

Section TurnFacts.
Import Data Effects GeminiOrchestrator.
Local Open Scope list_scope.
Variable rt : Runtime.
Variable w : World rt.

(** The callback never throws: it turns either outcome into a response. *)
Lemma invoke_outcome (call : Call rt) (t : Trace) :
  invoke rt w call t
  = (Ok (outcome_of rt call (fst (dispatch rt w call t))),
     snd (dispatch rt w call t)).
Proof.
  unfold invoke, try_catch, bind, ret.
  destruct (dispatch rt w call t) as [[text|message] t']; reflexivity.
Qed.

Lemma quiet_dispatch (call : Call rt) : quiet (dispatch rt w call).
Proof.
  unfold dispatch.
  destruct (String.eqb (name call) "query_wikidata").
  { apply quiet_bind; [apply quiet_wikidata | auto with quiet]. }
  destruct (String.eqb (name call) "get_wikipedia_summary").
  { apply quiet_bind; [apply quiet_wikipedia | auto with quiet]. }
  destruct (String.eqb (name call) "geocode_location").
  { apply quiet_bind; [apply quiet_nominatim | auto with quiet]. }
  destruct (String.eqb (name call) "get_weather").
  { apply quiet_bind; [apply quiet_openmeteo | auto with quiet]. }
  auto with quiet.
Qed.

Lemma mapM_invoke (calls : list (Call rt)) (t : Trace) :
  exists outcomes new,
    mapM (invoke rt w) calls t = (Ok outcomes, new ++ t)
    /\ gets_only new
    /\ Forall2 (answers_call rt w) calls outcomes.
Proof.
  revert t. induction calls as [|call calls IH]; intros t.
  - exists [], []. repeat split; constructor.
  - cbn [mapM]. unfold bind at 1. rewrite invoke_outcome.
    destruct (quiet_dispatch call t) as (new1 & E1 & G1). rewrite E1.
    destruct (IH (new1 ++ t)) as (outcomes & new2 & E2 & G2 & F2).
    unfold bind at 1. rewrite E2. cbn [ret].
    exists (outcome_of rt call (fst (dispatch rt w call t)) :: outcomes), (new2 ++ new1).
    rewrite app_assoc. split; [reflexivity|].
    split; [now apply Forall_app|].
    constructor; [now exists t | exact F2].
Qed.

Lemma outcomes_names calls outcomes :
  Forall2 (answers_call rt w) calls outcomes ->
  map fr_name (map fst outcomes) = map name calls.
Proof.
  induction 1 as [|call o calls outcomes [before ->] _ IH]; simpl; [reflexivity|].
  rewrite IH. f_equal. now destruct (fst (dispatch rt w call before)).
Qed.

Lemma outcomes_pushed calls outcomes :
  Forall2 (answers_call rt w) calls outcomes ->
  map (entry_key rt) (pushed rt outcomes) = Spec.successes (map fst outcomes)
  /\ Forall (from_success rt w) (pushed rt outcomes).
Proof.
  induction 1 as [|call o calls outcomes [before ->] _ [IHk IHs]]; simpl.
  - split; [reflexivity | constructor].
  - unfold pushed, Spec.successes in *. simpl.
    destruct (fst (dispatch rt w call before)) as [text|message] eqn:E; simpl.
    + rewrite IHk. split; [reflexivity|]. constructor; [|exact IHs].
      exists call, before. simpl. auto.
    + auto.
Qed.

Lemma outcomes_answers calls outcomes :
  Forall2 (answers_call rt w) calls outcomes ->
  Forall2 (fun call response =>
             fr_name response = name call
             /\ exists before,
                  match fst (dispatch rt w call before) with
                  | Ok text => fr_response response = tool_result text
                  | Throw message => fr_response response = tool_error message
                  end)
          calls (map fst outcomes).
Proof.
  induction 1 as [|call o calls outcomes [before ->] _ IH]; simpl; constructor;
    [|exact IH].
  split.
  - now destruct (fst (dispatch rt w call before)).
  - exists before. now destruct (fst (dispatch rt w call before)).
Qed.

(** The fan-out of one turn: it returns, whatever the invocations do. *)
Lemma invokeAll_returns (calls : list (Call rt)) (t : Trace) :
  exists outcomes new,
    invokeAll rt w calls t
    = (Ok (map fst outcomes, completion w t (pushed rt outcomes)), new ++ t)
    /\ gets_only new
    /\ Forall2 (answers_call rt w) calls outcomes.
Proof.
  destruct (mapM_invoke calls t) as (outcomes & new & E & G & F).
  exists outcomes, new. split; [|auto].
  unfold invokeAll, bind, history, ret. now rewrite E.
Qed.

(** The three ways through the loop body. *)
Lemma turn_body_calls userQuery h startTime response thoughts
      (agentCalls : list (Entry rt)) call calls t :
  functionCalls response = Ok (Some (call :: calls)) ->
  turn_body rt w userQuery h startTime response thoughts agentCalls t
  = match invokeAll rt w (call :: calls) t with
    | (Ok done, t1) =>
        (match chat_reply w h t1 (ToolResults (fst done)) with
         | Ok next =>
             Ok (Continue rt next (thoughts ++ extract_thoughts rt response)
                          (agentCalls ++ snd done))
         | Throw message => Throw message
         end,
         ChatSend (ToolResults (fst done)) :: t1)
    | (Throw message, t1) => (Throw message, t1)
    end.
Proof.
  intros H. unfold turn_body, bind, lift, sendMessage, ret. rewrite H.
  destruct (invokeAll rt w (call :: calls) t) as [[done|message] t1]; [|reflexivity].
  destruct (chat_reply w h t1 (ToolResults (fst done))); reflexivity.
Qed.

Lemma turn_body_final userQuery h startTime response thoughts
      (agentCalls : list (Entry rt)) t :
  functionCalls response = Ok None \/ functionCalls response = Ok (Some []) ->
  turn_body rt w userQuery h startTime response thoughts agentCalls t
  = (match response_text response with
     | Ok finalText =>
         Ok (Return rt {| Types.query := userQuery;
                          Types.thoughts := thoughts ++ extract_thoughts rt response;
                          Types.agentCalls := agentCalls;
                          Types.answer := finalText;
                          Types.latencyMs := now w t - startTime |})
     | Throw message => Throw message
     end, t).
Proof.
  intros [H | H]; unfold turn_body, bind, lift, date_now, ret; rewrite H;
    destruct (response_text response); reflexivity.
Qed.

Lemma turn_body_throws userQuery h startTime response thoughts
      (agentCalls : list (Entry rt)) t message :
  functionCalls response = Throw message ->
  turn_body rt w userQuery h startTime response thoughts agentCalls t
  = (Throw message, t).
Proof. intros H. unfold turn_body, bind, lift. now rewrite H. Qed.

(** C2: in a turn whose model reply requests the invocations [calls], all
    of them are dispatched and the fan-out returns one response per
    invocation, in the order of the invocations and under their names; the
    response of an invocation carries the text its dispatch returned, or,
    tagged as an error, the message its dispatch threw.  The responses are
    then sent to the chat, and the turn ends in the model's next reply
    unless that send itself fails. *)
Theorem every_invocation_answered
        (userQuery : string) (h : History) (startTime : Z)
        (response : ModelResponse (Num rt))
        (thoughts : list string) (agentCalls : list (Entry rt))
        (calls : list (Call rt)) (t : Trace) :
  functionCalls response = Ok (Some calls) ->
  1 <= List.length calls ->
  exists responses entries t',
    invokeAll rt w calls t = (Ok (responses, entries), t')
    /\ List.length responses = List.length calls
    /\ map fr_name responses = map name calls
    /\ Forall2 (fun call answer =>
                  fr_name answer = name call
                  /\ exists before,
                       match fst (dispatch rt w call before) with
                       | Ok text => fr_response answer = tool_result text
                       | Throw message => fr_response answer = tool_error message
                       end)
               calls responses
    /\ snd (turn_body rt w userQuery h startTime response thoughts agentCalls t)
       = ChatSend (ToolResults responses) :: t'
    /\ fst (turn_body rt w userQuery h startTime response thoughts agentCalls t)
       = match chat_reply w h t' (ToolResults responses) with
         | Ok next =>
             Ok (Continue rt next (thoughts ++ extract_thoughts rt response)
                          (agentCalls ++ entries))
         | Throw message => Throw message
         end.
Proof.
  intros Hcalls Hlen.
  destruct (invokeAll_returns calls t) as (outcomes & new & E & G & F).
  exists (map fst outcomes), (completion w t (pushed rt outcomes)), (new ++ t).
  split; [exact E|].
  pose proof (outcomes_names _ _ F) as Hnames.
  split; [|split; [exact Hnames|split; [now apply outcomes_answers|]]].
  { rewrite <- (length_map fr_name), Hnames. apply length_map. }
  destruct calls as [|call calls]; [simpl in Hlen; lia|].
  rewrite (turn_body_calls _ _ _ _ _ _ _ _ _ Hcalls).
  unfold Call in *. rewrite E. cbn [fst snd].
  split; reflexivity.
Qed.

End TurnFacts.

(** ** The orchestration loop: all turns *)

Section LoopFacts.
Import Data Effects GeminiOrchestrator.
Local Open Scope list_scope.
Variable rt : Runtime.
Variable w : World rt.

Lemma turns_unfold fuel userQuery h startTime turn response thoughts
      (agentCalls : list (Entry rt)) t :
  turns rt w (S fuel) userQuery h startTime turn response thoughts agentCalls t
  = match turn_body rt w userQuery h startTime response thoughts agentCalls t with
    | (Ok (Return _ r), t1) => (Ok (Some r), t1)
    | (Ok (Continue _ response' thoughts' agentCalls'), t1) =>
        if (10 <? turn + 1)%nat
        then (Ok (Some (incomplete rt w userQuery startTime thoughts' agentCalls' t1)), t1)
        else turns rt w fuel userQuery h startTime (turn + 1)
                   response' thoughts' agentCalls' t1
    | (Throw message, t1) => (Throw message, t1)
    end.
Proof.
  cbn [turns]. unfold bind at 1.
  destruct (turn_body rt w userQuery h startTime response thoughts agentCalls t)
    as [[[r|response' thoughts' agentCalls']|message] t1]; try reflexivity.
  destruct (10 <? turn + 1)%nat; reflexivity.
Qed.

(** The three shapes of a model reply. *)
Lemma reply_cases (response : ModelResponse (Num rt)) :
  (exists message, functionCalls response = Throw message)
  \/ (functionCalls response = Ok None \/ functionCalls response = Ok (Some []))
  \/ (exists call calls, functionCalls response = Ok (Some (call :: calls))).
Proof.
  destruct (functionCalls response) as [[[|call calls]|]|message]; eauto.
Qed.

(** The entries of the returned record, turn after turn. *)
Lemma turns_entries fuel :
  forall userQuery h startTime turn response thoughts (acc : list (Entry rt)) t r t',
    turns rt w fuel userQuery h startTime turn response thoughts acc t
    = (Ok (Some r), t') ->
    Forall (from_success rt w) acc ->
    exists new,
      t' = new ++ t
      /\ Forall (from_success rt w) (Types.agentCalls r)
      /\ Permutation (map (entry_key rt) (Types.agentCalls r))
                     (map (entry_key rt) acc ++ Spec.successes (Spec.fed_back new)).
Proof.
  induction fuel as [|fuel IH];
    intros userQuery h startTime turn response thoughts acc t r t' Hrun Hacc.
  - discriminate.
  - rewrite turns_unfold in Hrun.
    destruct (reply_cases response) as [[message Hf] | [Hf | (call & calls & Hf)]].
    + rewrite (turn_body_throws _ _ _ _ _ _ _ _ _ _ Hf) in Hrun. discriminate.
    + rewrite (turn_body_final _ _ _ _ _ _ _ _ _ Hf) in Hrun.
      destruct (response_text response); [|discriminate].
      injection Hrun as <- <-. exists []. simpl. rewrite app_nil_r.
      repeat split; auto.
    + rewrite (turn_body_calls _ _ _ _ _ _ _ _ _ _ _ Hf) in Hrun.
      destruct (invokeAll_returns rt w (call :: calls) t) as (outcomes & new1 & E & G & F).
      unfold Call in *. rewrite E in Hrun. cbn [fst snd] in Hrun.
      destruct (outcomes_pushed rt w _ _ F) as [Hkeys Hsucc].
      set (entries := completion w t (pushed rt outcomes)) in *.
      assert (Hperm : Permutation (pushed rt outcomes) entries)
        by apply completion_permutes.
      assert (Hacc' : Forall (from_success rt w) (acc ++ entries)).
      { apply Forall_app. split; [exact Hacc|].
        rewrite Forall_forall in *. intros e He. apply Hsucc.
        now apply (Permutation_in _ (Permutation_sym Hperm)). }
      assert (Hk : Permutation (map (entry_key rt) entries)
                               (Spec.successes (map fst outcomes))).
      { rewrite <- Hkeys. apply Permutation_map. now apply Permutation_sym. }
      destruct (chat_reply w h (new1 ++ t) (ToolResults (map fst outcomes)))
        as [next|message]; [|discriminate].
      destruct (10 <? turn + 1)%nat.
      * injection Hrun as <- <-.
        exists (ChatSend (ToolResults (map fst outcomes)) :: new1).
        split; [reflexivity|]. split; [exact Hacc'|].
        cbn [incomplete Types.agentCalls Spec.fed_back flat_map].
        fold (Spec.fed_back new1). rewrite (gets_only_fed_back _ G), app_nil_r.
        rewrite map_app. now apply Permutation_app_head.
      * destruct (IH _ _ _ _ _ _ _ _ _ _ Hrun Hacc') as (new2 & -> & Hall & Hp).
        exists (new2 ++ ChatSend (ToolResults (map fst outcomes)) :: new1).
        split; [now rewrite <- app_assoc|]. split; [exact Hall|].
        eapply perm_trans; [exact Hp|].
        rewrite fed_back_app, successes_app, map_app.
        cbn [Spec.fed_back flat_map]. fold (Spec.fed_back new1).
        rewrite (gets_only_fed_back _ G), app_nil_r, <- app_assoc.
        apply Permutation_app_head.
        eapply perm_trans; [apply Permutation_app_comm|].
        now apply Permutation_app_head.
Qed.

(** C10: the entries of the returned [agentCalls] are, up to the order in
    which invocations completed, the name and text of exactly the
    responses sent back to the model that carry a result; each entry
    records an invocation whose dispatch returned that text; and an
    invocation whose dispatch throws gets an error response and no entry. *)
Theorem agent_calls_are_the_successes
        (fuel : nat) (userQuery : string) (conversationHistory : option History)
        (t : Trace) (r : Response rt) (t' : Trace) :
  executeQuery rt w fuel userQuery conversationHistory t = (Ok (Some r), t') ->
  (exists new,
      t' = new ++ t
      /\ Permutation (map (entry_key rt) (Types.agentCalls r))
                     (Spec.successes (Spec.fed_back new)))
  /\ Forall (from_success rt w) (Types.agentCalls r)
  /\ (forall call before message,
        fst (dispatch rt w call before) = Throw message ->
        fst (invoke rt w call before)
        = Ok ({| fr_name := name call; fr_response := tool_error message |}, None)).
Proof.
  intros Hrun. unfold executeQuery, bind, date_now, sendMessage in Hrun.
  set (h := match conversationHistory with Some h => h | None => [] end) in *.
  destruct (chat_reply w h t (UserText userQuery)) as [response|message];
    [|discriminate].
  destruct (turns_entries _ _ _ _ _ _ _ _ _ _ _ Hrun (Forall_nil _))
    as (new & -> & Hall & Hp).
  split; [|split; [exact Hall|]].
  - exists (new ++ [ChatSend (UserText userQuery)]).
    split; [now rewrite <- app_assoc|].
    rewrite fed_back_app. simpl. now rewrite app_nil_r.
  - intros call before message H. rewrite invoke_outcome. simpl. now rewrite H.
Qed.



End LoopFacts.

(** ** The loop on concrete worlds *)

(** C1 against the code: a model that requests one tool in each of its first
    ten replies.  The check [turn > 10] comes after the send that closes the
    tenth pass, so an eleventh message goes to the chat; the reply to it is a
    final answer, which is never read, and the record returned is the
    incomplete one. *)
Theorem eleventh_message_sent :
  Effects.chat_calls
    (snd (GeminiOrchestrator.executeQuery Sample.runtime
            (Sample.world Sample.persistent_model) 10 "Where is Rome?" None []))
  = 11
  /\ match snd (GeminiOrchestrator.executeQuery Sample.runtime
                  (Sample.world Sample.persistent_model) 10 "Where is Rome?" None []) with
     | Effects.ChatSend last :: before =>
         Effects.chat_calls before = 10
         /\ Effects.chat_reply (Sample.world Sample.persistent_model) [] before last
            = Ok (Sample.answers "Rome is at 41.9 N, 12.5 E.")
     | _ => False
     end
  /\ match fst (GeminiOrchestrator.executeQuery Sample.runtime
                  (Sample.world Sample.persistent_model) 10 "Where is Rome?" None []) with
     | Ok (Some r) =>
         Types.answer r = "Query processing incomplete"
         /\ List.length (Types.agentCalls r) = 10
     | _ => False
     end.
Proof. vm_compute. repeat split. Qed.

Lemma every_invocation_answered_witness :
  Data.functionCalls (Sample.asks [Sample.summary_tokyo; Sample.geocode_rome])
  = Ok (Some [Sample.summary_tokyo; Sample.geocode_rome])
  /\ 1 <= List.length [Sample.summary_tokyo; Sample.geocode_rome]
  /\ exists responses entries t',
       GeminiOrchestrator.invokeAll Sample.runtime (Sample.world Sample.two_tool_model)
         [Sample.summary_tokyo; Sample.geocode_rome] []
       = (Ok (responses, entries), t')
       /\ List.length responses = 2
       /\ map Data.fr_name responses = ["get_wikipedia_summary"; "geocode_location"].
Proof.
  split; [reflexivity|]. split; [simpl; lia|].
  destruct (every_invocation_answered Sample.runtime (Sample.world Sample.two_tool_model)
              "Tokyo and Rome" [] 0%Z
              (Sample.asks [Sample.summary_tokyo; Sample.geocode_rome]) [] []
              [Sample.summary_tokyo; Sample.geocode_rome] [] eq_refl
              (le_S 1 1 (le_n 1)))
    as (responses & entries & t' & Hrun & Hlen & Hnames & _).
  exists responses, entries, t'. repeat split; assumption.
Defined.

Lemma agent_calls_are_the_successes_witness :
  exists r t',
    GeminiOrchestrator.executeQuery Sample.runtime (Sample.world Sample.two_tool_model)
      10 "Tokyo and Rome" None []
    = (Ok (Some r), t')
    /\ Permutation (map (entry_key Sample.runtime) (Types.agentCalls r))
                   [("geocode_location", "No locations found.")].
Proof.
  eexists. eexists. split; [vm_compute; reflexivity|].
  destruct (agent_calls_are_the_successes Sample.runtime
              (Sample.world Sample.two_tool_model) 10 "Tokyo and Rome" None []
              _ _ eq_refl) as ((new & Hnew & Hperm) & _).
  rewrite app_nil_r in Hnew. subst new. exact Hperm.
Defined.

(* ================================================================== *)
(** * Part II, continued: the rest of the store *)
(* ================================================================== *)

Section StoreInvariantFacts.
Import ConversationManager.
Variable Params : Type.
Implicit Types (mgr : Manager Params) (c : Conversation Params)
         (m : JS.Map (Conversation Params)).

Lemma in_set m k0 v k c :
  In (k, c) (JS.set k0 v m) -> (k = k0 /\ c = v) \/ In (k, c) m.
Proof.
  induction m as [|[k1 v1] m IH]; simpl.
  - intros [H | []]. injection H as <- <-. now left.
  - destruct (String.eqb k1 k0); simpl.
    + intros [H | H]; [injection H as <- <-; now left | right; now right].
    + intros [H | H]; [right; now left|].
      destruct (IH H) as [Heq | Hin]; [now left | right; now right].
Qed.

Lemma set_cases m k v :
  (JS.get k m = None /\ JS.set k v m = (m ++ [(k, v)])%list)
  \/ (exists v0, JS.get k m = Some v0 /\ JS.keys (JS.set k v m) = JS.keys m).
Proof.
  destruct (JS.get k m) as [v0|] eqn:E.
  - right. exists v0. split; [reflexivity | now apply keys_set_present with v0].
  - left. split; [reflexivity | now apply set_fresh].
Qed.

Lemma keys_set_nodup m k v : NoDup (JS.keys m) -> NoDup (JS.keys (JS.set k v m)).
Proof.
  intros Hnd. destruct (set_cases m k v) as [[Hnone ->] | (v0 & _ & ->)]; [|exact Hnd].
  unfold JS.keys. rewrite map_app. simpl.
  apply NoDup_app; [exact Hnd | repeat constructor; auto |].
  intros k' Hk [<- | []]. now apply get_none_iff in Hnone.
Qed.

Lemma size_set_le m k v : JS.size (JS.set k v m) <= S (JS.size m).
Proof.
  unfold JS.size.
  destruct (set_cases m k v) as [[_ ->] | (v0 & _ & Hk)].
  - rewrite length_app. simpl. lia.
  - unfold JS.keys in Hk. apply (f_equal (@List.length string)) in Hk.
    rewrite !length_map in Hk. lia.
Qed.

Lemma size_set_present m k v v0 :
  JS.get k m = Some v0 -> JS.size (JS.set k v m) = JS.size m.
Proof.
  intros H. pose proof (keys_set_present m k v v0 H) as Hk.
  unfold JS.keys, JS.size in *. apply (f_equal (@List.length string)) in Hk.
  now rewrite !length_map in Hk.
Qed.

(** What the cleanup does to a store that holds one entry too many. *)
Lemma cleanup_one_over mgr :
  JS.size (conversations mgr) = S (maxConversations mgr) ->
  exists d,
    In d (JS.values (conversations mgr))
    /\ (forall c, In c (JS.values (conversations mgr)) -> not_older Params c d)
    /\ cleanupOldConversations Params mgr
       = with_conversations Params (JS.delete (id d) (conversations mgr)) mgr.
Proof.
  intros Hsize.
  destruct (overflow_victim Params _ _ Hsize) as (d & Hskip & Hd & Hleast).
  exists d. split; [exact Hd|]. split; [exact Hleast|].
  unfold cleanupOldConversations, listConversations. now rewrite Hskip.
Qed.

Lemma store_ok_new n : store_ok Params (new Params n).
Proof. repeat split; simpl; [constructor | contradiction | lia]. Qed.

Lemma store_ok_set_present mgr cid c c' :
  store_ok Params mgr ->
  JS.get cid (conversations mgr) = Some c ->
  id c' = id c ->
  store_ok Params (with_conversations Params (JS.set cid c' (conversations mgr)) mgr).
Proof.
  intros (Hnd & Hid & Hsize) Hget Hsame. repeat split; simpl.
  - now apply keys_set_nodup.
  - intros k x Hin. apply in_set in Hin as [[-> ->] | Hin]; [|now apply Hid].
    rewrite Hsame. apply Hid. now apply get_some_in.
  - now rewrite (size_set_present _ _ _ _ Hget).
Qed.

Lemma store_ok_create mgr title newId created updated :
  store_ok Params mgr ->
  store_ok Params (fst (createConversation Params title newId created updated mgr)).
Proof.
  intros (Hnd & Hid & Hsize). unfold createConversation. cbn [fst].
  set (conv := {| id := newId; title := _; messages := _; createdAt := _;
                  updatedAt := _; metadata := _ |}).
  set (stored := with_conversations Params (JS.set newId conv (conversations mgr)) mgr).
  assert (Hok : NoDup (JS.keys (conversations stored))
                /\ (forall k c, In (k, c) (conversations stored) -> id c = k)).
  { split; simpl.
    - now apply keys_set_nodup.
    - intros k c Hin. apply in_set in Hin as [[-> ->] | Hin]; [reflexivity | now apply Hid]. }
  destruct Hok as [Hnd1 Hid1].
  pose proof (size_set_le (conversations mgr) newId conv) as Hle.
  destruct (maxConversations stored <? JS.size (conversations stored))%nat eqn:Hover.
  - apply Nat.ltb_lt in Hover. simpl in Hover.
    assert (Hone : JS.size (conversations stored) = S (maxConversations stored))
      by (simpl; lia).
    destruct (cleanup_one_over stored Hone) as (d & Hd & _ & ->).
    unfold JS.values in Hd. apply in_map_iff in Hd as ([k d'] & Hdd & Hd).
    simpl in Hdd. subst d'. pose proof (Hid1 _ _ Hd) as Hk. subst k.
    repeat split; cbn [conversations maxConversations with_conversations].
    + now apply keys_delete_nodup.
    + intros k c Hin. apply in_delete in Hin as [Hin _]. now apply Hid1.
    + assert (S (JS.size (JS.delete (id d) (conversations stored)))
              = JS.size (conversations stored)).
      { apply size_delete_present; [exact Hnd1 | now apply in_keys in Hd]. }
      simpl in *. lia.
  - apply Nat.ltb_ge in Hover. repeat split; assumption.
Qed.

Lemma reachable_store_invariant mgr :
  reachable Params mgr -> store_ok Params mgr.
Proof.
  induction 1 as [n
                 | mgr title newId created updated _ IH
                 | mgr cid text newId stamp now mgr' msg _ IH Hadd
                 | mgr cid text qr newId stamp now mgr' msg _ IH Hadd
                 | mgr cid _ IH
                 | mgr _ IH].
  - apply store_ok_new.
  - now apply store_ok_create.
  - unfold addUserMessage in Hadd.
    destruct (JS.get cid (conversations mgr)) as [conv|] eqn:Hc; [|discriminate].
    injection Hadd as <- _. now apply store_ok_set_present with conv.
  - unfold addAssistantMessage in Hadd.
    destruct (JS.get cid (conversations mgr)) as [conv|] eqn:Hc; [|discriminate].
    injection Hadd as <- _. now apply store_ok_set_present with conv.
  - destruct IH as (Hnd & Hid & Hsize). repeat split; simpl.
    + now apply keys_delete_nodup.
    + intros k c Hin. apply in_delete in Hin as [Hin _]. now apply Hid.
    + unfold JS.size, JS.delete in *.
      pose proof (filter_length_le
                    (fun e : string * Conversation Params => negb (String.eqb (fst e) cid))
                    (conversations mgr)). lia.
  - repeat split; simpl; [constructor | contradiction | lia].
Qed.

(** X1: whatever sequence of method calls has built it, a manager files
    every conversation under that conversation's own identifier, holds no
    identifier twice, and never holds more conversations than its capacity. *)
Theorem reachable_store_ok mgr :
  reachable Params mgr ->
  NoDup (JS.keys (conversations mgr))
  /\ (forall cid c, getConversation Params mgr cid = Some c -> id c = cid)
  /\ JS.size (conversations mgr) <= maxConversations mgr.
Proof.
  intros Hreach.
  destruct (reachable_store_invariant mgr Hreach) as (Hnd & Hid & Hsize).
  split; [exact Hnd|]. split; [|exact Hsize].
  intros cid c Hget. apply Hid. now apply get_some_in.
Qed.

End StoreInvariantFacts.

Lemma reachable_store_ok_witness :
  JS.size
    (ConversationManager.conversations
       (fst (ConversationManager.createConversation unit None "b" 2 2
               (fst (ConversationManager.createConversation unit None "a" 1 1
                       (ConversationManager.new unit 1))))))
  <= 1.
Proof.
  apply (reachable_store_ok unit
           (fst (ConversationManager.createConversation unit None "b" 2 2
                   (fst (ConversationManager.createConversation unit None "a" 1 1
                           (ConversationManager.new unit 1)))))).
  do 2 apply ConversationManager.reach_create.
  apply ConversationManager.reach_new.
Defined.

Section StoreReadFacts.
Import ConversationManager.
Variable Params : Type.
Implicit Types (mgr : Manager Params) (c : Conversation Params)
         (m : JS.Map (Conversation Params)).

(** X2: [listConversations] returns exactly the stored conversations, each
    once, the most recently updated first; on a manager built through the
    class's methods every listed conversation is the one found under its
    identifier. *)
Theorem listConversations_most_recent_first mgr :
  Permutation (JS.values (conversations mgr)) (listConversations Params mgr)
  /\ StronglySorted (not_older Params) (listConversations Params mgr)
  /\ List.length (listConversations Params mgr) = JS.size (conversations mgr)
  /\ (reachable Params mgr ->
      forall c, In c (listConversations Params mgr) ->
                getConversation Params mgr (id c) = Some c).
Proof.
  unfold listConversations.
  pose proof (sort_permutes Params (JS.values (conversations mgr))) as Hperm.
  split; [exact Hperm|]. split; [apply sort_sorted|]. split.
  - rewrite <- (Permutation_length Hperm). unfold JS.values, JS.size.
    apply length_map.
  - intros Hreach c Hc.
    destruct (reachable_store_invariant Params mgr Hreach) as (Hnd & Hid & _).
    apply (Permutation_in _ (Permutation_sym Hperm)) in Hc.
    unfold JS.values in Hc. apply in_map_iff in Hc as ([k c'] & Hcc & Hin).
    simpl in Hcc. subst c'. pose proof (Hid _ _ Hin) as Hk. subst k.
    now apply in_get.
Qed.

Lemma delete_absent m k : JS.get k m = None -> JS.delete k m = m.
Proof.
  induction m as [|[k0 v0] m IH]; simpl; [reflexivity|].
  destruct (String.eqb k0 k); [discriminate|]. simpl. intros H. now rewrite IH.
Qed.

(** X3: on a manager built through the class's methods, [deleteConversation]
    answers [true] exactly when the identifier was present; afterwards the
    identifier is absent, every other conversation is found as before, the
    store is smaller by one exactly when something was deleted, the history
    for the identifier is empty, and a message for it is refused as not
    found. *)
Theorem delete_removes_only_its_target mgr cid :
  reachable Params mgr ->
  (snd (deleteConversation Params cid mgr) = true
   <-> exists c, getConversation Params mgr cid = Some c)
  /\ getConversation Params (fst (deleteConversation Params cid mgr)) cid = None
  /\ (forall other,
        other <> cid ->
        getConversation Params (fst (deleteConversation Params cid mgr)) other
        = getConversation Params mgr other)
  /\ JS.size (conversations (fst (deleteConversation Params cid mgr)))
     = JS.size (conversations mgr)
       - (if snd (deleteConversation Params cid mgr) then 1 else 0)
  /\ getGeminiHistory Params cid (fst (deleteConversation Params cid mgr)) = []
  /\ (forall text newId stamp now,
        addUserMessage Params cid text newId stamp now
          (fst (deleteConversation Params cid mgr))
        = Throw (not_found cid))
  /\ (forall text qr newId stamp now,
        addAssistantMessage Params cid text qr newId stamp now
          (fst (deleteConversation Params cid mgr))
        = Throw (not_found cid)).
Proof.
  intros Hreach.
  destruct (reachable_store_invariant Params mgr Hreach) as (Hnd & _ & _).
  unfold deleteConversation, getConversation, getGeminiHistory,
    addUserMessage, addAssistantMessage.
  cbn [fst snd conversations with_conversations].
  rewrite get_delete_same.
  split; [|split; [reflexivity|split; [|split; [|repeat split]]]].
  - unfold JS.has. destruct (JS.get cid (conversations mgr)) as [c|].
    + split; [intros _; now exists c | reflexivity].
    + split; [discriminate | intros [c H]; discriminate].
  - intros other Hne. apply get_delete_other. congruence.
  - unfold JS.has. destruct (JS.get cid (conversations mgr)) as [c|] eqn:E.
    + assert (S (JS.size (JS.delete cid (conversations mgr)))
              = JS.size (conversations mgr)).
      { apply size_delete_present; [exact Hnd|].
        apply get_some_in in E. now apply in_keys in E. }
      lia.
    + rewrite (delete_absent _ _ E). lia.
Qed.

Lemma sum_Z_app (a b : list Z) : sum_Z (a ++ b) = (sum_Z a + sum_Z b)%Z.
Proof. unfold sum_Z. induction a as [|x a IH]; simpl; lia. Qed.

Lemma consistent_fresh title newId created updated :
  metadata_consistent Params
    {| id := newId; title := title; messages := []; createdAt := created;
       updatedAt := updated;
       metadata := Some {| totalQueries := 0; totalLatencyMs := 0; agentsUsed := [] |} |}.
Proof. eexists. split; [reflexivity|]. simpl. repeat split; auto. Qed.

Lemma metadata_invariant mgr cid c :
  reachable Params mgr ->
  getConversation Params mgr cid = Some c ->
  metadata_consistent Params c.
Proof.
  intros Hreach. revert cid c.
  induction Hreach as [n
                 | mgr title newId created updated _ IH
                 | mgr cid0 text newId stamp now mgr' msg _ IH Hadd
                 | mgr cid0 text qr newId stamp now mgr' msg _ IH Hadd
                 | mgr cid0 _ IH
                 | mgr _ IH]; intros k c Hget.
  - discriminate.
  - unfold createConversation in Hget. cbn [fst] in Hget.
    match type of Hget with
    | context [if ?b then _ else _] => destruct b
    end; [apply cleanup_get in Hget|];
      unfold getConversation in Hget; simpl in Hget;
      apply get_set_cases in Hget as [[_ ->] | Hget];
      try apply consistent_fresh; exact (IH _ _ Hget).
  - unfold addUserMessage in Hadd.
    destruct (JS.get cid0 (conversations mgr)) as [conv|] eqn:Hc; [|discriminate].
    injection Hadd as <- _.
    unfold getConversation in Hget. simpl in Hget.
    apply get_set_cases in Hget as [[_ ->] | Hget]; [|exact (IH _ _ Hget)].
    destruct (IH _ _ Hc) as (md & Hmd & Hq & Hl & Ha).
    exists md. cbn [metadata messages]. split; [exact Hmd|].
    rewrite filter_app, map_app, flat_map_app, sum_Z_app. simpl.
    rewrite !app_nil_r. split; [exact Hq|]. split; [lia | exact Ha].
  - unfold addAssistantMessage in Hadd.
    destruct (JS.get cid0 (conversations mgr)) as [conv|] eqn:Hc; [|discriminate].
    injection Hadd as <- _.
    unfold getConversation in Hget. simpl in Hget.
    apply get_set_cases in Hget as [[_ ->] | Hget]; [|exact (IH _ _ Hget)].
    destruct (IH _ _ Hc) as (md & Hmd & Hq & Hl & Ha).
    exists (fold_turn Params qr md). cbn [metadata messages]. rewrite Hmd.
    split; [reflexivity|].
    rewrite filter_app, map_app, flat_map_app, sum_Z_app, length_app.
    cbn [map flat_map filter List.length fold_turn totalQueries totalLatencyMs
         agentsUsed sum_Z fold_right].
    unfold is_assistant at 2, latency_of at 2, agents_of at 2.
    cbn [role queryResponse is_user negb List.length].
    split; [lia|]. split; [lia|].
    intros tool. rewrite in_add_all, in_app_iff, Ha, app_nil_r. tauto.
  - unfold getConversation in Hget. simpl in Hget.
    destruct (string_dec cid0 k) as [<- | Hne].
    + now rewrite get_delete_same in Hget.
    + rewrite get_delete_other in Hget by exact Hne. exact (IH _ _ Hget).
  - discriminate.
Qed.

(** X4: on a manager built through the class's methods, the metadata of
    every stored conversation is what its messages add up to: the query
    count is the number of assistant messages, the cumulative latency is the
    sum of the latencies attached to them, and the tools used are the agent
    names in the attached responses. *)
Theorem metadata_matches_messages mgr cid c :
  reachable Params mgr ->
  getConversation Params mgr cid = Some c ->
  exists md,
    metadata c = Some md
    /\ totalQueries md
       = Z.of_nat (List.length (filter (is_assistant Params) (messages c)))
    /\ totalLatencyMs md = sum_Z (map (latency_of Params) (messages c))
    /\ (forall tool, In tool (agentsUsed md)
                     <-> In tool (flat_map (agents_of Params) (messages c))).
Proof. intros Hreach Hget. exact (metadata_invariant mgr cid c Hreach Hget). Qed.

Lemma round_div_nearest (a b : Z) :
  (0 < b)%Z ->
  (2 * a - b < 2 * b * round_div a b <= 2 * a + b)%Z.
Proof.
  intros Hb. unfold round_div.
  pose proof (Z.div_mod (2 * a + b) (2 * b)) as Hdm.
  pose proof (Z.mod_pos_bound (2 * a + b) (2 * b)) as Hmod.
  lia.
Qed.

(** X7: on a manager built through the class's methods, [getStats] answers
    [null] exactly for an unknown identifier; otherwise it gives the number
    of messages, the tools found in the attached responses, and as average
    latency 0 when there is no assistant message and else the integer
    nearest to the mean latency of the assistant messages. *)
Theorem stats_describe_the_messages mgr cid :
  reachable Params mgr ->
  match getStats Params cid mgr with
  | None => getConversation Params mgr cid = None
  | Some st =>
      exists c,
        getConversation Params mgr cid = Some c
        /\ messageCount st = List.length (messages c)
        /\ (filter (is_assistant Params) (messages c) = [] -> avgLatency st = 0%Z)
        /\ (let q := Z.of_nat (List.length (filter (is_assistant Params) (messages c))) in
            let total := sum_Z (map (latency_of Params) (messages c)) in
            (0 < q -> 2 * total - q < 2 * q * avgLatency st <= 2 * total + q)%Z)
        /\ (forall tool, In tool (stats_agentsUsed st)
                         <-> In tool (flat_map (agents_of Params) (messages c)))
  end.
Proof.
  intros Hreach. unfold getStats, getConversation.
  destruct (JS.get cid (conversations mgr)) as [c|] eqn:Hc; [|reflexivity].
  destruct (metadata_invariant mgr cid c Hreach Hc) as (md & Hmd & Hq & Hl & Ha).
  rewrite Hmd. exists c. cbn [messageCount avgLatency stats_agentsUsed].
  split; [reflexivity|]. split; [reflexivity|]. split; [|split; [|exact Ha]].
  - intros Hnone. rewrite Hq, Hnone. reflexivity.
  - cbv zeta. intros Hpos. rewrite <- Hq, <- Hl.
    rewrite <- Hq in Hpos. apply Z.ltb_lt in Hpos as Hb. rewrite Hb.
    now apply round_div_nearest.
Qed.

End StoreReadFacts.

Section StoreWriteFacts.
Import ConversationManager.
Variable Params : Type.
Implicit Types (mgr : Manager Params) (c : Conversation Params).

(** X5: on a manager built through the class's methods, a conversation in
    which a user has written carries the title derived from its first user
    message, however many messages followed and whatever title it was
    created with. *)
Theorem title_stays_derived mgr cid c :
  reachable Params mgr ->
  getConversation Params mgr cid = Some c ->
  title_from_first_message Params c.
Proof.
  intros Hreach. revert cid c.
  induction Hreach as [n
                 | mgr title newId created updated _ IH
                 | mgr cid0 text newId stamp now mgr' msg _ IH Hadd
                 | mgr cid0 text qr newId stamp now mgr' msg _ IH Hadd
                 | mgr cid0 _ IH
                 | mgr _ IH]; intros k c Hget.
  - discriminate.
  - unfold createConversation in Hget. cbn [fst] in Hget.
    match type of Hget with
    | context [if ?b then _ else _] => destruct b
    end; [apply cleanup_get in Hget|];
      unfold getConversation in Hget; simpl in Hget;
      apply get_set_cases in Hget as [[_ ->] | Hget];
      try (intros m Hm; discriminate Hm); exact (IH _ _ Hget).
  - unfold addUserMessage in Hadd.
    destruct (JS.get cid0 (conversations mgr)) as [conv|] eqn:Hc; [|discriminate].
    injection Hadd as <- _.
    unfold getConversation in Hget. simpl in Hget.
    apply get_set_cases in Hget as [[_ ->] | Hget]; [|exact (IH _ _ Hget)].
    pose proof (IH _ _ Hc) as Hold.
    unfold title_from_first_message, first_user_message in *.
    cbn [title messages]. rewrite filter_app. cbn [filter role is_user].
    destruct (filter (fun m => is_user (role m)) (messages conv)) as [|x xs].
    + simpl. intros m [= <-]. reflexivity.
    + simpl. rewrite length_app. simpl.
      replace (List.length xs + 1 =? 0)%nat with false
        by (symmetry; apply Nat.eqb_neq; lia).
      intros m Hm. apply Hold. exact Hm.
  - unfold addAssistantMessage in Hadd.
    destruct (JS.get cid0 (conversations mgr)) as [conv|] eqn:Hc; [|discriminate].
    injection Hadd as <- _.
    unfold getConversation in Hget. simpl in Hget.
    apply get_set_cases in Hget as [[_ ->] | Hget]; [|exact (IH _ _ Hget)].
    pose proof (IH _ _ Hc) as Hold.
    unfold title_from_first_message, first_user_message in *.
    cbn [title messages]. rewrite filter_app. cbn [filter role is_user].
    rewrite app_nil_r. exact Hold.
  - unfold getConversation in Hget. simpl in Hget.
    destruct (string_dec cid0 k) as [<- | Hne].
    + now rewrite get_delete_same in Hget.
    + rewrite get_delete_other in Hget by exact Hne. exact (IH _ _ Hget).
  - discriminate.
Qed.

(** X6: appending a message to an existing conversation succeeds and
    extends the history handed to the model by exactly that message, as
    role [user] for a user message and role [model] for an assistant
    message; the identifiers held and every other conversation stay as they
    were. *)
Theorem history_grows_by_the_message mgr cid c text newId stamp now :
  getConversation Params mgr cid = Some c ->
  (exists mgr' message,
      addUserMessage Params cid text newId stamp now mgr = Ok (mgr', message)
      /\ getGeminiHistory Params cid mgr'
         = (getGeminiHistory Params cid mgr ++ [("user", [text])])%list
      /\ JS.keys (conversations mgr') = JS.keys (conversations mgr)
      /\ forall other, other <> cid ->
           getConversation Params mgr' other = getConversation Params mgr other)
  /\ (forall qr, exists mgr' message,
        addAssistantMessage Params cid text qr newId stamp now mgr = Ok (mgr', message)
        /\ getGeminiHistory Params cid mgr'
           = (getGeminiHistory Params cid mgr ++ [("model", [text])])%list
        /\ JS.keys (conversations mgr') = JS.keys (conversations mgr)
        /\ forall other, other <> cid ->
             getConversation Params mgr' other = getConversation Params mgr other).
Proof.
  intros Hget. unfold getConversation in Hget.
  split; [|intros qr];
    unfold addUserMessage, addAssistantMessage; rewrite Hget;
    do 2 eexists; (split; [reflexivity|]);
    unfold getGeminiHistory, getConversation;
    cbn [conversations with_conversations];
    rewrite get_set_same, Hget; cbn [messages];
    (split; [now rewrite map_app|]);
    (split; [now apply keys_set_present with c|]);
    intros other Hne; apply get_set_other; congruence.
Qed.

End StoreWriteFacts.

Section AdvancingClockFacts.
Import ConversationManager.
Variable Params : Type.
Implicit Types (mgr : Manager Params) (c d : Conversation Params).

Lemma create_outcome M cs r mgr :
  tracks Params M cs mgr ->
  ~ In (fresh_id r) (map fresh_id cs) ->
  exists conv,
    id conv = fresh_id r
    /\ updatedAt conv = updated_at r
    /\ ((JS.size (conversations mgr) < M
         /\ conversations (create Params mgr r)
            = (conversations mgr ++ [(fresh_id r, conv)])%list)
        \/ (JS.size (conversations mgr) = M
            /\ exists d,
                 In d (JS.values (conversations mgr ++ [(fresh_id r, conv)])%list)
                 /\ (forall c,
                       In c (JS.values (conversations mgr ++ [(fresh_id r, conv)])%list) ->
                       not_older Params c d)
                 /\ conversations (create Params mgr r)
                    = JS.delete (id d) (conversations mgr ++ [(fresh_id r, conv)])%list)).
Proof.
  intros [Hmax Hnd Horigin Hsize Hevicted] Hr.
  assert (Hfresh : JS.get (fresh_id r) (conversations mgr) = None).
  { apply get_none_iff. intros Hk. apply Hr. unfold JS.keys in Hk.
    apply in_map_iff in Hk as ([k c] & <- & Hin).
    destruct (Horigin _ _ Hin) as (_ & r' & Hr' & <- & _). simpl. now apply in_map. }
  unfold create, createConversation. cbn [fst].
  set (conv := {| id := fresh_id r; title := _; messages := _;
                  createdAt := _; updatedAt := updated_at r; metadata := _ |}).
  exists conv. split; [reflexivity|]. split; [reflexivity|].
  cbn [conversations maxConversations with_conversations].
  rewrite (set_fresh _ _ conv Hfresh).
  set (m1 := (conversations mgr ++ [(fresh_id r, conv)])%list).
  assert (Hsize1 : JS.size m1 = S (JS.size (conversations mgr))).
  { unfold m1, JS.size. rewrite length_app. simpl. lia. }
  destruct (maxConversations mgr <? JS.size m1)%nat eqn:Hover.
  - apply Nat.ltb_lt in Hover. right. split; [lia|].
    assert (Hone : JS.size (conversations (with_conversations Params m1 mgr))
                   = S (maxConversations (with_conversations Params m1 mgr)))
      by (simpl; lia).
    destruct (cleanup_one_over Params _ Hone) as (d & Hd & Hleast & ->).
    exists d. auto.
  - apply Nat.ltb_ge in Hover. left. split; [lia | reflexivity].
Qed.

Lemma sorted_skipn {A} (R : A -> A -> Prop) (n : nat) (l : list A) :
  StronglySorted R l -> StronglySorted R (skipn n l).
Proof.
  revert l. induction n as [|n IH]; intros l Hs; [exact Hs|].
  destruct l as [|a l]; [constructor|]. simpl. apply IH. now inversion Hs.
Qed.

Lemma sorted_app_front {A} (R : A -> A -> Prop) (front back : list A) :
  StronglySorted R (front ++ back) -> StronglySorted R front.
Proof.
  induction front as [|a front IH]; simpl; intros Hs; [constructor|].
  inversion Hs as [|? ? Hs' Hall]; subst. constructor; [now apply IH|].
  rewrite Forall_forall in *. intros x Hx. apply Hall, in_or_app. now left.
Qed.

Lemma forall2_in {A B} (P : A -> B -> Prop) (l1 : list A) (l2 : list B) (x : A) :
  Forall2 P l1 l2 -> In x l1 -> exists y, In y l2 /\ P x y.
Proof.
  induction 1 as [|a b l1 l2 Hab _ IH]; simpl; [contradiction|].
  intros [<- | Hin]; [exists b; auto|].
  destruct (IH Hin) as (y & Hy & Hp). exists y. auto.
Qed.

Lemma skipn_succ_app {A} (k : nat) (l : list A) (x : A) :
  k <= List.length l ->
  skipn (S k) (l ++ [x]) = tl (skipn k l ++ [x]).
Proof.
  revert l. induction k as [|k IH]; intros l Hk.
  - simpl. now destruct l.
  - destruct l as [|a l]; [simpl in Hk; lia|].
    simpl in Hk. change (skipn (S (S k)) ((a :: l) ++ [x]))
      with (skipn (S k) (l ++ [x])).
    change (skipn (S k) (a :: l)) with (skipn k l). apply IH. lia.
Qed.

Lemma nodup_app_disjoint {A} (l1 l2 : list A) (x : A) :
  NoDup (l1 ++ l2) -> In x l1 -> In x l2 -> False.
Proof.
  induction l1 as [|a l1 IH]; simpl; [contradiction|].
  intros Hnd [-> | H1] H2; inversion Hnd as [|? ? Ha Hl]; subst.
  - apply Ha, in_or_app. now right.
  - now apply IH.
Qed.

Lemma stems_keys (m : JS.Map (Conversation Params)) (rs : list Creation) :
  Forall2 (stems_from Params) m rs -> JS.keys m = map fresh_id rs.
Proof.
  induction 1 as [|e r m rs (Hk & _ & _) _ IH]; simpl; [reflexivity|].
  now rewrite Hk, IH.
Qed.

Lemma advancing_clock_entries (M : nat) (cs : list Creation) :
  NoDup (map fresh_id cs) ->
  clock_advances cs ->
  Forall2 (stems_from Params)
          (conversations (create_all Params cs (new Params M)))
          (skipn (List.length cs - M) cs).
Proof.
  induction cs as [|r cs IH] using rev_ind; intros Hids Hclock; [constructor|].
  assert (Hcs : NoDup (map fresh_id cs)).
  { rewrite map_app in Hids. now apply NoDup_app_remove_r in Hids. }
  assert (Hr : ~ In (fresh_id r) (map fresh_id cs)).
  { rewrite map_app in Hids. simpl in Hids.
    apply NoDup_remove_2 in Hids. now rewrite app_nil_r in Hids. }
  assert (Hclock0 : clock_advances cs) by (now apply sorted_app_front in Hclock).
  pose proof (tracks_create_all Params M cs Hcs) as Htr.
  pose proof (IH Hcs Hclock0) as HJ.
  unfold create_all. rewrite fold_left_app. cbn [fold_left].
  fold (create_all Params cs (new Params M)).
  set (mgr := create_all Params cs (new Params M)) in *.
  pose proof (tr_size _ _ _ _ Htr) as Hsize.
  destruct (create_outcome M cs r mgr Htr Hr)
    as (conv & Hid & Hup & [[Hlt Ec] | (HM & d & Hd & Hleast & Ec)]); rewrite Ec; clear Ec.
  - rewrite length_app. simpl.
    replace (List.length cs + 1 - M) with 0 by lia.
    replace (List.length cs - M) with 0 in HJ by lia.
    simpl in *. apply Forall2_app; [exact HJ|].
    constructor; [repeat split; auto | constructor].
  - set (k := List.length cs - M) in *.
    assert (Hk : k <= List.length cs) by lia.
    replace (List.length (cs ++ [r]) - M) with (S k)
      by (rewrite length_app; simpl; lia).
    rewrite (skipn_succ_app k cs r Hk).
    assert (HJ1 : Forall2 (stems_from Params)
                          (conversations mgr ++ [(fresh_id r, conv)])
                          (skipn k cs ++ [r])).
    { apply Forall2_app; [exact HJ|].
      constructor; [repeat split; auto | constructor]. }
    assert (Hsorted : clock_advances (skipn k cs ++ [r])).
    { unfold clock_advances in *.
      replace (skipn k cs ++ [r])%list with (skipn k (cs ++ [r])).
      - now apply sorted_skipn.
      - rewrite skipn_app. replace (k - List.length cs) with 0 by lia. reflexivity. }
    assert (Hnd : NoDup (map fresh_id (skipn k cs ++ [r]))).
    { replace (skipn k cs ++ [r])%list with (skipn k (cs ++ [r])).
      - rewrite <- (firstn_skipn k (cs ++ [r])), map_app in Hids.
        now apply NoDup_app_remove_l in Hids.
      - rewrite skipn_app. replace (k - List.length cs) with 0 by lia. reflexivity. }
    remember (conversations mgr ++ [(fresh_id r, conv)])%list as m1 eqn:Em1.
    remember (skipn k cs ++ [r])%list as rs1 eqn:Ers1.
    destruct HJ1 as [|[k0 v0] r0 rest0 rs (Hk0 & Hid0 & Hu0) Hrest].
    { destruct (conversations mgr); discriminate. }
    simpl in Hk0, Hid0, Hu0. cbn [tl].
    assert (Hd0 : d = v0).
    { destruct Hd as [Hd | Hd]; [now symmetry|]. exfalso.
      unfold JS.values in Hd. apply in_map_iff in Hd as (e & <- & He).
      destruct (forall2_in _ _ _ _ Hrest He) as (r' & Hr' & _ & _ & Hu').
      unfold clock_advances in Hsorted.
      apply StronglySorted_inv in Hsorted as [_ Hall].
      rewrite Forall_forall in Hall. specialize (Hall r' Hr').
      specialize (Hleast v0 (or_introl eq_refl)). unfold not_older in Hleast.
      simpl in Hall. lia. }
    subst d. rewrite Hid0, <- Hk0.
    unfold JS.delete. cbn [filter fst]. rewrite String.eqb_refl. cbn [negb].
    fold (JS.delete k0 rest0). rewrite delete_absent; [exact Hrest|].
    apply get_none_iff. rewrite (stems_keys _ _ Hrest).
    simpl in Hnd. rewrite <- Hk0 in Hnd. now inversion Hnd.
Qed.

(** X8: when the identifiers are distinct and the update times strictly
    increase from one creation to the next, the store holds after the
    creations exactly the last [M] conversations created, in the order of
    their creation and with their update times, and none of the earlier
    ones. *)
Theorem advancing_clock_keeps_the_latest (M : nat) (cs : list Creation) :
  NoDup (map fresh_id cs) ->
  clock_advances cs ->
  JS.keys (conversations (create_all Params cs (new Params M)))
  = map fresh_id (skipn (List.length cs - M) cs)
  /\ map (@updatedAt Params) (JS.values (conversations (create_all Params cs (new Params M))))
     = map updated_at (skipn (List.length cs - M) cs)
  /\ forall r,
       In r (firstn (List.length cs - M) cs) ->
       getConversation Params (create_all Params cs (new Params M)) (fresh_id r) = None.
Proof.
  intros Hids Hclock.
  pose proof (advancing_clock_entries M cs Hids Hclock) as HJ.
  split; [now apply stems_keys|]. split.
  - clear - HJ. unfold JS.values.
    induction HJ as [|e r m rs (_ & _ & Hu) _ IH]; simpl; [reflexivity|].
    now rewrite Hu, IH.
  - intros r Hr. unfold getConversation. apply get_none_iff.
    rewrite (stems_keys _ _ HJ). intros Hin.
    rewrite <- (firstn_skipn (List.length cs - M) cs), map_app in Hids.
    apply (in_map fresh_id) in Hr.
    exact (nodup_app_disjoint _ _ _ Hids Hr Hin).
Qed.

End AdvancingClockFacts.

(** ** The store on a concrete run *)

Lemma delete_removes_only_its_target_witness :
  ConversationManager.getConversation unit
    (fst (ConversationManager.deleteConversation unit "a"
            (fst (ConversationManager.createConversation unit None "a" 1 1
                    (ConversationManager.new unit 3))))) "a"
  = None.
Proof.
  apply (delete_removes_only_its_target unit
           (fst (ConversationManager.createConversation unit None "a" 1 1
                   (ConversationManager.new unit 3))) "a").
  apply ConversationManager.reach_create, ConversationManager.reach_new.
Defined.

Lemma two_turns_reachable :
  ConversationManager.reachable unit SampleStore.answered_again.
Proof.
  apply (ConversationManager.reach_assistant unit SampleStore.asked_again "a"
           "For its history." SampleStore.summarised "m4" 5%Z 5%Z
           SampleStore.answered_again
           {| ConversationManager.message_id := "m4";
              ConversationManager.role := ConversationManager.assistant;
              ConversationManager.content := "For its history.";
              ConversationManager.timestamp := 5%Z;
              ConversationManager.queryResponse := Some SampleStore.summarised |});
    [|reflexivity].
  apply (ConversationManager.reach_user unit SampleStore.answered "a"
           "And what is it known for?" "m3" 4%Z 4%Z SampleStore.asked_again
           {| ConversationManager.message_id := "m3";
              ConversationManager.role := ConversationManager.user;
              ConversationManager.content := "And what is it known for?";
              ConversationManager.timestamp := 4%Z;
              ConversationManager.queryResponse := None |});
    [|reflexivity].
  apply (ConversationManager.reach_assistant unit SampleStore.asked "a"
           "Rome is in Italy." SampleStore.geocoded "m2" 3%Z 3%Z
           SampleStore.answered
           {| ConversationManager.message_id := "m2";
              ConversationManager.role := ConversationManager.assistant;
              ConversationManager.content := "Rome is in Italy.";
              ConversationManager.timestamp := 3%Z;
              ConversationManager.queryResponse := Some SampleStore.geocoded |});
    [|reflexivity].
  apply (ConversationManager.reach_user unit SampleStore.created "a"
           "Where is Rome?" "m1" 2%Z 2%Z SampleStore.asked
           {| ConversationManager.message_id := "m1";
              ConversationManager.role := ConversationManager.user;
              ConversationManager.content := "Where is Rome?";
              ConversationManager.timestamp := 2%Z;
              ConversationManager.queryResponse := None |});
    [|reflexivity].
  apply ConversationManager.reach_create, ConversationManager.reach_new.
Qed.

Lemma metadata_matches_messages_witness :
  exists c md,
    ConversationManager.getConversation unit SampleStore.answered_again "a" = Some c
    /\ List.length (ConversationManager.messages c) = 4
    /\ ConversationManager.metadata c = Some md
    /\ ConversationManager.totalQueries md = 2%Z
    /\ ConversationManager.totalLatencyMs md = 201%Z
    /\ (In "get_wikipedia_summary" (ConversationManager.agentsUsed md)
        /\ In "geocode_location" (ConversationManager.agentsUsed md)).
Proof.
  destruct (ConversationManager.getConversation unit SampleStore.answered_again "a")
    as [c|] eqn:Hget; [|discriminate Hget].
  destruct (metadata_matches_messages unit SampleStore.answered_again "a" c
              two_turns_reachable Hget) as (md & Hmd & Hq & Hl & Ha).
  injection Hget as <-.
  eexists. exists md. split; [reflexivity|]. split; [reflexivity|].
  split; [exact Hmd|]. split; [exact Hq|]. split; [exact Hl|].
  split; apply Ha; simpl; tauto.
Defined.

Lemma stats_describe_the_messages_witness :
  exists st,
    ConversationManager.getStats unit "a" SampleStore.answered_again = Some st
    /\ ConversationManager.messageCount st = 4
    /\ ConversationManager.avgLatency st = 101%Z
    /\ In "get_wikipedia_summary" (ConversationManager.stats_agentsUsed st).
Proof.
  pose proof (stats_describe_the_messages unit SampleStore.answered_again "a"
                two_turns_reachable) as H.
  destruct (ConversationManager.getStats unit "a" SampleStore.answered_again)
    as [st|]; [|discriminate H].
  destruct H as (c & Hget & Hcount & _ & Havg & Hagents).
  injection Hget as <-. exists st. split; [reflexivity|].
  split; [exact Hcount|]. split.
  - cbv zeta in Havg.
    change (Z.of_nat (List.length (filter (is_assistant unit) _))) with 2%Z in Havg.
    change (sum_Z (map (latency_of unit) _)) with 201%Z in Havg.
    specialize (Havg eq_refl). lia.
  - apply Hagents. simpl. tauto.
Defined.

Lemma title_stays_derived_witness :
  exists c m,
    ConversationManager.getConversation unit SampleStore.answered_again "a" = Some c
    /\ first_user_message unit c = Some m
    /\ ConversationManager.content m = "Where is Rome?"
    /\ ConversationManager.title c = "Where is Rome?".
Proof.
  destruct (ConversationManager.getConversation unit SampleStore.answered_again "a")
    as [c|] eqn:Hget; [|discriminate Hget].
  pose proof (title_stays_derived unit SampleStore.answered_again "a" c
                two_turns_reachable Hget) as Htitle.
  injection Hget as <-.
  eexists.
  exists {| ConversationManager.message_id := "m1";
            ConversationManager.role := ConversationManager.user;
            ConversationManager.content := "Where is Rome?";
            ConversationManager.timestamp := 2%Z;
            ConversationManager.queryResponse := None |}.
  split; [reflexivity|]. split; [reflexivity|]. split; [reflexivity|].
  exact (Htitle _ eq_refl).
Defined.

Lemma history_grows_by_the_message_witness :
  exists mgr' message,
    ConversationManager.addUserMessage unit "a" "Where is Rome?" "m1" 2 2
      (fst (ConversationManager.createConversation unit None "a" 1 1
              (ConversationManager.new unit 3)))
    = Ok (mgr', message)
    /\ ConversationManager.getGeminiHistory unit "a" mgr'
       = [("user", ["Where is Rome?"])].
Proof.
  destruct (history_grows_by_the_message unit
              (fst (ConversationManager.createConversation unit None "a" 1 1
                      (ConversationManager.new unit 3)))
              "a" _ "Where is Rome?" "m1" 2%Z 2%Z eq_refl)
    as ((mgr' & message & Hadd & Hhist & _) & _).
  exists mgr', message. split; [exact Hadd | exact Hhist].
Defined.

Lemma advancing_clock_keeps_the_latest_witness :
  JS.keys
    (ConversationManager.conversations
       (ConversationManager.create_all unit
          [ {| ConversationManager.given_title := None;
               ConversationManager.fresh_id := "first";
               ConversationManager.created_at := 5;
               ConversationManager.updated_at := 5 |};
            {| ConversationManager.given_title := None;
               ConversationManager.fresh_id := "second";
               ConversationManager.created_at := 6;
               ConversationManager.updated_at := 6 |} ]
          (ConversationManager.new unit 1)))
  = ["second"].
Proof.
  apply (advancing_clock_keeps_the_latest unit 1
           [ {| ConversationManager.given_title := None;
                ConversationManager.fresh_id := "first";
                ConversationManager.created_at := 5;
                ConversationManager.updated_at := 5 |};
             {| ConversationManager.given_title := None;
                ConversationManager.fresh_id := "second";
                ConversationManager.created_at := 6;
                ConversationManager.updated_at := 6 |} ]).
  - simpl. constructor; [simpl; intros [H | []]; discriminate|].
    constructor; [simpl; tauto | constructor].
  - repeat constructor.
Defined.

(* ================================================================== *)
(** * Part II, continued: validator, agents and loop *)
(* ================================================================== *)

Section KeywordOrderFacts.
Import SPARQLValidator.
Variable rt : Runtime.

Lemma find_skips {A} (f : A -> bool) (before : list A) (x : A) (after : list A) :
  (forall y, In y before -> f y = false) ->
  f x = true ->
  find f (before ++ x :: after) = Some x.
Proof.
  induction before as [|y before IH]; simpl; intros Hb Hx.
  - now rewrite Hx.
  - rewrite (Hb y (or_introl eq_refl)). apply IH; auto.
Qed.

(** X10: when a query of ASCII characters parses and contains several
    blocked keywords, the reason names the one that comes first in the list
    of blocked keywords, wherever the keywords stand in the query. *)
Theorem first_listed_keyword_is_reported (q : string) (before : list string)
        (found : string) (after : list string) :
  Spec.only_ascii q = true ->
  parse rt q = Parsed ->
  DANGEROUS_KEYWORDS = (before ++ found :: after)%list ->
  Spec.contains_ignoring_case q found ->
  (forall keyword, In keyword before -> ~ Spec.contains_ignoring_case q keyword) ->
  validate rt q = {| valid := false; error := Some (dangerous found) |}.
Proof.
  intros Hq Hp Hlist Hfound Hbefore. unfold validate. cbv zeta. rewrite Hp.
  assert (Hin : forall k, In k (before ++ found :: after)%list ->
                          In k DANGEROUS_KEYWORDS).
  { intros k Hk. now rewrite Hlist. }
  rewrite Hlist, find_skips; [reflexivity | |].
  - intros k Hk.
    destruct (JS.includes (JS.toUpperCase (upper_other rt) q) k) eqn:E;
      [|reflexivity].
    exfalso. apply (Hbefore k Hk).
    apply (included_is_contained (upper_other rt) _ _ Hq); [|exact E].
    apply Hin, in_or_app. now left.
  - apply contained_is_included; [|exact Hfound].
    apply Hin, in_or_app. right. now left.
Qed.

End KeywordOrderFacts.

Lemma first_listed_keyword_is_reported_witness :
  SPARQLValidator.validate Sample.runtime
    "SELECT ?s WHERE { ?s ?p 'load, then drop' }"
  = {| SPARQLValidator.valid := false;
       SPARQLValidator.error := Some (SPARQLValidator.dangerous "DROP") |}.
Proof.
  apply (first_listed_keyword_is_reported Sample.runtime
           "SELECT ?s WHERE { ?s ?p 'load, then drop' }"
           ["DELETE"; "INSERT"] "DROP" ["CREATE"; "CLEAR"; "LOAD"]).
  - reflexivity.
  - reflexivity.
  - reflexivity.
  - exists "SELECT ?s WHERE { ?s ?p 'load, then ", "drop", "' }".
    split; reflexivity.
  - intros keyword Hin Hc.
    apply (includes_upper_iff "SELECT ?s WHERE { ?s ?p 'load, then drop' }" keyword)
      in Hc.
    + destruct Hin as [<- | [<- | []]]; discriminate Hc.
    + destruct Hin as [<- | [<- | []]]; reflexivity.
Defined.

Section AddsFacts.
Import Data Effects.
Local Open Scope list_scope.
Variable P : Event -> Prop.

Lemma adds_ret {A} (a : A) : adds P (ret a).
Proof. intros t. exists []. split; [reflexivity | constructor]. Qed.

Lemma adds_throw {A} (message : string) : adds P (@throw A message).
Proof. intros t. exists []. split; [reflexivity | constructor]. Qed.

Lemma adds_lift {A} (r : Result A) : adds P (lift r).
Proof. intros t. exists []. split; [reflexivity | constructor]. Qed.

Lemma adds_history : adds P history.
Proof. intros t. exists []. split; [reflexivity | constructor]. Qed.

Lemma adds_date_now rt (w : World rt) : adds P (date_now w).
Proof. intros t. exists []. split; [reflexivity | constructor]. Qed.

Lemma adds_get {R} (reply : Trace -> Http.Request -> R) (req : Http.Request) :
  P (HttpGet req) -> adds P (get reply req).
Proof.
  intros Hp t. exists [HttpGet req]. split; [reflexivity|].
  constructor; [exact Hp | constructor].
Qed.

Lemma adds_send rt (w : World rt) (h : History) (message : ChatMessage) :
  P (ChatSend message) -> adds P (sendMessage w h message).
Proof.
  intros Hp t. exists [ChatSend message]. split; [reflexivity|].
  constructor; [exact Hp | constructor].
Qed.

Lemma adds_bind {A B} (m : M A) (k : A -> M B) :
  adds P m -> (forall a, adds P (k a)) -> adds P (bind m k).
Proof.
  intros Hm Hk t. unfold bind.
  destruct (Hm t) as (new1 & E1 & G1).
  destruct (m t) as [[a|message] t1]; simpl in E1; subst t1.
  - destruct (Hk a (new1 ++ t)) as (new2 & E2 & G2).
    exists (new2 ++ new1). rewrite E2, app_assoc.
    split; [reflexivity | now apply Forall_app].
  - now exists new1.
Qed.

Lemma adds_try_catch {A} (m : M A) (handler : string -> M A) :
  adds P m -> (forall message, adds P (handler message)) -> adds P (try_catch m handler).
Proof.
  intros Hm Hh t. unfold try_catch.
  destruct (Hm t) as (new1 & E1 & G1).
  destruct (m t) as [[a|message] t1]; simpl in E1; subst t1.
  - now exists new1.
  - destruct (Hh message (new1 ++ t)) as (new2 & E2 & G2).
    exists (new2 ++ new1). rewrite E2, app_assoc.
    split; [reflexivity | now apply Forall_app].
Qed.

Lemma adds_mapM {A B} (f : A -> M B) (l : list A) :
  (forall x, adds P (f x)) -> adds P (mapM f l).
Proof.
  intros Hf. induction l as [|x l IH]; simpl; [apply adds_ret|].
  apply adds_bind; [apply Hf|]. intros y.
  apply adds_bind; [exact IH|]. intros ys. apply adds_ret.
Qed.

End AddsFacts.

Section ValidatedGetFacts.
Import Data Effects GeminiOrchestrator.
Variable rt : Runtime.
Variable w : World rt.

Lemma validated_wikidata v : adds (validated_get rt) (WikidataAgent.execute rt w v).
Proof.
  unfold WikidataAgent.execute. destruct v; try apply adds_throw.
  destruct (SPARQLValidator.valid (SPARQLValidator.validate rt s)) eqn:E;
    cbn [negb]; [|apply adds_throw].
  apply adds_bind.
  - apply adds_get. intros _. exists s. split; [reflexivity|].
    now apply validate_pass_free.
  - intros [data|status message]; [apply adds_ret | apply adds_throw].
Qed.

Lemma validated_wikipedia v : adds (validated_get rt) (WikipediaAgent.execute rt w v).
Proof.
  unfold WikipediaAgent.execute. destruct v; try apply adds_throw.
  apply adds_bind.
  - apply adds_get. intros H. simpl in H. discriminate H.
  - intros [data|status message]; [apply adds_ret|].
    destruct (WikipediaAgent.is_404 status); apply adds_throw.
Qed.

Lemma validated_nominatim v : adds (validated_get rt) (NominatimAgent.geocode rt w v).
Proof.
  unfold NominatimAgent.geocode. apply adds_bind.
  - apply adds_get. intros H. simpl in H. discriminate H.
  - intros [ok statusText json|message]; [|apply adds_throw].
    destruct (negb ok); [apply adds_throw | apply adds_lift].
Qed.

Lemma validated_openmeteo lat lon forecast :
  adds (validated_get rt) (OpenMeteoAgent.getWeather rt w lat lon forecast).
Proof.
  unfold OpenMeteoAgent.getWeather. apply adds_bind.
  - apply adds_get. intros H. destruct forecast; simpl in H; discriminate H.
  - intros [ok statusText json|message]; [|apply adds_throw].
    destruct (negb ok); [apply adds_throw | apply adds_lift].
Qed.

Lemma validated_dispatch (call : Call rt) : adds (validated_get rt) (dispatch rt w call).
Proof.
  unfold dispatch.
  destruct (String.eqb (name call) "query_wikidata").
  { apply adds_bind; [apply validated_wikidata | intros; apply adds_ret]. }
  destruct (String.eqb (name call) "get_wikipedia_summary").
  { apply adds_bind; [apply validated_wikipedia | intros; apply adds_ret]. }
  destruct (String.eqb (name call) "geocode_location").
  { apply adds_bind; [apply validated_nominatim | intros; apply adds_ret]. }
  destruct (String.eqb (name call) "get_weather").
  { apply adds_bind; [apply validated_openmeteo | intros; apply adds_ret]. }
  apply adds_throw.
Qed.

Lemma validated_turn_body userQuery h startTime response thoughts
      (agentCalls : list (Entry rt)) :
  adds (validated_get rt)
       (turn_body rt w userQuery h startTime response thoughts agentCalls).
Proof.
  unfold turn_body. apply adds_bind; [apply adds_lift|].
  intros [[|call calls]|].
  - apply adds_bind; [apply adds_lift|]. intros finalText.
    apply adds_bind; [apply adds_date_now | intros; apply adds_ret].
  - apply adds_bind.
    + unfold invokeAll. apply adds_bind; [apply adds_history|]. intros started.
      apply adds_bind; [|intros; apply adds_ret].
      apply adds_mapM. intros x. unfold invoke.
      apply adds_try_catch; [|intros; apply adds_ret].
      apply adds_bind; [apply validated_dispatch | intros; apply adds_ret].
    + intros done. apply adds_bind; [now apply adds_send | intros; apply adds_ret].
  - apply adds_bind; [apply adds_lift|]. intros finalText.
    apply adds_bind; [apply adds_date_now | intros; apply adds_ret].
Qed.

Lemma validated_turns fuel :
  forall userQuery h startTime turn response thoughts (agentCalls : list (Entry rt)),
    adds (validated_get rt)
         (turns rt w fuel userQuery h startTime turn response thoughts agentCalls).
Proof.
  induction fuel as [|fuel IH]; intros; cbn [turns]; [apply adds_ret|].
  apply adds_bind; [apply validated_turn_body|].
  intros [r|response' thoughts' agentCalls']; [apply adds_ret|].
  destruct (10 <? turn + 1)%nat; [|apply IH].
  apply adds_bind; [apply adds_date_now | intros; apply adds_ret].
Qed.

(** X11: whatever the model requests and however the run ends, every GET
    that [executeQuery] sends to the Wikidata endpoint is the request built
    for a query that parses and contains no blocked keyword in any letter
    case. *)
Theorem wikidata_receives_only_validated_queries
        (fuel : nat) (userQuery : string) (conversationHistory : option History)
        (t : Trace) :
  exists new,
    snd (executeQuery rt w fuel userQuery conversationHistory t) = (new ++ t)%list
    /\ forall req,
         In (HttpGet req) new ->
         Http.url req = WikidataAgent.WIKIDATA_ENDPOINT ->
         exists q,
           req = WikidataAgent.request q
           /\ parse rt q = Parsed
           /\ Spec.keyword_free q.
Proof.
  assert (H : adds (validated_get rt)
                   (executeQuery rt w fuel userQuery conversationHistory)).
  { unfold executeQuery. apply adds_bind; [apply adds_date_now|]. intros startTime.
    apply adds_bind; [now apply adds_send|]. intros response.
    apply validated_turns. }
  destruct (H t) as (new & E & Hall). exists new. split; [exact E|].
  intros req Hin. rewrite Forall_forall in Hall. exact (Hall _ Hin).
Qed.

End ValidatedGetFacts.

Section NormalisationFacts.
Local Open Scope list_scope.
Variable other : string -> list bool.

Lemma no_space_app (a b : string) :
  no_space (a ++ b)%string = no_space a && no_space b.
Proof.
  induction a as [|c a IH]; simpl; [reflexivity|].
  rewrite IH. now rewrite andb_assoc.
Qed.

Lemma space_is_ascii (c : ascii) : JS.is_space c = true -> JS.is_ascii c = true.
Proof. destruct c as [[] [] [] [] [] [] [] []]; vm_compute; congruence. Qed.

(** The stretches are made of units outside the ASCII range. *)
Lemma segments_stretches (s : string) :
  Forall (fun seg => match seg with
                     | JS.Plain c => JS.is_ascii c = true
                     | JS.Other stretch =>
                         forall c, In c (list_ascii_of_string stretch) ->
                                   JS.is_ascii c = false
                     end) (JS.segments s).
Proof.
  induction s as [|c s IH]; [constructor|].
  cbn [JS.segments]. destruct (JS.is_ascii c) eqn:Ec.
  - constructor; assumption.
  - destruct (JS.segments s) as [|[d|r] more].
    + constructor; [|constructor]. intros x [<- | []]. exact Ec.
    + constructor; [|exact IH]. intros x [<- | []]. exact Ec.
    + inversion IH as [|? ? Hr Hmore]; subst. constructor; [|exact Hmore].
      intros x [<- | Hx]; [exact Ec | now apply Hr].
Qed.

Lemma text_of_segments (s : string) : JS.text_of (JS.segments s) = s.
Proof.
  induction s as [|c s IH]; [reflexivity|].
  cbn [JS.segments]. destruct (JS.is_ascii c).
  - cbn [JS.text_of]. now rewrite IH.
  - destruct (JS.segments s) as [|[d|r] more]; cbn [JS.text_of] in *;
      simpl; now rewrite <- IH.
Qed.

Lemma in_pair_up (stretch : string) (marks : list bool) (c : ascii) (b : bool) :
  In (c, b) (JS.pair_up stretch marks) -> In c (list_ascii_of_string stretch).
Proof.
  revert marks. induction stretch as [|d stretch IH]; intros marks; [intros []|].
  destruct marks as [|m marks]; cbn [JS.pair_up list_ascii_of_string];
    intros [H | H]; try (injection H as -> _; now left); right; eauto.
Qed.

Lemma unmarked_pair_up (stretch : string) (marks : list bool) :
  JS.unmarked (JS.pair_up stretch marks) = stretch.
Proof.
  revert marks. induction stretch as [|d stretch IH]; intros marks; [reflexivity|].
  destruct marks as [|m marks]; cbn [JS.pair_up JS.unmarked]; now rewrite IH.
Qed.

Lemma unmarked_app (l1 l2 : list (ascii * bool)) :
  JS.unmarked (l1 ++ l2) = (JS.unmarked l1 ++ JS.unmarked l2)%string.
Proof.
  induction l1 as [|[c b] l1 IH]; simpl; [reflexivity | now rewrite IH].
Qed.

(** Marking keeps the text. *)
Lemma unmarked_marked (s : string) : JS.unmarked (JS.marked other s) = s.
Proof.
  unfold JS.marked. rewrite <- (text_of_segments s) at 2.
  induction (JS.segments s) as [|[c|r] segs IH]; [reflexivity | |].
  - cbn [JS.marked_of JS.unmarked JS.text_of]. now rewrite IH.
  - cbn [JS.marked_of JS.text_of]. now rewrite unmarked_app, unmarked_pair_up, IH.
Qed.

(** A unit that the marking leaves unmarked is no blank, tab or line break. *)
Lemma marked_sound (s : string) (c : ascii) :
  In (c, false) (JS.marked other s) -> JS.is_space c = false.
Proof.
  unfold JS.marked. pose proof (segments_stretches s) as Hs.
  induction Hs as [|[d|r] segs Hseg _ IH]; [intros []| |].
  - cbn [JS.marked_of]. intros [H | H]; [|now apply IH].
    injection H as -> H. exact H.
  - cbn [JS.marked_of]. intros H. apply in_app_or in H as [H | H]; [|now apply IH].
    apply in_pair_up in H. apply Hseg in H.
    destruct (JS.is_space c) eqn:E; [|reflexivity].
    apply space_is_ascii in E. congruence.
Qed.

Lemma replace_runs_no_space (l : list (ascii * bool)) :
  (forall c, In (c, false) l -> JS.is_space c = false) ->
  no_space (JS.replace_runs "_" l) = true.
Proof.
  induction l as [|[c b] l IH]; intros Hl; [reflexivity|].
  assert (Hl' : forall d, In (d, false) l -> JS.is_space d = false).
  { intros d Hd. apply Hl. now right. }
  cbn [JS.replace_runs]. destruct b.
  - destruct l as [|[d [|]] l'];
      [reflexivity | now apply IH | rewrite no_space_app, (IH Hl'); reflexivity].
  - cbn [no_space]. rewrite (Hl c (or_introl eq_refl)), (IH Hl'). reflexivity.
Qed.

Lemma trimStart_unmarked (l : list (ascii * bool)) :
  forallb (fun unit => negb (snd unit)) l = true -> JS.trimStart l = l.
Proof. destruct l as [|[c [|]] l]; simpl; congruence. Qed.

Lemma trimEnd_unmarked (l : list (ascii * bool)) :
  forallb (fun unit => negb (snd unit)) l = true -> JS.trimEnd l = l.
Proof.
  induction l as [|[c b] l IH]; [reflexivity|].
  cbn [forallb snd]. intros H. apply andb_true_iff in H as [Hb Hl].
  apply negb_true_iff in Hb. subst b.
  cbn [JS.trimEnd]. rewrite (IH Hl). now destruct l.
Qed.

Lemma replace_runs_unmarked (by_ : string) (l : list (ascii * bool)) :
  forallb (fun unit => negb (snd unit)) l = true ->
  JS.replace_runs by_ l = JS.unmarked l.
Proof.
  induction l as [|[c b] l IH]; [reflexivity|].
  cbn [forallb snd]. intros H. apply andb_true_iff in H as [Hb Hl].
  apply negb_true_iff in Hb. subst b.
  cbn [JS.replace_runs JS.unmarked]. now rewrite (IH Hl).
Qed.

(** A text without white space is left alone by [trim] and by the
    replacement of white-space runs. *)
Lemma trim_spaceless (s : string) : spaceless other s = true -> JS.trim other s = s.
Proof.
  unfold spaceless, JS.trim. intros H.
  now rewrite (trimStart_unmarked _ H), (trimEnd_unmarked _ H), unmarked_marked.
Qed.

Lemma replace_spaces_spaceless (by_ s : string) :
  spaceless other s = true -> JS.replace_spaces other by_ s = s.
Proof.
  unfold spaceless, JS.replace_spaces. intros H.
  now rewrite (replace_runs_unmarked _ _ H), unmarked_marked.
Qed.

(** On an ASCII text the engine's tables are not consulted. *)
Lemma marked_ascii_prefix (m rest : string) :
  Spec.only_ascii m = true ->
  JS.marked other (m ++ rest)%string = plain_marks m ++ JS.marked other rest.
Proof.
  unfold JS.marked. induction m as [|c m IH]; intros H; [reflexivity|].
  cbn [Spec.only_ascii] in H. apply andb_true_iff in H as [Hc Hm].
  change (String c m ++ rest)%string with (String c (m ++ rest)%string).
  cbn [JS.segments]. rewrite Hc. cbn [JS.marked_of plain_marks].
  now rewrite (IH Hm).
Qed.

Lemma spaceless_ascii (s : string) :
  Spec.only_ascii s = true -> no_space s = true -> spaceless other s = true.
Proof.
  intros Ha Hn. unfold spaceless.
  rewrite <- (string_app_nil s), (marked_ascii_prefix s EmptyString Ha).
  unfold JS.marked. cbn [JS.segments JS.marked_of]. rewrite app_nil_r.
  clear Ha. induction s as [|c s IH]; [reflexivity|].
  cbn [no_space] in Hn. apply andb_true_iff in Hn as [Hc Hs].
  cbn [plain_marks forallb snd]. now rewrite Hc, (IH Hs).
Qed.

End NormalisationFacts.

(** X12: the title that the Wikipedia agent puts into its URL, before
    encoding, holds no blank, tab or line break, whatever the term; and a
    term in which the engine finds no white space, as is an ASCII term
    without blank, tab or line break, is used as it is. *)
Theorem wikipedia_title_has_no_space (rt : Runtime) (term : string) :
  exists normalized,
    Http.url (WikipediaAgent.request rt term)
    = WikipediaAgent.WIKIPEDIA_API ++ "/page/summary/"
        ++ encodeURIComponent rt normalized
    /\ no_space normalized = true
    /\ (spaceless (space_other rt) term = true -> normalized = term)
    /\ (Spec.only_ascii term = true -> no_space term = true -> normalized = term).
Proof.
  exists (JS.replace_spaces (space_other rt) "_" (JS.trim (space_other rt) term)).
  split; [reflexivity|]. split; [|split].
  - unfold JS.replace_spaces. apply replace_runs_no_space.
    intros c. apply marked_sound.
  - intros H. rewrite (trim_spaceless _ _ H). now apply replace_spaces_spaceless.
  - intros Ha Hn. pose proof (spaceless_ascii (space_other rt) _ Ha Hn) as H.
    rewrite (trim_spaceless _ _ H). now apply replace_spaces_spaceless.
Qed.



Section DispatchFacts.
Import Data Effects GeminiOrchestrator.
Variable rt : Runtime.
Variable w : World rt.

Lemma known_false (n : string) :
  known_function n = false ->
  String.eqb n "query_wikidata" = false
  /\ String.eqb n "get_wikipedia_summary" = false
  /\ String.eqb n "geocode_location" = false
  /\ String.eqb n "get_weather" = false.
Proof.
  unfold known_function. intros H.
  repeat (apply orb_false_iff in H as [H ?]). auto.
Qed.

(** X14: an invocation under a name other than the four operations is
    answered with the error [Unknown function: name]; nothing is sent and no
    entry is recorded for it. *)
Theorem unknown_function_is_refused (call : Call rt) (t : Trace) :
  known_function (name call) = false ->
  invoke rt w call t
  = (Ok ({| fr_name := name call;
            fr_response := tool_error ("Unknown function: " ++ name call) |},
         None),
     t).
Proof.
  intros H. apply known_false in H as (H1 & H2 & H3 & H4).
  rewrite invoke_outcome. unfold dispatch. rewrite H1, H2, H3, H4. reflexivity.
Qed.

(** X13: a Wikidata or Wikipedia invocation whose argument is missing or
    is not a string is answered with an error and sends nothing, whereas a
    geocoding invocation sends its GET whatever its argument is. *)
Theorem missing_argument_is_an_error (call : Call rt) (t : Trace) :
  (name call = "query_wikidata" ->
   is_string rt (Arg.lookup "sparql_query" (args call)) = false ->
   exists message,
     invoke rt w call t
     = (Ok ({| fr_name := name call; fr_response := tool_error message |}, None), t))
  /\ (name call = "get_wikipedia_summary" ->
      is_string rt (Arg.lookup "term" (args call)) = false ->
      exists message,
        invoke rt w call t
        = (Ok ({| fr_name := name call;
                  fr_response :=
                    tool_error (WikipediaAgent.request_failed message) |}, None), t))
  /\ (name call = "geocode_location" ->
      snd (invoke rt w call t)
      = HttpGet (NominatimAgent.request rt (Arg.lookup "query" (args call))) :: t).
Proof.
  split; [|split]; intros Hname.
  - intros Hs. rewrite invoke_outcome. unfold dispatch.
    replace (String.eqb (name call) "query_wikidata") with true
      by (rewrite Hname; reflexivity).
    unfold WikidataAgent.execute, bind.
    destruct (Arg.lookup "sparql_query" (args call)); try discriminate Hs;
      eexists; reflexivity.
  - intros Hs. rewrite invoke_outcome. unfold dispatch.
    replace (String.eqb (name call) "query_wikidata") with false
      by (rewrite Hname; reflexivity).
    replace (String.eqb (name call) "get_wikipedia_summary") with true
      by (rewrite Hname; reflexivity).
    unfold WikipediaAgent.execute, bind.
    destruct (Arg.lookup "term" (args call)); try discriminate Hs;
      eexists; reflexivity.
  - rewrite invoke_outcome. unfold dispatch.
    replace (String.eqb (name call) "query_wikidata") with false
      by (rewrite Hname; reflexivity).
    replace (String.eqb (name call) "get_wikipedia_summary") with false
      by (rewrite Hname; reflexivity).
    replace (String.eqb (name call) "geocode_location") with true
      by (rewrite Hname; reflexivity).
    unfold NominatimAgent.geocode, bind, get. cbn [snd].
    destruct (nominatim_reply w t _) as [ok statusText json|message]; [|reflexivity].
    destruct ok; cbn [negb]; [|reflexivity].
    unfold lift. now destruct json.
Qed.

Lemma dispatch_one_get (call : Call rt) (t : Trace) :
  http_calls (snd (dispatch rt w call t)) <= S (http_calls t).
Proof.
  destruct (agents_single_get rt w t) as (H1 & H2 & H3 & H4).
  unfold dispatch.
  destruct (String.eqb (name call) "query_wikidata").
  { unfold bind. specialize (H1 (Arg.lookup "sparql_query" (args call))).
    destruct (WikidataAgent.execute rt w _ t) as [[x|m] t1]; exact H1. }
  destruct (String.eqb (name call) "get_wikipedia_summary").
  { unfold bind. specialize (H2 (Arg.lookup "term" (args call))).
    destruct (WikipediaAgent.execute rt w _ t) as [[x|m] t1]; exact H2. }
  destruct (String.eqb (name call) "geocode_location").
  { unfold bind. specialize (H3 (Arg.lookup "query" (args call))).
    destruct (NominatimAgent.geocode rt w _ t) as [[x|m] t1]; simpl in *; lia. }
  destruct (String.eqb (name call) "get_weather").
  { unfold bind.
    specialize (H4 (Arg.lookup "latitude" (args call))
                   (Arg.lookup "longitude" (args call))
                   (Arg.truthy (Arg.lookup "include_forecast" (args call)))).
    destruct (OpenMeteoAgent.getWeather rt w _ _ _ t) as [[x|m] t1]; simpl in *; lia. }
  simpl. lia.
Qed.

Lemma mapM_invoke_gets (calls : list (Call rt)) (t : Trace) :
  http_calls (snd (mapM (invoke rt w) calls t)) <= http_calls t + List.length calls.
Proof.
  revert t. induction calls as [|call calls IH]; intros t; [simpl; lia|].
  cbn [mapM]. unfold bind at 1. rewrite invoke_outcome.
  pose proof (dispatch_one_get call t) as H1.
  specialize (IH (snd (dispatch rt w call t))).
  unfold bind at 1.
  destruct (mapM (invoke rt w) calls (snd (dispatch rt w call t))) as [[ys|m] t2];
    simpl in *; lia.
Qed.

End DispatchFacts.

Section LoopEffectFacts.
Import Data Effects GeminiOrchestrator.
Local Open Scope list_scope.
Variable rt : Runtime.
Variable w : World rt.

Lemma forall2_length {A B} (R : A -> B -> Prop) (l1 : list A) (l2 : list B) :
  Forall2 R l1 l2 -> List.length l1 = List.length l2.
Proof. induction 1; simpl; congruence. Qed.

(** The fan-out of a turn sends at most one GET per invocation. *)
Lemma invokeAll_gets (calls : list (Call rt)) (t : Trace) :
  exists outcomes new,
    invokeAll rt w calls t
    = (Ok (map fst outcomes, completion w t (pushed rt outcomes)), new ++ t)
    /\ gets_only new
    /\ List.length outcomes = List.length calls
    /\ http_calls new <= List.length calls.
Proof.
  destruct (mapM_invoke rt w calls t) as (outcomes & new & E & G & F).
  exists outcomes, new. split; [|split; [exact G|split]].
  - unfold invokeAll, bind, history, ret. now rewrite E.
  - symmetry. exact (forall2_length _ _ _ F).
  - pose proof (mapM_invoke_gets rt w calls t) as H. rewrite E in H.
    cbn [snd] in H. rewrite http_calls_app in H. lia.
Qed.

Lemma turns_gets fuel :
  forall userQuery h startTime turn response thoughts (acc : list (Entry rt)) t,
  exists new,
    snd (turns rt w fuel userQuery h startTime turn response thoughts acc t) = new ++ t
    /\ http_calls new <= List.length (Spec.fed_back new).
Proof.
  induction fuel as [|fuel IH];
    intros userQuery h startTime turn response thoughts acc t.
  - exists []. split; [reflexivity | unfold http_calls; simpl; lia].
  - rewrite turns_unfold.
    destruct (reply_cases rt response) as [[message Hf] | [Hf | (call & calls & Hf)]].
    + rewrite (turn_body_throws _ _ _ _ _ _ _ _ _ _ Hf).
      exists []. split; [reflexivity | unfold http_calls; simpl; lia].
    + rewrite (turn_body_final _ _ _ _ _ _ _ _ _ Hf).
      destruct (response_text response); exists []; (split; [reflexivity | unfold http_calls; simpl; lia]).
    + rewrite (turn_body_calls _ _ _ _ _ _ _ _ _ _ _ Hf).
      destruct (invokeAll_gets (call :: calls) t) as (outcomes & new1 & E & G & Hlen & Hg).
      unfold Call in *. rewrite E. cbn [fst snd].
      set (sent := ChatSend (ToolResults (map fst outcomes))).
      assert (Hone : http_calls (sent :: new1)
                     <= List.length (Spec.fed_back (sent :: new1))).
      { change (http_calls (sent :: new1)) with (http_calls new1).
        cbn [Spec.fed_back flat_map sent]. rewrite length_app, length_map. lia. }
      destruct (chat_reply w h (new1 ++ t) (ToolResults (map fst outcomes)))
        as [next|message]; [|exists (sent :: new1); split; [reflexivity | exact Hone]].
      destruct (10 <? turn + 1)%nat;
        [exists (sent :: new1); split; [reflexivity | exact Hone]|].
      destruct (IH userQuery h startTime (turn + 1) next
                   (thoughts ++ extract_thoughts rt response)
                   (acc ++ completion w t (pushed rt outcomes))
                   (sent :: new1 ++ t)) as (new2 & E2 & H2).
      exists (new2 ++ sent :: new1). rewrite E2.
      split; [now rewrite <- app_assoc|].
      rewrite http_calls_app, fed_back_app, length_app. lia.
Qed.

(** X15: in a run of [executeQuery], whatever its outcome, the number of
    GETs sent to the four services is at most the number of tool responses
    sent back to the model: one GET at most per invocation, none repeated. *)
Theorem no_more_gets_than_responses
        (fuel : nat) (userQuery : string) (conversationHistory : option History)
        (t : Trace) :
  exists new,
    snd (executeQuery rt w fuel userQuery conversationHistory t) = new ++ t
    /\ http_calls new <= List.length (Spec.fed_back new).
Proof.
  unfold executeQuery, bind, date_now, sendMessage.
  set (h := match conversationHistory with Some h => h | None => [] end).
  destruct (chat_reply w h t (UserText userQuery)) as [response|message].
  - destruct (turns_gets fuel userQuery h (now w t) 1 response [] []
                (ChatSend (UserText userQuery) :: t)) as (new & -> & H).
    exists (new ++ [ChatSend (UserText userQuery)]).
    split; [now rewrite <- app_assoc|].
    rewrite http_calls_app, fed_back_app, length_app. simpl.
    change (http_calls [ChatSend (UserText userQuery)]) with 0. lia.
  - exists [ChatSend (UserText userQuery)]. split; [reflexivity | unfold http_calls; simpl; lia].
Qed.

Lemma turns_throws fuel :
  forall userQuery h startTime turn response thoughts (acc : list (Entry rt)) t message,
    (exists t0 sent, chat_reply w h t0 sent = Ok response) ->
    fst (turns rt w fuel userQuery h startTime turn response thoughts acc t)
    = Throw message ->
    from_provider rt w h message.
Proof.
  induction fuel as [|fuel IH];
    intros userQuery h startTime turn response thoughts acc t message
           (t0 & sent0 & Hresp) Hrun; [discriminate|].
  rewrite turns_unfold in Hrun.
  destruct (reply_cases rt response) as [[m Hf] | [Hf | (call & calls & Hf)]].
  - rewrite (turn_body_throws _ _ _ _ _ _ _ _ _ _ Hf) in Hrun.
    injection Hrun as <-. exists t0, sent0. right. exists response. auto.
  - rewrite (turn_body_final _ _ _ _ _ _ _ _ _ Hf) in Hrun.
    destruct (response_text response) as [text|m] eqn:Ht; [discriminate|].
    injection Hrun as <-. exists t0, sent0. right. exists response. auto.
  - rewrite (turn_body_calls _ _ _ _ _ _ _ _ _ _ _ Hf) in Hrun.
    destruct (invokeAll_returns rt w (call :: calls) t) as (outcomes & new1 & E & G & F).
    unfold Call in *. rewrite E in Hrun. cbn [fst snd] in Hrun.
    destruct (chat_reply w h (new1 ++ t) (ToolResults (map fst outcomes)))
      as [next|m] eqn:Hnext.
    + destruct (10 <? turn + 1)%nat; [discriminate|].
      apply IH in Hrun; [exact Hrun|]. eauto.
    + injection Hrun as <-. exists (new1 ++ t), (ToolResults (map fst outcomes)).
      now left.
Qed.

(** X16: when [executeQuery] throws, the error is one thrown by the chat
    provider (by a send, or by reading the calls or the text of a reply);
    no failure of an agent, of the validator or of an unknown operation ever
    ends the request. *)
Theorem only_the_provider_can_fail
        (fuel : nat) (userQuery : string) (conversationHistory : option History)
        (t : Trace) (message : string) :
  fst (executeQuery rt w fuel userQuery conversationHistory t) = Throw message ->
  from_provider rt w
    (match conversationHistory with Some h => h | None => [] end) message.
Proof.
  unfold executeQuery, bind, date_now, sendMessage.
  set (h := match conversationHistory with Some h => h | None => [] end).
  destruct (chat_reply w h t (UserText userQuery)) as [response|m] eqn:Hfirst.
  - intros Hrun. apply turns_throws in Hrun; [exact Hrun|]. eauto.
  - cbn [fst]. intros [= <-]. exists t, (UserText userQuery). now left.
Qed.


End LoopEffectFacts.

Lemma only_the_provider_can_fail_witness :
  from_provider Sample.runtime
    (Sample.world (fun _ _ _ => Throw "503 Service Unavailable")) []
    "503 Service Unavailable".
Proof.
  apply (only_the_provider_can_fail Sample.runtime
           (Sample.world (fun _ _ _ => Throw "503 Service Unavailable"))
           10 "Where is Rome?" None []).
  reflexivity.
Defined.


Lemma unknown_function_is_refused_witness :
  fst (GeminiOrchestrator.invoke Sample.runtime (Sample.world Sample.two_tool_model)
         {| Data.name := "search_web"; Data.args := [] |} [])
  = Ok ({| Data.fr_name := "search_web";
           Data.fr_response := Data.tool_error "Unknown function: search_web" |}, None).
Proof.
  rewrite (unknown_function_is_refused Sample.runtime
             (Sample.world Sample.two_tool_model)
             {| Data.name := "search_web"; Data.args := [] |} [] eq_refl).
  reflexivity.
Defined.

(* ================================================================== *)
(** * Part II, continued: commands and the query handler *)
(* ================================================================== *)

Section CommandFacts.
Import ReflexiveMode.
Variable rt : Runtime.
Variable regex_test : string -> string -> bool.
Variable helpText : string.
Variable shortExplanation : string.

(** X18: [handleReflexive] and [isReflexiveQuery] agree on which queries
    are reflexive; a reflexive answer always carries a text and any other
    carries none; and the only commands reported are help, stats, clear and
    new. *)
Theorem handleReflexive_agrees (query : string) :
  isReflexive (handleReflexive rt regex_test helpText shortExplanation query) = isReflexiveQuery rt regex_test query
  /\ (isReflexive (handleReflexive rt regex_test helpText shortExplanation query) = true <-> answer (handleReflexive rt regex_test helpText shortExplanation query) <> None)
  /\ (forall cmd, command (handleReflexive rt regex_test helpText shortExplanation query) = Some cmd ->
                  In cmd ["help"; "stats"; "clear"; "new"]).
Proof.
  unfold handleReflexive. cbv zeta.
  destruct (isReflexiveQuery rt regex_test query) eqn:Emeta;
    unfold isReflexiveQuery in Emeta; cbv zeta in Emeta;
    unfold commands in Emeta; cbn [existsb] in Emeta;
    destruct (JS.startsWith "/help" (normalize rt query));
    destruct (JS.startsWith "/how" (normalize rt query));
    destruct (JS.startsWith "/stats" (normalize rt query));
    destruct (JS.startsWith "/clear" (normalize rt query));
    destruct (JS.startsWith "/new" (normalize rt query));
    cbn [orb isReflexive answer command] in *;
    try discriminate Emeta;
    (split; [reflexivity|]);
    (split; [split; [discriminate | intros H; try reflexivity; now elim H] |]);
    intros cmd [= <-]; simpl; tauto.
Qed.

Lemma spaces_ascii (s : string) : only_spaces s = true -> Spec.only_ascii s = true.
Proof.
  induction s as [|c s IH]; simpl; [reflexivity|].
  intros H. apply andb_true_iff in H as [Hc Hs].
  now rewrite (space_is_ascii c Hc), IH.
Qed.

Lemma fold_space (c : ascii) : JS.is_space c = true -> Spec.fold_char c = c.
Proof.
  destruct c as [[] [] [] [] [] [] [] []]; vm_compute; intros H;
    try reflexivity; discriminate H.
Qed.

Lemma fold_spaces (s : string) : only_spaces s = true -> Spec.fold_case s = s.
Proof.
  induction s as [|c s IH]; simpl; [reflexivity|].
  intros H. apply andb_true_iff in H as [Hc Hs].
  now rewrite (fold_space c Hc), IH.
Qed.

(** The letters of the ASCII range are lower-cased one by one, whatever
    follows them. *)
Lemma lower_of_ascii_prefix (before m rest : string) :
  Spec.only_ascii m = true ->
  JS.lower_of (lower_other rt) before (JS.segments (m ++ rest))
  = Spec.fold_case m
      ++ JS.lower_of (lower_other rt) (before ++ m) (JS.segments rest).
Proof.
  revert before. induction m as [|c m IH]; intros before H.
  - simpl. now rewrite string_app_nil.
  - cbn [Spec.only_ascii] in H. apply andb_true_iff in H as [Hc Hm].
    change (String c m ++ rest) with (String c (m ++ rest)).
    cbn [JS.segments]. rewrite Hc. cbn [JS.lower_of Spec.fold_case].
    rewrite (IH _ Hm), string_app_assoc. reflexivity.
Qed.

Lemma trimStart_spaces (lead : string) (l : list (ascii * bool)) :
  only_spaces lead = true ->
  JS.trimStart (plain_marks lead ++ l)%list = JS.trimStart l.
Proof.
  induction lead as [|c lead IH]; simpl; [reflexivity|].
  intros H. apply andb_true_iff in H as [Hc Hs]. now rewrite Hc, IH.
Qed.

Lemma trimEnd_keeps (p : string) (l : list (ascii * bool)) :
  no_space p = true ->
  exists kept, JS.trimEnd (plain_marks p ++ l)%list = (plain_marks p ++ kept)%list.
Proof.
  induction p as [|c p IH]; intros H.
  - now exists (JS.trimEnd l).
  - cbn [no_space] in H. apply andb_true_iff in H as [Hc Hp].
    apply negb_true_iff in Hc. destruct (IH Hp) as (kept & E).
    cbn [plain_marks]. rewrite <- !app_comm_cons. cbn [JS.trimEnd]. rewrite E, Hc.
    destruct (plain_marks p ++ kept)%list as [|d k] eqn:Ek.
    + destruct p; [|discriminate]. simpl in Ek. subst kept. now exists [].
    + exists kept. now rewrite <- app_comm_cons, Ek.
Qed.

Lemma unmarked_plain_marks (s : string) : JS.unmarked (plain_marks s) = s.
Proof. induction s as [|c s IH]; simpl; [reflexivity | now rewrite IH]. Qed.

(** The normal form of a query that begins, after blanks, tabs or line
    breaks and in any letter case, with the text [p]. *)
Lemma normalize_prefix (lead v rest p : string) (c : ascii) (p' : string) :
  only_spaces lead = true ->
  Spec.fold_case v = p ->
  p = String c p' ->
  Spec.only_ascii p = true ->
  no_space p = true ->
  exists tail, normalize rt (lead ++ v ++ rest) = p ++ tail.
Proof.
  intros Hlead Hv Hp Hascii Hns. unfold normalize, JS.toLowerCase.
  assert (Hva : Spec.only_ascii v = true).
  { now rewrite <- only_ascii_fold, Hv. }
  rewrite (lower_of_ascii_prefix _ _ _ (spaces_ascii _ Hlead)).
  rewrite (lower_of_ascii_prefix _ _ _ Hva), (fold_spaces _ Hlead), Hv.
  set (tail := JS.lower_of _ _ _). unfold JS.trim.
  rewrite (marked_ascii_prefix _ _ _ (spaces_ascii _ Hlead)).
  rewrite (marked_ascii_prefix _ _ _ Hascii).
  rewrite (trimStart_spaces _ _ Hlead).
  assert (Hstart : JS.trimStart (plain_marks p ++ JS.marked (space_other rt) tail)%list
                   = (plain_marks p ++ JS.marked (space_other rt) tail)%list).
  { rewrite Hp in *. cbn [no_space] in Hns.
    apply andb_true_iff in Hns as [Hc _]. apply negb_true_iff in Hc.
    simpl. now rewrite Hc. }
  rewrite Hstart. destruct (trimEnd_keeps p (JS.marked (space_other rt) tail) Hns)
    as (kept & E).
  rewrite E, unmarked_app, unmarked_plain_marks. now exists (JS.unmarked kept).
Qed.

(** X19: a query is taken as a command as soon as it begins with the
    command's text, in any case of its letters, after any leading blanks,
    tabs and line breaks and whatever follows it; [/explain] is answered
    with the short explanation and no command. *)
Theorem commands_are_prefixes (lead v rest : string) :
  only_spaces lead = true ->
  (Spec.fold_case v = "/help" \/ Spec.fold_case v = "/how" ->
   handleReflexive rt regex_test helpText shortExplanation (lead ++ v ++ rest)
   = {| isReflexive := true; command := Some "help"; answer := Some helpText |})
  /\ (Spec.fold_case v = "/stats" ->
      handleReflexive rt regex_test helpText shortExplanation (lead ++ v ++ rest)
      = {| isReflexive := true; command := Some "stats"; answer := Some stats_answer |})
  /\ (Spec.fold_case v = "/clear" ->
      handleReflexive rt regex_test helpText shortExplanation (lead ++ v ++ rest)
      = {| isReflexive := true; command := Some "clear"; answer := Some clear_answer |})
  /\ (Spec.fold_case v = "/new" ->
      handleReflexive rt regex_test helpText shortExplanation (lead ++ v ++ rest)
      = {| isReflexive := true; command := Some "new"; answer := Some new_answer |})
  /\ (Spec.fold_case v = "/explain" ->
      handleReflexive rt regex_test helpText shortExplanation (lead ++ v ++ rest)
      = {| isReflexive := true; command := None; answer := Some shortExplanation |}).
Proof.
  intros Hlead.
  split; [|split; [|split; [|split]]].
  - intros [Hv | Hv];
      destruct (normalize_prefix lead v rest _ _ _ Hlead Hv eq_refl eq_refl eq_refl)
        as (tail & E);
      unfold handleReflexive; cbv zeta; rewrite E; reflexivity.
  - intros Hv.
    destruct (normalize_prefix lead v rest _ _ _ Hlead Hv eq_refl eq_refl eq_refl)
      as (tail & E).
    unfold handleReflexive. cbv zeta. rewrite E. reflexivity.
  - intros Hv.
    destruct (normalize_prefix lead v rest _ _ _ Hlead Hv eq_refl eq_refl eq_refl)
      as (tail & E).
    unfold handleReflexive. cbv zeta. rewrite E. reflexivity.
  - intros Hv.
    destruct (normalize_prefix lead v rest _ _ _ Hlead Hv eq_refl eq_refl eq_refl)
      as (tail & E).
    unfold handleReflexive. cbv zeta. rewrite E. reflexivity.
  - intros Hv.
    destruct (normalize_prefix lead v rest _ _ _ Hlead Hv eq_refl eq_refl eq_refl)
      as (tail & E).
    unfold handleReflexive, isReflexiveQuery. cbv zeta. rewrite E. reflexivity.
Qed.

End CommandFacts.

Lemma commands_are_prefixes_witness :
  ReflexiveMode.handleReflexive Sample.runtime (fun _ _ => false) "help" "short"
    "  /NEWSLETTER about Rome"
  = {| ReflexiveMode.isReflexive := true;
       ReflexiveMode.command := Some "new";
       ReflexiveMode.answer := Some ReflexiveMode.new_answer |}.
Proof.
  apply (commands_are_prefixes Sample.runtime (fun _ _ => false) "help" "short"
           "  " "/NEW" "SLETTER about Rome" eq_refl).
  reflexivity.
Defined.

Section HandlerFacts.
Import Data Effects.
Import ConversationManager.
Variable rt : Runtime.
Variable w : World rt.
Variable regex_test : string -> string -> bool.
Variable helpText : string.
Variable shortExplanation : string.

Lemma nonempty_eqb (s : string) : s <> EmptyString -> String.eqb s EmptyString = false.
Proof. intros H. now apply String.eqb_neq. Qed.

(** X20: a request without a non-empty query string is refused with status
    400, and a query for a conversation that the store does not hold with
    status 404 naming the identifier; in both cases nothing is sent and the
    store is left as it was. *)
Theorem refused_requests_change_nothing
        (fuel : nat) (stamps : Server.Stamps) (body : Server.Body rt)
        (store : Server.Store rt) (t : Trace) :
  (match Server.query rt body with
   | VString q => q = EmptyString
   | _ => True
   end ->
   Server.postQuery rt w regex_test helpText shortExplanation fuel stamps body store t
   = Some (Server.BadRequest rt "Query string required", store, t))
  /\ (forall q,
        Server.query rt body = VString q ->
        q <> EmptyString ->
        ReflexiveMode.isReflexive
          (ReflexiveMode.handleReflexive rt regex_test helpText shortExplanation q) = false ->
        Arg.truthy (Server.conversationId rt body) = true ->
        Server.find_conversation rt (Server.conversationId rt body) store = None ->
        Server.postQuery rt w regex_test helpText shortExplanation fuel stamps body store t
        = Some (Server.NotFound rt
                  ("Conversation " ++ Arg.to_string (Server.conversationId rt body)
                     ++ " not found"),
                store, t)).
Proof.
  split.
  - unfold Server.postQuery. destruct (Server.query rt body); try reflexivity.
    intros ->. reflexivity.
  - intros q Hq Hne Hrefl Hid Hfind. unfold Server.postQuery.
    now rewrite Hq, (nonempty_eqb _ Hne), Hrefl, Hid, Hfind.
Qed.

(** X21: a reflexive query is answered by the handler itself: nothing is
    sent to the model or to any service, and the store is left as it was,
    except that the command clear given with the identifier of a
    conversation deletes that conversation. *)
Theorem reflexive_requests_stay_local
        (fuel : nat) (stamps : Server.Stamps) (body : Server.Body rt)
        (store : Server.Store rt) (t : Trace) (q : string) :
  Server.query rt body = VString q ->
  q <> EmptyString ->
  ReflexiveMode.isReflexive
    (ReflexiveMode.handleReflexive rt regex_test helpText shortExplanation q) = true ->
  exists answer store',
    Server.postQuery rt w regex_test helpText shortExplanation fuel stamps body store t
    = Some (Server.ReflexiveAnswer rt
              (ReflexiveMode.command
                 (ReflexiveMode.handleReflexive rt regex_test helpText shortExplanation q))
              q answer,
            store', t)
    /\ (forall key,
          ReflexiveMode.command
            (ReflexiveMode.handleReflexive rt regex_test helpText shortExplanation q)
          = Some "clear" ->
          Server.conversationId rt body = VString key ->
          key <> EmptyString ->
          store' = fst (deleteConversation _ key store))
    /\ (ReflexiveMode.command
          (ReflexiveMode.handleReflexive rt regex_test helpText shortExplanation q)
        <> Some "clear"
        \/ Arg.truthy (Server.conversationId rt body) = false ->
        store' = store).
Proof.
  intros Hq Hne Hrefl. unfold Server.postQuery.
  rewrite Hq, (nonempty_eqb _ Hne), Hrefl.
  do 2 eexists. split; [reflexivity|]. split.
  - intros key Hcmd Hid Hkey. rewrite Hcmd, Hid.
    change (String.eqb "clear" "clear") with true.
    cbn [Arg.truthy andb Server.as_key]. now rewrite (nonempty_eqb _ Hkey).
  - intros [Hcmd | Hid].
    + destruct (ReflexiveMode.command _) as [cmd|]; [|reflexivity].
      destruct (String.eqb cmd "clear") eqn:E; [|reflexivity].
      apply String.eqb_eq in E. subst cmd. now elim Hcmd.
    + rewrite Hid. destruct (ReflexiveMode.command _) as [cmd|]; [|reflexivity].
      now rewrite andb_false_r.
Qed.

(** X24: a request that names no conversation never changes the store,
    whatever it asks and however it ends. *)
Theorem stateless_requests_keep_the_store
        (fuel : nat) (stamps : Server.Stamps) (body : Server.Body rt)
        (store : Server.Store rt) (t : Trace)
        (reply : Server.Reply rt) (store' : Server.Store rt) (t' : Trace) :
  Arg.truthy (Server.conversationId rt body) = false ->
  Server.postQuery rt w regex_test helpText shortExplanation fuel stamps body store t
  = Some (reply, store', t') ->
  store' = store.
Proof.
  intros Hid. unfold Server.postQuery. rewrite Hid.
  destruct (Server.query rt body) as [| |b|n|q|o]; try (intros [= _ <- _]; reflexivity).
  destruct (String.eqb q EmptyString); [intros [= _ <- _]; reflexivity|].
  destruct (ReflexiveMode.isReflexive _).
  - destruct (ReflexiveMode.command _) as [cmd|];
      [rewrite andb_false_r|]; intros [= _ <- _]; reflexivity.
  - unfold Server.answer_query.
    destruct (GeminiOrchestrator.executeQuery rt w fuel q (Some []) t)
      as [[[result|]|message] t1]; [| discriminate |];
      intros [= _ <- _]; reflexivity.
Qed.

(** What the handler does once the conversation has been found. *)
Lemma answer_query_in_conversation
      (fuel : nat) (stamps : Server.Stamps) (q : string)
      (store : Server.Store rt) (t : Trace) (cid : string) c :
  reachable _ store ->
  getConversation _ store cid = Some c ->
  exists store1 c1 um,
    addUserMessage _ cid q (Server.user_id stamps) (Server.user_stamp stamps)
      (Server.user_now stamps) store = Ok (store1, um)
    /\ getConversation _ store1 cid = Some c1
    /\ messages c1 = (messages c ++ [um])%list
    /\ role um = user /\ content um = q /\ queryResponse um = None
    /\ (forall other, other <> cid ->
          getConversation _ store1 other = getConversation _ store other)
    /\ Server.answer_query rt w fuel stamps q (Some c) store t
       = match GeminiOrchestrator.executeQuery rt w fuel q
                 (Some (getGeminiHistory _ cid store)) t with
         | (Ok None, _) => None
         | (Throw message, t1) => Some (Server.ServerError rt message, store1, t1)
         | (Ok (Some result), t1) =>
             Some (Server.QueryAnswer rt (Some cid) result,
                   with_conversations _
                     (JS.set cid
                        {| id := id c1; title := title c1;
                           messages :=
                             (messages c1
                                ++ [{| message_id := Server.assistant_id stamps;
                                       role := assistant;
                                       content := Types.answer result;
                                       timestamp := Server.assistant_stamp stamps;
                                       queryResponse := Some result |}])%list;
                           createdAt := createdAt c1;
                           updatedAt := Server.assistant_now stamps;
                           metadata :=
                             match metadata c1 with
                             | Some md => Some (fold_turn _ result md)
                             | None => None
                             end |}
                        (conversations store1))
                     store1,
                   t1)
         end.
Proof.
  intros Hreach Hget.
  destruct (reachable_store_invariant _ store Hreach) as (_ & Hid & _).
  assert (Hc : id c = cid) by (apply Hid; now apply get_some_in).
  unfold getConversation in Hget.
  unfold Server.answer_query. rewrite Hc.
  unfold addUserMessage at 1 2. rewrite Hget.
  do 3 eexists. split; [reflexivity|].
  unfold getConversation. cbn [conversations with_conversations].
  rewrite get_set_same. split; [reflexivity|]. cbn [messages role content queryResponse].
  split; [reflexivity|]. split; [reflexivity|]. split; [reflexivity|].
  split; [reflexivity|]. split.
  - intros other Hne. apply get_set_other. congruence.
  - destruct (GeminiOrchestrator.executeQuery rt w fuel q _ t)
      as [[[result|]|message] t1]; try reflexivity.
    unfold addAssistantMessage. cbn [conversations with_conversations].
    rewrite get_set_same. reflexivity.
Qed.

(** X22: a query that is not reflexive, sent for a conversation the store
    holds, for which the orchestrator returns a record: the handler answers
    with that record under the conversation's identifier; the model was
    started on the history as it was before the request; and the
    conversation has gained exactly the user message with the query and then
    the assistant message with the answer and the record attached, every
    other conversation being as before. *)
Theorem answered_turn_is_recorded
        (fuel : nat) (stamps : Server.Stamps) (body : Server.Body rt)
        (store : Server.Store rt) (t : Trace) (q cid : string) c
        (result : GeminiOrchestrator.Response rt) (t1 : Trace) :
  reachable _ store ->
  Server.query rt body = VString q -> q <> EmptyString ->
  ReflexiveMode.isReflexive
    (ReflexiveMode.handleReflexive rt regex_test helpText shortExplanation q) = false ->
  Server.conversationId rt body = VString cid -> cid <> EmptyString ->
  getConversation _ store cid = Some c ->
  GeminiOrchestrator.executeQuery rt w fuel q (Some (getGeminiHistory _ cid store)) t
  = (Ok (Some result), t1) ->
  exists store2 c2 um am,
    Server.postQuery rt w regex_test helpText shortExplanation fuel stamps body store t
    = Some (Server.QueryAnswer rt (Some cid) result, store2, t1)
    /\ getConversation _ store2 cid = Some c2
    /\ messages c2 = (messages c ++ [um; am])%list
    /\ role um = user /\ content um = q /\ queryResponse um = None
    /\ role am = assistant /\ content am = Types.answer result
    /\ queryResponse am = Some result
    /\ getGeminiHistory _ cid store2
       = (getGeminiHistory _ cid store
            ++ [("user", [q]); ("model", [Types.answer result])])%list
    /\ (forall other, other <> cid ->
          getConversation _ store2 other = getConversation _ store other).
Proof.
  intros Hreach Hq Hne Hrefl Hid Hcid Hget Hrun.
  destruct (answer_query_in_conversation fuel stamps q store t cid c Hreach Hget)
    as (store1 & c1 & um & _ & Hget1 & Hm1 & Hr & Hcont & Hqr & Hother & Hans).
  unfold Server.postQuery.
  rewrite Hq, (nonempty_eqb _ Hne), Hrefl, Hid.
  cbn [Arg.truthy Server.find_conversation Server.as_key].
  rewrite (nonempty_eqb _ Hcid). cbn [negb]. rewrite Hget, Hans, Hrun.
  do 4 eexists. split; [reflexivity|].
  unfold getConversation, getGeminiHistory. cbn [conversations with_conversations].
  rewrite get_set_same. split; [reflexivity|]. cbn [messages].
  unfold getConversation in Hget. rewrite Hget, Hm1.
  split; [symmetry; exact (app_assoc (messages c) [um] [_])|].
  cbn [role content queryResponse].
  do 6 (split; [assumption || reflexivity|]). split.
  - rewrite !map_app. cbn [map role content is_user]. rewrite Hr, Hcont.
    cbn [is_user]. symmetry. exact (app_assoc _ [_] [_]).
  - intros other Hne'. rewrite get_set_other by congruence. now apply Hother.
Qed.

(** X23: in the same situation, when the orchestrator throws instead, the
    handler answers with status 500 and the error's message, and the
    conversation keeps the user message it had just recorded, with no
    assistant message after it. *)
Theorem failed_turn_keeps_the_question
        (fuel : nat) (stamps : Server.Stamps) (body : Server.Body rt)
        (store : Server.Store rt) (t : Trace) (q cid : string) c
        (message : string) (t1 : Trace) :
  reachable _ store ->
  Server.query rt body = VString q -> q <> EmptyString ->
  ReflexiveMode.isReflexive
    (ReflexiveMode.handleReflexive rt regex_test helpText shortExplanation q) = false ->
  Server.conversationId rt body = VString cid -> cid <> EmptyString ->
  getConversation _ store cid = Some c ->
  GeminiOrchestrator.executeQuery rt w fuel q (Some (getGeminiHistory _ cid store)) t
  = (Throw message, t1) ->
  exists store1 c1 um,
    Server.postQuery rt w regex_test helpText shortExplanation fuel stamps body store t
    = Some (Server.ServerError rt message, store1, t1)
    /\ getConversation _ store1 cid = Some c1
    /\ messages c1 = (messages c ++ [um])%list
    /\ role um = user /\ content um = q
    /\ metadata c1 = metadata c.
Proof.
  intros Hreach Hq Hne Hrefl Hid Hcid Hget Hrun.
  destruct (reachable_store_invariant _ store Hreach) as (_ & Hkey & _).
  assert (Hc : id c = cid) by (apply Hkey; now apply get_some_in).
  unfold Server.postQuery.
  rewrite Hq, (nonempty_eqb _ Hne), Hrefl, Hid.
  cbn [Arg.truthy Server.find_conversation Server.as_key].
  rewrite (nonempty_eqb _ Hcid). cbn [negb]. rewrite Hget.
  unfold Server.answer_query. rewrite Hc. unfold addUserMessage.
  unfold getConversation in Hget. rewrite Hget, Hrun.
  do 3 eexists. split; [reflexivity|].
  unfold getConversation. cbn [conversations with_conversations].
  rewrite get_set_same. repeat split.
Qed.


End HandlerFacts.

(** ** The handler on concrete requests *)

Lemma reflexive_requests_stay_local_witness :
  exists answer store',
    Server.postQuery Sample.runtime (Sample.world SampleRequests.failing_model)
      SampleRequests.no_pattern "help" "short" 10 SampleRequests.stamps
      (SampleRequests.ask "/clear" (Data.VString "c1"))
      SampleRequests.one_conversation []
    = Some (Server.ReflexiveAnswer Sample.runtime (Some "clear") "/clear" answer, store', [])
    /\ store' = fst (ConversationManager.deleteConversation _ "c1"
                       SampleRequests.one_conversation).
Proof.
  destruct (reflexive_requests_stay_local Sample.runtime
              (Sample.world SampleRequests.failing_model)
              SampleRequests.no_pattern "help" "short" 10 SampleRequests.stamps
              (SampleRequests.ask "/clear" (Data.VString "c1"))
              SampleRequests.one_conversation [] "/clear" eq_refl)
    as (answer & store' & Hpost & Hclear & _).
  - discriminate.
  - reflexivity.
  - exists answer, store'. split; [exact Hpost|].
    apply (Hclear "c1"); [reflexivity | reflexivity | discriminate].
Defined.

Lemma stateless_requests_keep_the_store_witness :
  exists reply t',
    Server.postQuery Sample.runtime (Sample.world SampleRequests.direct_model)
      SampleRequests.no_pattern "help" "short" 10 SampleRequests.stamps
      (SampleRequests.ask "Where is Rome?" Data.VUndefined)
      SampleRequests.one_conversation []
    = Some (reply, SampleRequests.one_conversation, t').
Proof.
  destruct (Server.postQuery Sample.runtime (Sample.world SampleRequests.direct_model)
              SampleRequests.no_pattern "help" "short" 10 SampleRequests.stamps
              (SampleRequests.ask "Where is Rome?" Data.VUndefined)
              SampleRequests.one_conversation [])
    as [[[reply store'] t']|] eqn:E.
  - exists reply, t'.
    now rewrite (stateless_requests_keep_the_store Sample.runtime
                   (Sample.world SampleRequests.direct_model)
                   SampleRequests.no_pattern "help" "short" 10 SampleRequests.stamps
                   (SampleRequests.ask "Where is Rome?" Data.VUndefined)
                   SampleRequests.one_conversation [] reply store' t' eq_refl E).
  - vm_compute in E. discriminate E.
Defined.

Lemma answered_turn_is_recorded_witness :
  exists store2 result t1,
    Server.postQuery Sample.runtime (Sample.world SampleRequests.direct_model)
      SampleRequests.no_pattern "help" "short" 10 SampleRequests.stamps
      (SampleRequests.ask "Where is Rome?" (Data.VString "c1"))
      SampleRequests.one_conversation []
    = Some (Server.QueryAnswer Sample.runtime (Some "c1") result, store2, t1)
    /\ ConversationManager.getGeminiHistory _ "c1" store2
       = [("user", ["Where is Rome?"]); ("model", ["Rome is the capital of Italy."])].
Proof.
  edestruct (answered_turn_is_recorded Sample.runtime
              (Sample.world SampleRequests.direct_model)
              SampleRequests.no_pattern "help" "short" 10 SampleRequests.stamps
              (SampleRequests.ask "Where is Rome?" (Data.VString "c1"))
              SampleRequests.one_conversation [] "Where is Rome?" "c1"
              (snd (ConversationManager.createConversation (Data.Args Z) None "c1" 10 10
                      (ConversationManager.new (Data.Args Z) 100))))
    as (store2 & c2 & um & am & Hpost & _ & _ & _ & _ & _ & _ & _ & _ & Hhist & _).
  - apply ConversationManager.reach_create, ConversationManager.reach_new.
  - reflexivity.
  - discriminate.
  - reflexivity.
  - reflexivity.
  - discriminate.
  - reflexivity.
  - vm_compute. reflexivity.
  - exists store2. do 2 eexists. split; [exact Hpost | exact Hhist].
Defined.

Lemma failed_turn_keeps_the_question_witness :
  exists store1 t1,
    Server.postQuery Sample.runtime (Sample.world SampleRequests.failing_model)
      SampleRequests.no_pattern "help" "short" 10 SampleRequests.stamps
      (SampleRequests.ask "Where is Rome?" (Data.VString "c1"))
      SampleRequests.one_conversation []
    = Some (Server.ServerError Sample.runtime "503 Service Unavailable", store1, t1)
    /\ ConversationManager.getGeminiHistory _ "c1" store1
       = [("user", ["Where is Rome?"])].
Proof.
  edestruct (failed_turn_keeps_the_question Sample.runtime
              (Sample.world SampleRequests.failing_model)
              SampleRequests.no_pattern "help" "short" 10 SampleRequests.stamps
              (SampleRequests.ask "Where is Rome?" (Data.VString "c1"))
              SampleRequests.one_conversation [] "Where is Rome?" "c1"
              (snd (ConversationManager.createConversation (Data.Args Z) None "c1" 10 10
                      (ConversationManager.new (Data.Args Z) 100)))
              "503 Service Unavailable")
    as (store1 & c1 & um & Hpost & Hget & Hm & Hr & Hc & _).
  - apply ConversationManager.reach_create, ConversationManager.reach_new.
  - reflexivity.
  - discriminate.
  - reflexivity.
  - reflexivity.
  - discriminate.
  - reflexivity.
  - vm_compute. reflexivity.
  - exists store1. eexists. split; [exact Hpost|].
    unfold ConversationManager.getGeminiHistory.
    unfold ConversationManager.getConversation in Hget.
    rewrite Hget, Hm, map_app. cbn [map]. rewrite Hr, Hc. reflexivity.
Defined.


(** ** The no-result texts *)

Section MarkerFacts.
Import Data.
Variable rt : Runtime.

Lemma trim_found (rest : string) :
  JS.trim (space_other rt) ("Found " ++ rest) <> "No results found.".
Proof.
  unfold JS.trim. change ("Found " ++ rest) with ("Found" ++ (" " ++ rest)).
  rewrite (marked_ascii_prefix (space_other rt) "Found" (" " ++ rest) eq_refl).
  change (JS.trimStart (plain_marks "Found" ++ JS.marked (space_other rt) (" " ++ rest))%list)
    with (plain_marks "Found" ++ JS.marked (space_other rt) (" " ++ rest))%list.
  destruct (trimEnd_keeps "Found" (JS.marked (space_other rt) (" " ++ rest)) eq_refl)
    as (kept & E).
  rewrite E. simpl. discriminate.
Qed.

(** X9: the two formatting functions return their no-result text exactly
    when there is nothing to show: a Wikidata result with at least one
    binding and a non-empty list of geocoding candidates are never rendered
    as the no-result text. *)
Theorem no_result_text_means_empty :
  (forall results : WikidataQueryResult,
      WikidataAgent.formatResults rt results = "No results found."
      <-> bindings results = [])
  /\ (forall results : list NominatimResult,
        NominatimAgent.formatResults results = "No locations found."
        <-> results = []).
Proof.
  split; intros results; split.
  - unfold WikidataAgent.formatResults. cbv zeta.
    destruct (bindings results) as [|b bs]; [reflexivity|].
    cbn [List.length Nat.eqb]. intros H. exfalso.
    destruct (10 <? S (List.length bs))%nat.
    + exact (trim_found (_ ++ _) H).
    + exact (trim_found _ H).
  - intros H. unfold WikidataAgent.formatResults. now rewrite H.
  - destruct results as [|r1 [|r2 rest]]; [reflexivity | |]; intros H; exfalso.
    + simpl in H. discriminate H.
    + unfold NominatimAgent.formatResults, JS.join, mapi in H. simpl in H.
      discriminate H.
  - intros ->. reflexivity.
Qed.

End MarkerFacts.
